(** * lux_ai.nns.models: the actor-critic network of the Lux AI agent

    A shallow embedding of [src/lux_ai/nns/models.py]: the classes
    [DictActor], [ValueActivation] and [BasicActorCriticNetwork], together
    with the parts of numpy, gym and torch they call.

    Conventions.
    - A tensor is a shape and its elements in row-major (contiguous) order.
    - Floating-point elements are modelled by real numbers: arithmetic is
      exact, there is no rounding, overflow, infinity or NaN.  Integer
      tensors (actions) hold natural numbers.
    - numpy's [int64] arithmetic wraps around, and is modelled on [Z] with
      the wrap-around written out.  The channel counts that a caller passes
      to a constructor are natural numbers; the number of output channels
      that [DictActor.__init__] computes is an [int64] and can be negative.
    - Python exceptions are values of [exn]; a computation that may raise
      returns [result].  Code that also draws from torch's random generator
      runs in the state-and-exception monad [M].  Memory is not bounded: no
      allocation fails.
    - Python dictionaries with string keys are [gmap string _].
    - torch is modelled as its current releases behave; where a release of
      the time the code was written differs, the definition says so. *)

From Stdlib Require Import Reals Lra Lia ZArith Ascii.
From stdpp Require Import base option list gmap strings fin_maps.

Set Default Proof Using "Type*".

(** ** Exceptions and the two monads *)

Inductive exn : Set :=
| ValueError
| AssertionError
| KeyError
| AttributeError
| IndexError
| RuntimeError.

#[global] Instance exn_eq_dec : EqDecision exn.
Proof. solve_decision. Defined.

Definition result (A : Type) : Type := exn + A.

#[global] Instance result_ret : MRet result := λ A a, inr a.
#[global] Instance result_bind : MBind result := λ A B f m,
  match m with
  | inl e => inl e
  | inr a => f a
  end.

(** [M S A]: a computation on a mutable state [S] that returns an [A] or
    raises; the state survives an exception. *)
Definition M (S A : Type) : Type := S → result A * S.

#[global] Instance M_ret {S} : MRet (M S) := λ A a s, (inr a, s).
#[global] Instance M_bind {S} : MBind (M S) := λ A B f m s,
  match m s with
  | (inl e, s') => (inl e, s')
  | (inr a, s') => f a s'
  end.

Definition raise {S A} (e : exn) : M S A := λ s, (inl e, s).
Definition lift {S A} (r : result A) : M S A := λ s, (r, s).

(** Python's [assert]. *)
Definition py_assert {S} (b : bool) : M S unit :=
  if b then mret () else raise AssertionError.

(** Python's [all] over a list of booleans. *)
Definition py_all (l : list bool) : bool := forallb (λ b, b) l.

(** [d[key]] on a dictionary: [KeyError] when the key is absent. *)
Definition getitem {V} (d : gmap string V) (key : string) : result V :=
  match d !! key with
  | Some v => inr v
  | None => inl KeyError
  end.

(** [d.values()] and [d.items()]. *)
Definition dict_values {V} (d : gmap string V) : list V := (map_to_list d).*2.
Definition dict_items {V} (d : gmap string V) : list (string * V) := map_to_list d.

(** A dictionary built from the items of another one, [{k: f(k, v) for k, v in
    d.items()}], and likewise a [for k, v in d.items()] loop that stores one
    value per key: the body runs once per item, in iteration order, and the
    first exception ends the loop. *)
Definition dict_for {S V B} (f : string → V → M S B) (d : gmap string V)
  : M S (gmap string B) :=
  l ← mapM (λ kv, b ← f kv.1 kv.2; mret (kv.1, b)) (dict_items d);
  mret (list_to_map l).

(** ** Tensors *)

Record tensor (A : Type) : Type := Tensor { shape : list nat; data : list A }.
Arguments Tensor {A} _ _.
Arguments shape {A} _.
Arguments data {A} _.

Definition numel_of (s : list nat) : nat := foldr Nat.mul 1 s.
Definition numel {A} (t : tensor A) : nat := numel_of (shape t).

(** The invariant of every tensor the libraries build. *)
Definition tensor_wf {A} (t : tensor A) : Prop := length (data t) = numel t.

(** [l[:-2]] on a tuple. *)
Definition slice_to_neg2 {A} (l : list A) : list A := take (length l - 2) l.

(** ** numpy: [int64], [ndarray.min], [ndarray.max] and [prod] *)

(** The value an [int64] holds after an operation whose exact result is [z]:
    numpy warns on overflow and keeps the low 64 bits, read as a signed
    number. *)
Definition int64_wrap (z : Z) : Z := ((z + 2 ^ 63) mod 2 ^ 64 - 2 ^ 63)%Z.

(** [a * b] on two [int64] scalars. *)
Definition int64_mul (a b : Z) : Z := int64_wrap (a * b).

(** [np.prod(t)] on a tuple of sizes: the product, taken in [int64]. *)
Definition np_prod (t : list nat) : Z := foldr (λ d acc, int64_mul (Z.of_nat d) acc) 1%Z t.

(** [min] and [max] raise [ValueError] on an array without elements
    ("zero-size array to reduction operation ... which has no identity"). *)

Definition nd_min (a : tensor positive) : result positive :=
  match data a with
  | [] => inl ValueError
  | x :: l => inr (foldr Pos.min x l)
  end.

Definition nd_max (a : tensor positive) : result positive :=
  match data a with
  | [] => inl ValueError
  | x :: l => inr (foldr Pos.max x l)
  end.

(** ** gym: action spaces

    [MultiDiscrete(nvec)] asserts [nvec > 0] when it is built, hence the
    counts are [positive]; its [shape] is the shape of [nvec].  An action
    space [gym.spaces.Dict] is a dictionary of spaces. *)

Inductive space : Type :=
| Discrete (n : positive)
| MultiBinary (sh : list nat)
| MultiDiscrete (nvec : tensor positive)
| Box (sh : list nat).

Definition space_shape (sp : space) : list nat :=
  match sp with
  | Discrete _ => []
  | MultiBinary sh => sh
  | MultiDiscrete nvec => shape nvec
  | Box sh => sh
  end.

(** [isinstance(space, gym.spaces.MultiDiscrete)] *)
Definition is_MultiDiscrete (sp : space) : bool :=
  match sp with
  | MultiDiscrete _ => true
  | _ => false
  end.

(** [space.nvec] *)
Definition space_nvec (sp : space) : result (tensor positive) :=
  match sp with
  | MultiDiscrete nvec => inr nvec
  | _ => inl AttributeError
  end.

(** ** torch: the random generator

    [uniform_ lo hi] draws one number from U(lo, hi) and [exponential_ lambd]
    one from Exp(lambd); both advance the generator. *)

Class Generator (G : Type) : Type := {
  uniform_ : R → R → G → R * G;
  exponential_ : R → G → R * G;
}.

(** [n] draws in sequence. *)
Fixpoint draws {G} (draw : G → R * G) (n : nat) (g : G) : list R * G :=
  match n with
  | O => ([], g)
  | S n' =>
      let '(x, g1) := draw g in
      let '(l, g2) := draws draw n' g1 in
      (x :: l, g2)
  end.

(** ** torch.nn.Module names

    [hasattr(m, name)] on a fresh [nn.ModuleDict]: whether the class already
    has an attribute or a method of that name ("keys", "training",
    "forward", ...).  The names differ from release to release. *)

Class TorchRelease : Type := {
  ModuleDict_hasattr : string → bool;
}.

Fixpoint contains_dot (name : string) : bool :=
  match name with
  | EmptyString => false
  | String a name' => Ascii.eqb a "."%char || contains_dot name'
  end.

(** The names that [Module.add_module] takes: it raises [KeyError] for a
    name that is an attribute already, that contains a dot, or that is
    empty. *)
Definition valid_module_name {release : TorchRelease} (name : string) : bool :=
  negb (ModuleDict_hasattr name) && negb (contains_dot name)
  && negb (bool_decide (name = EmptyString)).

(** [nn.ModuleDict(d)]: the modules of [d] under their keys. *)
Definition ModuleDict_new {release : TorchRelease} {V} (d : gmap string V)
  : result (gmap string V) :=
  if forallb valid_module_name (dict_items d).*1 then inr d else inl KeyError.

(** ** torch.nn.Conv2d with a (1, 1) kernel *)

Record Conv2d : Type := {
  conv_in_channels : nat;
  conv_out_channels : nat;
  conv_weight : tensor R;   (* (out_channels, in_channels, 1, 1) *)
  conv_bias : tensor R;     (* (out_channels) *)
}.

Section Constructors.
Context {G : Type} `{!Generator G}.

(** [nn.Conv2d(in_channels, out_channels, (1, 1))].  A negative
    [out_channels] raises [RuntimeError] when the weight is allocated
    ("Trying to create tensor with negative dimension").  Weight and bias
    are drawn from U(-1/sqrt(fan_in), 1/sqrt(fan_in)), fan_in = in_channels;
    with fan_in = 0 the weight has no element and the bias is not
    initialised: nothing is drawn, and the bias holds zeros here where the
    code leaves what the memory held. *)
Definition Conv2d_new (in_channels : nat) (out_channels : Z) : M G Conv2d :=
  if bool_decide (out_channels < 0)%Z then raise RuntimeError
  else λ g,
    let oc := Z.to_nat out_channels in
    let bound := (1 / sqrt (INR in_channels))%R in
    let '(w, g1) := draws (uniform_ (- bound) bound) (oc * in_channels) g in
    let '(b, g2) :=
      if bool_decide (in_channels = 0) then (replicate oc 0%R, g1)
      else draws (uniform_ (- bound) bound) oc g1 in
    (inr {| conv_in_channels := in_channels;
            conv_out_channels := oc;
            conv_weight := Tensor [oc; in_channels; 1; 1] w;
            conv_bias := Tensor [oc] b |}, g2).

End Constructors.

(** ** class DictActor *)

Record DictActor : Type := {
  n_actions : gmap string nat;
  action_plane_shapes : gmap string (list nat);
  actors : gmap string Conv2d;
}.

Section DictActor_init.
Context {G : Type} `{!Generator G} {release : TorchRelease}.

(** The three checks at the head of [DictActor.__init__]; each is an
    [all([... for space in action_space.spaces.values()])] whose list is
    built in full before [all] looks at it. *)
Definition check_MultiDiscrete (action_space : gmap string space) : result unit :=
  if py_all (is_MultiDiscrete <$> dict_values action_space) then mret ()
  else inl ValueError.

Definition check_ndims (action_space : gmap string space) : result unit :=
  if py_all ((λ sp, bool_decide (length (space_shape sp) = 4)) <$> dict_values action_space)
  then mret ()
  else inl ValueError.

Definition same_n_actions (sp : space) : result bool :=
  nvec ← space_nvec sp;
  lo ← nd_min nvec;
  hi ← nd_max nvec;
  mret (bool_decide (lo = hi)).

Definition check_n_actions (action_space : gmap string space) : result unit :=
  flags ← mapM same_n_actions (dict_values action_space);
  if py_all flags then mret () else inl ValueError.

Definition DictActor_validate (action_space : gmap string space) : result unit :=
  check_MultiDiscrete action_space;;
  check_ndims action_space;;
  check_n_actions action_space.

(** The number of output channels [n_act * np.prod(action_plane_shape)] is
    a product of [int64] values.  The dictionary of convolutions is built in
    full before [nn.ModuleDict] looks at its keys. *)
Definition DictActor_init (in_channels : nat) (action_space : gmap string space)
  : M G DictActor :=
  lift (DictActor_validate action_space);;
  n_actions ← dict_for (λ key sp,
      lift (nvec ← space_nvec sp; lo ← nd_min nvec; mret (Pos.to_nat lo)))
    action_space;
  let action_plane_shapes := (λ sp, slice_to_neg2 (space_shape sp)) <$> action_space in
  py_assert (py_all ((λ aps, bool_decide (length aps = 2)) <$> dict_values action_plane_shapes));;
  convs ← dict_for (λ key n_act,
      aps ← lift (getitem action_plane_shapes key);
      Conv2d_new in_channels (int64_mul (Z.of_nat n_act) (np_prod aps)))
    n_actions;
  actors ← lift (ModuleDict_new convs);
  mret {| n_actions := n_actions;
          action_plane_shapes := action_plane_shapes;
          actors := actors |}.

End DictActor_init.
(** ** torch: shapes, strides and views *)

#[global] Instance R_inhabited : Inhabited R := populate 0%R.
#[global] Instance Rle_decision (x y : R) : Decision (x <= y)%R := Rle_dec x y.
#[global] Instance Rlt_decision (x y : R) : Decision (x < y)%R := Rlt_dec x y.
#[global] Instance Req_decision : EqDecision R := Req_dec_T.

Definition Rsum (l : list R) : R := foldr Rplus 0%R l.

(** Row-major strides of a shape, and the multi-index of a flat offset. *)
Fixpoint strides (s : list nat) : list nat :=
  match s with
  | [] => []
  | _ :: s' => numel_of s' :: strides s'
  end.

Definition unravel (s : list nat) (i : nat) : list nat :=
  zip_with (λ d st, (i / st) mod d) s (strides s).

(** One size of [Tensor.view]: a number, or [-1] for "infer it". *)
Inductive view_dim : Set :=
| Infer
| Dim (n : nat).

#[global] Instance view_dim_eq_dec : EqDecision view_dim.
Proof. solve_decision. Defined.

Definition known_dims (dims : list view_dim) : list nat :=
  omap (λ d, match d with Dim n => Some n | Infer => None end) dims.

Definition infer_count (dims : list view_dim) : nat :=
  length (filter (λ d, d = Infer) dims).

Definition fill_dim (n : nat) (d : view_dim) : nat :=
  match d with
  | Dim k => k
  | Infer => n
  end.

(** [t.view(dims)] on a contiguous tensor: the elements stay, the shape is
    replaced; the sizes must multiply to the number of elements, and one
    [-1] is inferred when that is possible without ambiguity. *)
Definition view {A} (t : tensor A) (dims : list view_dim) : result (tensor A) :=
  let known := numel_of (known_dims dims) in
  match infer_count dims with
  | 0 =>
      if bool_decide (known = numel t) then inr (Tensor (fill_dim 0 <$> dims) (data t))
      else inl RuntimeError
  | 1 =>
      if bool_decide (known = 0) then inl RuntimeError
      else if bool_decide (numel t mod known = 0)
           then inr (Tensor (fill_dim (numel t / known) <$> dims) (data t))
           else inl RuntimeError
  | _ => inl RuntimeError
  end.

(** [t.permute(dims).contiguous()]: axis [k] of the result is axis
    [dims[k]] of [t]; the elements are laid out again in row-major order. *)
Definition permute {A} `{!Inhabited A} (t : tensor A) (dims : list nat)
  : result (tensor A) :=
  let s := shape t in
  if bool_decide (length dims = length s ∧ NoDup dims ∧ Forall (λ d, d < length s) dims)
  then
    let s' := (λ d, nth d s 0) <$> dims in
    let src j := sum_list (zip_with (λ i d, i * nth d (strides s) 0) (unravel s' j) dims) in
    inr (Tensor s' ((λ j, nth (src j) (data t) inhabitant) <$> seq 0 (numel_of s')))
  else inl RuntimeError.

(** A [dim] argument, which may count from the end. *)
Definition normalize_dim (ndim : nat) (dim : Z) : result nat :=
  let n := Z.max (Z.of_nat ndim) 1 in
  if bool_decide (- n ≤ dim < n)%Z
  then inr (Z.to_nat (if bool_decide (dim < 0)%Z then dim + n else dim)%Z)
  else inl IndexError.

(** A reduction along axis [a] sees the tensor as (outer, n, inner). *)
Definition outer_size (s : list nat) (a : nat) : nat := numel_of (take a s).
Definition axis_size (s : list nat) (a : nat) : nat := nth a s 1.
Definition inner_size (s : list nat) (a : nat) : nat := numel_of (drop (S a) s).

(** The [n] elements along the axis that share outer index [o] and inner
    index [i]. *)
Definition lane (x : list R) (n inner o i : nat) : list R :=
  (λ k, nth ((o * n + k) * inner + i) x 0%R) <$> seq 0 n.

(** ** torch.nn.functional.softmax *)

Definition softmax (x : tensor R) (dim : Z) : result (tensor R) :=
  a ← normalize_dim (length (shape x)) dim;
  let n := axis_size (shape x) a in
  let inner := inner_size (shape x) a in
  mret (Tensor (shape x)
    ((λ j, (exp (nth j (data x) 0) / Rsum (exp <$> lane (data x) n inner (j / inner / n) (j mod inner)))%R)
       <$> seq 0 (numel x))).

(** ** torch.argmax *)

(** Index of the first largest element. *)
Fixpoint argmax_from (best_i : nat) (best : R) (i : nat) (l : list R) : nat :=
  match l with
  | [] => best_i
  | x :: l' =>
      if Rlt_dec best x then argmax_from i x (S i) l'
      else argmax_from best_i best (S i) l'
  end.

Definition argmax_list (l : list R) : nat :=
  match l with
  | [] => 0
  | x :: l' => argmax_from 0 x 1 l'
  end.

Definition argmax (x : tensor R) (dim : Z) (keepdim : bool) : result (tensor nat) :=
  a ← normalize_dim (length (shape x)) dim;
  let n := axis_size (shape x) a in
  let inner := inner_size (shape x) a in
  let outer := outer_size (shape x) a in
  if bool_decide (n = 0) then inl IndexError
  else
    mret (Tensor (take a (shape x) ++ (if keepdim then [1] else []) ++ drop (S a) (shape x))
      ((λ j, argmax_list (lane (data x) n inner (j / inner) (j mod inner)))
         <$> seq 0 (outer * inner))).

(** ** torch.multinomial(probs, num_samples=1)

    One index per row.  The argument checks come first: one or two
    dimensions, at least one category, at most 2^24 categories; a result
    without elements is returned at once; the probabilities must be
    non-negative with a non-zero sum in every row (over the real numbers
    there is no infinity and no NaN to refuse).  Then the one-sample path
    divides the probabilities by independent Exp(1) draws and takes the
    argmax of each row, keeping the reduced dimension. *)

Definition rows_of (n : nat) (x : list R) (count : nat) : list (list R) :=
  (λ r, lane x n 1 r 0) <$> seq 0 count.

Definition valid_probs (n : nat) (x : list R) (count : nat) : bool :=
  forallb (λ p, bool_decide (0 <= p)%R) x
  && forallb (λ row, negb (bool_decide (Rsum row = 0%R))) (rows_of n x count).

Section Sampling.
Context {G : Type} `{!Generator G}.

Definition multinomial (probs : tensor R) : M G (tensor nat) :=
  match shape probs with
  | [_] | [_; _] =>
      let n := axis_size (shape probs) (length (shape probs) - 1) in
      let count := outer_size (shape probs) (length (shape probs) - 1) in
      if bool_decide (n = 0) then raise RuntimeError
      else if bool_decide (2 ^ 24 < Z.of_nat n)%Z then raise RuntimeError
      else if bool_decide (count = 0)
      then mret (Tensor (take (length (shape probs) - 1) (shape probs) ++ [1]) [])
      else if negb (valid_probs n (data probs) count) then raise RuntimeError
      else λ g,
        let '(q, g') := draws (exponential_ 1) (numel probs) g in
        (argmax (Tensor (shape probs) (zip_with Rdiv (data probs) q)) (-1) true, g')
  | _ => raise RuntimeError
  end.

(** DictActor.logits_to_actions (a static method) *)
Definition logits_to_actions (logits : tensor R) (sample : bool) : M G (tensor nat) :=
  if sample then
    probs ← lift (softmax logits (-1));
    multinomial probs
  else
    lift (argmax logits (-1) false).

End Sampling.

(** ** torch.nn.Conv2d.forward, (1, 1) kernel:
    out[b, o, y, x] = bias[o] + sum over c of weight[o, c] * in[b, c, y, x]

    The input is a batch (b, c, h, w) or a single image (c, h, w), which is
    convolved as a batch of one (the releases of 2021 refuse it).  torch
    raises [RuntimeError] for a weight without output channels, for a
    channel count other than [in_channels], for a board without rows or
    without columns (the kernel is larger than the input) and for an input
    without channels. *)

Definition conv_data (c : Conv2d) (b ci h w : nat) (x : list R) : list R :=
  let co := conv_out_channels c in
  (λ j,
     let n := j / (co * (h * w)) in
     let o := (j / (h * w)) mod co in
     let p := j mod (h * w) in
     (nth o (data (conv_bias c)) 0
      + Rsum ((λ k, nth (o * ci + k) (data (conv_weight c)) 0
                     * nth ((n * ci + k) * (h * w) + p) x 0) <$> seq 0 ci))%R)
    <$> seq 0 (b * (co * (h * w))).

Definition conv_accepts (c : Conv2d) (ci h w : nat) : bool :=
  bool_decide (conv_out_channels c ≠ 0 ∧ ci = conv_in_channels c ∧ ci ≠ 0 ∧ h ≠ 0 ∧ w ≠ 0).

Definition Conv2d_forward (c : Conv2d) (x : tensor R) : result (tensor R) :=
  match shape x with
  | [b; ci; h; w] =>
      if conv_accepts c ci h w
      then inr (Tensor [b; conv_out_channels c; h; w] (conv_data c b ci h w (data x)))
      else inl RuntimeError
  | [ci; h; w] =>
      if conv_accepts c ci h w
      then inr (Tensor [conv_out_channels c; h; w] (conv_data c 1 ci h w (data x)))
      else inl RuntimeError
  | _ => inl RuntimeError
  end.

(** ** torch.nn.Linear *)

Record Linear : Type := {
  in_features : nat;
  out_features : nat;
  lin_weight : tensor R;   (* (out_features, in_features) *)
  lin_bias : tensor R;     (* (out_features) *)
}.

(** [nn.Linear(in_features, out_features)]: weight and bias are drawn from
    U(-bound, bound), bound = 1/sqrt(in_features), or 0 when there is no
    input feature. *)
Definition Linear_new {G : Type} `{!Generator G} (in_features out_features : nat)
  : M G Linear := λ g,
  let bound := if bool_decide (in_features = 0) then 0%R else (1 / sqrt (INR in_features))%R in
  let '(w, g1) := draws (uniform_ (- bound) bound) (out_features * in_features) g in
  let '(b, g2) := draws (uniform_ (- bound) bound) out_features g1 in
  (inr {| in_features := in_features;
          out_features := out_features;
          lin_weight := Tensor [out_features; in_features] w;
          lin_bias := Tensor [out_features] b |}, g2).

Definition Linear_forward (l : Linear) (x : tensor R) : result (tensor R) :=
  match last (shape x) with
  | Some fi =>
      if bool_decide (fi = in_features l) then
        let fo := out_features l in
        let lead := removelast (shape x) in
        inr (Tensor (lead ++ [fo])
          ((λ j,
              let r := j / fo in
              let o := j mod fo in
              (nth o (data (lin_bias l)) 0
               + Rsum ((λ k, nth (o * fi + k) (data (lin_weight l)) 0
                              * nth (r * fi + k) (data x) 0) <$> seq 0 fi))%R)
             <$> seq 0 (numel_of lead * fo)))
      else inl RuntimeError
  | None => inl RuntimeError
  end.

(** ** torch.nn.AdaptiveAvgPool2d(1): the mean of every plane

    With output size 1 torch takes the mean over the last two axes and
    keeps them with size 1, whatever the other axes and the sizes are; a
    tensor with fewer than two axes has no such axes ([IndexError]).  A
    tensor without channels or without boards gives a tensor without
    elements.  The mean of a plane without cells is NaN in the code; the real
    numbers have none, and the model has [0 / 0] there, a number that means
    nothing: only the shape of such a result is meant. *)

Definition plane_mean (x : list R) (hw j : nat) : R :=
  (Rsum ((λ p, nth (j * hw + p) x 0%R) <$> seq 0 hw) / INR hw)%R.

Definition AdaptiveAvgPool2d_forward (x : tensor R) : result (tensor R) :=
  let s := shape x in
  if bool_decide (length s < 2) then inl IndexError
  else
    let lead := take (length s - 2) s in
    let hw := numel_of (drop (length s - 2) s) in
    inr (Tensor (lead ++ [1; 1]) (plane_mean (data x) hw <$> seq 0 (numel_of lead))).

(** ** torch.nn.Flatten(): all axes after the first become one *)

Definition Flatten_forward (x : tensor R) : result (tensor R) :=
  match shape x with
  | b :: (_ :: _) as rest => inr (Tensor [b; numel_of rest] (data x))
  | _ => inl IndexError
  end.

(** ** torch.nn.ReLU *)

Definition ReLU_forward (x : tensor R) : result (tensor R) :=
  inr (Tensor (shape x) (Rmax 0 <$> data x)).

(** ** class ValueActivation *)

Record ValueActivation : Type := { dim : Z }.

Definition ValueActivation_forward (self : ValueActivation) (x : tensor R)
  : result (tensor R) :=
  (* Rescale to [-1, 1] *)
  s ← softmax x (dim self);
  mret (Tensor (shape s) ((λ v, 2 * v - 1)%R <$> data s)).

(** ** torch.nn.Sequential over the layers this file uses

    A module whose class is not defined here (the activation a caller passes
    in) is its forward function. *)

Definition module_ : Type := tensor R → result (tensor R).

Inductive layer : Type :=
| Conv2d_layer (c : Conv2d)
| Module_layer (f : module_)
| AdaptiveAvgPool2d_layer
| Flatten_layer
| Linear_layer (l : Linear).

Definition layer_forward (l : layer) : module_ :=
  match l with
  | Conv2d_layer c => Conv2d_forward c
  | Module_layer f => f
  | AdaptiveAvgPool2d_layer => AdaptiveAvgPool2d_forward
  | Flatten_layer => Flatten_forward
  | Linear_layer l => Linear_forward l
  end.

Fixpoint Sequential_forward (layers : list layer) (x : tensor R) : result (tensor R) :=
  match layers with
  | [] => inr x
  | l :: layers' => y ← layer_forward l x; Sequential_forward layers' y
  end.

(** ** DictActor.forward *)

Section DictActor_forward.
Context {G : Type} `{!Generator G}.

Definition DictActor_forward (self : DictActor) (x : tensor R) (sample : bool)
  : M G (gmap string (tensor R) * gmap string (tensor nat)) :=
  match shape x with
  | [b; _; h; w] =>
      out ← dict_for (λ key actor,
          n_actions ← lift (getitem (n_actions self) key);
          action_plane_shape ← lift (getitem (action_plane_shapes self) key);
          y ← lift (Conv2d_forward actor x);
          logits ← lift (view y (Dim <$> [b; n_actions] ++ action_plane_shape ++ [h; w]));
          (* Move the logits dimension to the end *)
          logits ← lift (permute logits [0; 2; 3; 4; 5; 1]);
          flat ← lift (view logits [Infer; Dim n_actions]);
          actions ← logits_to_actions flat sample;
          actions ← lift (view actions (Dim <$> [b] ++ action_plane_shape ++ [h; w]));
          mret (logits, actions))
        (actors self);
      mret (fst <$> out, snd <$> out)
  | _ => raise ValueError
  end.

End DictActor_forward.

(** ** class BasicActorCriticNetwork

    [DictInputLayer] lives in [in_blocks.py] and is a parameter here, a
    function from the state dictionary to a result.  The trunk [base_model]
    is a module that the caller hands to the constructor.  Like every
    [nn.Module] it has parameters and buffers of its own, and its forward
    may update them (batch normalisation in training mode does): the
    forward of the trunk is a computation on that state, [St], which stands
    for all that the trunk's forward reads and updates.  The network object
    refers to the trunk, and the state of the trunk is part of the state a
    call runs on.  It is kept apart from the generator that
    [torch.multinomial] draws from: a trunk that draws from that very
    generator is not modelled.  The activations are taken as functions of
    their input, without state of their own.  [Input] is the state dictionary,
    [Obs] and [Mask] what the input layer extracts from it, [Aux] the second
    component of the trunk's output. *)

Section Network.
Context {G : Type} `{!Generator G} {release : TorchRelease}.
Context {Input Obs Mask Aux St : Type}.
Variable DictInputLayer_forward : Input → result (Obs * Mask).

Record BasicActorCriticNetwork : Type := {
  dict_input_layer : Input → result (Obs * Mask);
  base_model : Obs * Mask → M St (tensor R * Aux);
  base_out_channels : nat;
  actor_base : list layer;
  actor : DictActor;
  baseline : list layer;
}.

(** The loop [for i in range(n)] of the constructor, on the two lists of
    layers. *)
Fixpoint init_layers (n : nat) (channels : nat) (actor_critic_activation : unit → module_)
    (actor_layers baseline_layers : list layer) : M G (list layer * list layer) :=
  match n with
  | O => mret (actor_layers, baseline_layers)
  | S n' =>
      c1 ← Conv2d_new channels (Z.of_nat channels);
      let actor_layers := actor_layers ++ [Conv2d_layer c1] in
      let actor_layers := actor_layers ++ [Module_layer (actor_critic_activation ())] in
      c2 ← Conv2d_new channels (Z.of_nat channels);
      let baseline_layers := baseline_layers ++ [Conv2d_layer c2] in
      let baseline_layers := baseline_layers ++ [Module_layer (actor_critic_activation ())] in
      init_layers n' channels actor_critic_activation actor_layers baseline_layers
  end.

Definition BasicActorCriticNetwork_init
    (base_model : Obs * Mask → M St (tensor R * Aux))
    (base_out_channels : nat)
    (action_space : gmap string space)
    (actor_critic_activation : unit → module_)
    (n_action_value_layers : Z)
    (final_value_activation : module_) : M G BasicActorCriticNetwork :=
  '(actor_layers, baseline_layers) ←
    init_layers (Z.to_nat (n_action_value_layers - 1)) base_out_channels
      actor_critic_activation [] [];
  actor ← DictActor_init base_out_channels action_space;
  let baseline_layers := baseline_layers ++ [AdaptiveAvgPool2d_layer] in
  let baseline_layers := baseline_layers ++ [Flatten_layer] in
  lin ← Linear_new base_out_channels 2;
  let baseline_layers := baseline_layers ++ [Linear_layer lin] in
  let baseline_layers := baseline_layers ++ [Module_layer final_value_activation] in
  mret {| dict_input_layer := DictInputLayer_forward;
          base_model := base_model;
          base_out_channels := base_out_channels;
          actor_base := actor_layers;
          actor := actor;
          baseline := baseline_layers |}.

(** The default arguments of the constructor. *)
Definition default_actor_critic_activation : unit → module_ := λ _, ReLU_forward.
Definition default_n_action_value_layers : Z := 2.
Definition default_final_value_activation : module_ :=
  ValueActivation_forward {| dim := -1 |}.

(** The network is an object on the heap and [forward] a method of it: the
    state of a call is the object, the state of the trunk it refers to, and
    the generator. *)
Record world : Type := { w_self : BasicActorCriticNetwork; w_trunk : St; w_gen : G }.

Definition get_self : M world BasicActorCriticNetwork := λ w, (inr (w_self w), w).

(** A call of the trunk runs on the trunk's state. *)
Definition with_trunk {A} (m : M St A) : M world A := λ w,
  let '(r, st) := m (w_trunk w) in
  (r, {| w_self := w_self w; w_trunk := st; w_gen := w_gen w |}).

Definition with_generator {A} (m : M G A) : M world A := λ w,
  let '(r, g) := m (w_gen w) in
  (r, {| w_self := w_self w; w_trunk := w_trunk w; w_gen := g |}).

(** The dictionary [forward] returns. *)
Record forward_out : Type := {
  out_actions : gmap string (tensor nat);
  out_policy_logits : gmap string (tensor R);
  out_baseline : tensor R;
}.

Definition forward (x : Input) (sample : bool) : M world forward_out :=
  self ← get_self;
  '(x, input_mask) ← lift (dict_input_layer self x);
  '(base_out, _) ← with_trunk (base_model self (x, input_mask));
  a ← lift (Sequential_forward (actor_base self) base_out);
  '(policy_logits, actions) ← with_generator (DictActor_forward (actor self) a sample);
  baseline ← lift (Sequential_forward (baseline self) base_out);
  mret {| out_actions := actions;
          out_policy_logits := policy_logits;
          out_baseline := baseline |}.

Definition sample_actions (x : Input) : M world forward_out := forward x true.

Definition select_best_actions (x : Input) : M world forward_out := forward x false.

End Network.

(** ** A concrete generator and concrete inputs, for examples

    The generator is a tape of numbers in [0, 1) drawn in advance; it returns
    1/2 once the tape is used up. *)

Definition next_number (tape : list R) : R * list R :=
  match tape with
  | [] => ((1 / 2)%R, [])
  | u :: tape' => (u, tape')
  end.

#[global] Instance tape_generator : Generator (list R) := {|
  uniform_ lo hi tape :=
    let '(u, tape') := next_number tape in ((lo + (hi - lo) * u)%R, tape');
  exponential_ lambd tape :=
    let '(u, tape') := next_number tape in ((- ln (1 - u) / lambd)%R, tape');
|}.

(** An action space with one key, [nvec] of shape (1, 2, 1, 1) and three
    actions everywhere. *)
Definition example_space : gmap string space :=
  {[ "worker" := MultiDiscrete (Tensor [1; 2; 1; 1] [3; 3]%positive) ]}.

(** An action space whose only entry has a 4-dimensional [nvec] without
    elements, of shape (0, 1, 1, 1). *)
Definition empty_nvec_space : gmap string space :=
  {[ "worker" := MultiDiscrete (Tensor [0; 1; 1; 1] []) ]}.

(** The actor that [DictActor.__init__] builds for [example_space] with four
    input channels and the empty tape: every weight is the midpoint of
    U(-1/2, 1/2). *)
Definition example_weight : R :=
  (- (1 / sqrt (INR 4)) + (1 / sqrt (INR 4) - - (1 / sqrt (INR 4))) * (1 / 2))%R.

Definition example_conv : Conv2d :=
  {| conv_in_channels := 4;
     conv_out_channels := 6;
     conv_weight := Tensor [6; 4; 1; 1] (replicate 24 example_weight);
     conv_bias := Tensor [6] (replicate 6 example_weight) |}.

Definition example_actor : DictActor :=
  {| n_actions := {[ "worker" := 3 ]};
     action_plane_shapes := {[ "worker" := [1; 2] ]};
     actors := {[ "worker" := example_conv ]} |}.

(** An input of one board with four channels and one cell. *)
Definition example_x : tensor R := Tensor [1; 4; 1; 1] [0; 0; 0; 0]%R.

(** The names that the examples take as attributes of a fresh
    [nn.ModuleDict]: some of those that every release has. *)
Definition example_release : TorchRelease :=
  {| ModuleDict_hasattr name :=
       bool_decide (name ∈ ["training"; "forward"; "keys"; "values"; "items"; "pop";
                            "update"; "clear"; "parameters"; "children"; "modules";
                            "train"; "eval"; "type"; "float"; "double"; "half"; "to";
                            "cpu"; "cuda"; "apply"; "state_dict"; "zero_grad"]) |}.

(** A network for examples: the state dictionary is the observation tensor,
    the input layer hands it on with an empty mask, and the trunk returns its
    input.  The state of the trunk is a number that its forward leaves
    alone. *)
Definition example_input_layer (x : tensor R) : result (tensor R * unit) := inr (x, ()).

Definition example_trunk (xm : tensor R * unit) : M nat (tensor R * unit) :=
  λ st, (inr (xm.1, ()), st).

(** A trunk that counts its calls, as batch normalisation counts the batches
    it has seen ([num_batches_tracked]). *)
Definition counting_trunk (xm : tensor R * unit) : M nat (tensor R * unit) :=
  λ st, (inr (xm.1, ()), S st).

(** The network that [BasicActorCriticNetwork.__init__] builds from them
    with four channels, [example_space], the default arguments and the empty
    tape. *)
Definition example_conv_4_4 : Conv2d :=
  {| conv_in_channels := 4;
     conv_out_channels := 4;
     conv_weight := Tensor [4; 4; 1; 1] (replicate 16 example_weight);
     conv_bias := Tensor [4] (replicate 4 example_weight) |}.

Definition example_linear : Linear :=
  {| in_features := 4;
     out_features := 2;
     lin_weight := Tensor [2; 4] (replicate 8 example_weight);
     lin_bias := Tensor [2] (replicate 2 example_weight) |}.

Definition example_network : BasicActorCriticNetwork :=
  {| dict_input_layer := example_input_layer;
     base_model := example_trunk;
     base_out_channels := 4;
     actor_base := [Conv2d_layer example_conv_4_4; Module_layer ReLU_forward];
     actor := example_actor;
     baseline := [Conv2d_layer example_conv_4_4; Module_layer ReLU_forward;
                  AdaptiveAvgPool2d_layer; Flatten_layer; Linear_layer example_linear;
                  Module_layer default_final_value_activation] |}.

(** The same network around the trunk that counts its calls. *)
Definition counting_network : BasicActorCriticNetwork :=
  {| dict_input_layer := example_input_layer;
     base_model := counting_trunk;
     base_out_channels := 4;
     actor_base := [Conv2d_layer example_conv_4_4; Module_layer ReLU_forward];
     actor := example_actor;
     baseline := [Conv2d_layer example_conv_4_4; Module_layer ReLU_forward;
                  AdaptiveAvgPool2d_layer; Flatten_layer; Linear_layer example_linear;
                  Module_layer default_final_value_activation] |}.

(** An action space whose only entry has 2^62 actions on two action planes:
    the number of output channels, 2^63, does not fit [int64]. *)
Definition overflowing_space : gmap string space :=
  {[ "worker" := MultiDiscrete (Tensor [1; 2; 1; 1]
                   [4611686018427387904; 4611686018427387904]%positive) ]}.

(** ** Predicates used in the statements *)

(** A computation that does not touch the state and returns the same in
    every state. *)
Definition stateless {S A} (m : M S A) : Prop := ∃ r, ∀ s, m s = (r, s).

(** An entry of the action space that passes the three checks of
    [DictActor.__init__]. *)
Definition passes_checks (sp : space) : Prop :=
  ∃ nvec n, sp = MultiDiscrete nvec ∧ length (shape nvec) = 4
            ∧ nd_min nvec = inr n ∧ nd_max nvec = inr n.

(** An entry with two different numbers of actions. *)
Definition differing_counts (sp : space) : Prop :=
  ∃ nvec lo hi, sp = MultiDiscrete nvec ∧ nd_min nvec = inr lo ∧ nd_max nvec = inr hi ∧ lo ≠ hi.

(** An entry whose [nvec] has no elements at all. *)
Definition no_elements (sp : space) : Prop :=
  ∃ nvec, sp = MultiDiscrete nvec ∧ data nvec = [].

(** The three reasons for a [ValueError] that the constructor names. *)
Definition rejected_by_a_check (sp : space) : Prop :=
  is_MultiDiscrete sp = false ∨ length (space_shape sp) ≠ 4 ∨ differing_counts sp.

(** The weight and the bias of a convolution have the shapes that its
    channel counts demand. *)
Definition conv_wf (c : Conv2d) : Prop :=
  shape (conv_weight c) = [conv_out_channels c; conv_in_channels c; 1; 1]
  ∧ tensor_wf (conv_weight c)
  ∧ shape (conv_bias c) = [conv_out_channels c]
  ∧ tensor_wf (conv_bias c).

(** The number of output channels that the constructor asks for, for an
    entry with [n] actions everywhere: n * np.prod(shape[:-2]) in [int64]. *)
Definition requested_channels (n : positive) (nvec : tensor positive) : Z :=
  int64_mul (Z.of_nat (Pos.to_nat n)) (np_prod (slice_to_neg2 (shape nvec))).

(** What [DictActor.__init__] stores for an action space when it returns:
    the number of output channels of a key's convolution is the [int64]
    product of the number of actions and the two action plane sizes. *)
Definition DictActor_built {release : TorchRelease} (in_channels : nat)
    (action_space : gmap string space) (self : DictActor) : Prop :=
  ∀ key,
    match action_space !! key with
    | Some sp =>
        ∃ nvec n c,
          sp = MultiDiscrete nvec ∧ length (shape nvec) = 4 ∧ nd_min nvec = inr n
          ∧ n_actions self !! key = Some (Pos.to_nat n)
          ∧ action_plane_shapes self !! key = Some (take 2 (shape nvec))
          ∧ actors self !! key = Some c
          ∧ conv_in_channels c = in_channels
          ∧ Z.of_nat (conv_out_channels c) = requested_channels n nvec
          ∧ conv_wf c
          ∧ valid_module_name key = true
    | None =>
        n_actions self !! key = None ∧ action_plane_shapes self !! key = None
        ∧ actors self !! key = None
    end.

(** An actor whose convolutions have as many output channels as the
    logits need, n_actions * p1 * p2 (the [int64] product did not wrap
    around) and at least one. *)
Definition channels_fit (self : DictActor) : Prop :=
  ∀ key c, actors self !! key = Some c →
    ∃ n aps, n_actions self !! key = Some n
             ∧ action_plane_shapes self !! key = Some aps
             ∧ conv_out_channels c = n * numel_of aps
             ∧ conv_out_channels c ≠ 0.

(** An action space whose arrays have as many elements as their shapes say,
    and whose numbers of output channels n * p1 * p2 fit [int64]. *)
Definition channels_fit_int64 (action_space : gmap string space) : Prop :=
  ∀ key nvec n, action_space !! key = Some (MultiDiscrete nvec) → nd_min nvec = inr n →
    tensor_wf nvec
    ∧ (Z.pos n * Z.of_nat (numel_of (slice_to_neg2 (shape nvec))) < 2 ^ 63)%Z.

(** No key has more actions than [torch.multinomial] takes categories. *)
Definition categories_fit (self : DictActor) : Prop :=
  ∀ key n, n_actions self !! key = Some n → (Z.of_nat n ≤ 2 ^ 24)%Z.

(** The logits that [DictActor.forward] computes for one key, on an input of
    batch size [b] and board size (h, w): the key's convolution, viewed as
    (b, n_actions, *action_plane_shape, h, w), with the action axis moved to
    the end. *)
Definition logits_of_key (self : DictActor) (x : tensor R) (b h w : nat)
    (key : string) (actor : Conv2d) (logits : tensor R) : Prop :=
  ∃ n aps y l0,
    n_actions self !! key = Some n
    ∧ action_plane_shapes self !! key = Some aps
    ∧ Conv2d_forward actor x = inr y
    ∧ view y (Dim <$> [b; n] ++ aps ++ [h; w]) = inr l0
    ∧ permute l0 [0; 2; 3; 4; 5; 1] = inr logits.

(** The actions that [DictActor.forward] computes from the logits of a key. *)
Definition actions_of_logits {G : Type} `{!Generator G} (self : DictActor) (b h w : nat)
    (sample : bool) (key : string) (logits : tensor R) (actions : tensor nat) : Prop :=
  ∃ n aps flat a0 (g1 g2 : G),
    n_actions self !! key = Some n
    ∧ action_plane_shapes self !! key = Some aps
    ∧ view logits [Infer; Dim n] = inr flat
    ∧ logits_to_actions flat sample g1 = (inr a0, g2)
    ∧ view a0 (Dim <$> [b] ++ aps ++ [h; w]) = inr actions.

(** What [DictActor.forward] has computed for one key when it returns, on
    an input of shape (b, c, h, w): the output [y] of the key's convolution,
    the logits [l] of shape (b, p1, p2, h, w, n), whose rows [flat] go to
    [logits_to_actions], the indices [a0] that come back, one per row, and
    the actions [a] of shape (b, p1, p2, h, w) that hold them. *)
Definition key_run {G : Type} `{!Generator G} (self : DictActor) (x : tensor R)
    (b h w : nat) (sample : bool) (key : string) (l : tensor R) (a : tensor nat) : Prop :=
  ∃ n p1 p2 c y flat a0 (g1 g2 : G),
    n_actions self !! key = Some n ∧ n ≠ 0
    ∧ action_plane_shapes self !! key = Some [p1; p2]
    ∧ actors self !! key = Some c
    ∧ Conv2d_forward c x = inr y
    ∧ numel y = b * n * p1 * p2 * h * w
    ∧ permute (Tensor [b; n; p1; p2; h; w] (data y)) [0; 2; 3; 4; 5; 1] = inr l
    ∧ shape l = [b; p1; p2; h; w; n] ∧ tensor_wf l
    ∧ flat = Tensor [b * p1 * p2 * h * w; n] (data l)
    ∧ logits_to_actions flat sample g1 = (inr a0, g2)
    ∧ shape a0 = (if sample then [b * p1 * p2 * h * w; 1] else [b * p1 * p2 * h * w])
    ∧ length (data a0) = b * p1 * p2 * h * w
    ∧ Forall (λ i, i < n) (data a0)
    ∧ a = Tensor [b; p1; p2; h; w] (data a0).

(** The layers that the loop of [BasicActorCriticNetwork.__init__] appends:
    pairs of a convolution from [channels] to [channels] and the
    activation. *)
Inductive conv_act_layers (channels : nat) (activation : module_) : list layer → Prop :=
| conv_act_nil : conv_act_layers channels activation []
| conv_act_snoc layers c :
    conv_act_layers channels activation layers →
    conv_in_channels c = channels → conv_out_channels c = channels →
    conv_act_layers channels activation
      (layers ++ [Conv2d_layer c; Module_layer activation]).

(** A module that returns, for every input, a tensor of the shape of its
    input. *)
Definition keeps_shape (f : module_) : Prop :=
  ∀ t, ∃ t', f t = inr t' ∧ shape t' = shape t.

(** A module whose result, when it returns one, has the shape of its
    input. *)
Definition preserves_shape (f : module_) : Prop :=
  ∀ t t', f t = inr t' → shape t' = shape t.

(** The pooled baseline head after the convolutions: average pool, flatten,
    linear layer to two outputs, final activation. *)
Definition baseline_head (lin : Linear) (final_value_activation : module_) : module_ :=
  λ z,
    p ← AdaptiveAvgPool2d_forward z;
    f ← Flatten_forward p;
    l ← Linear_forward lin f;
    final_value_activation l.

Section Network_predicates.
Context {release : TorchRelease}.
Context {Input Obs Mask Aux St : Type}.

(** What [BasicActorCriticNetwork.__init__] stores. *)
Definition Network_built
    (input_layer : Input → result (Obs * Mask))
    (trunk : Obs * Mask → M St (tensor R * Aux))
    (channels : nat) (action_space : gmap string space)
    (activation : module_) (final_value_activation : module_)
    (self : BasicActorCriticNetwork (Input := Input) (Obs := Obs) (Mask := Mask)
              (Aux := Aux) (St := St))
  : Prop :=
  dict_input_layer self = input_layer
  ∧ base_model self = trunk
  ∧ base_out_channels self = channels
  ∧ conv_act_layers channels activation (actor_base self)
  ∧ DictActor_built channels action_space (actor self)
  ∧ ∃ layers lin,
      conv_act_layers channels activation layers
      ∧ in_features lin = channels ∧ out_features lin = 2
      ∧ baseline self = layers ++ [AdaptiveAvgPool2d_layer; Flatten_layer;
                                    Linear_layer lin; Module_layer final_value_activation].

End Network_predicates.

Section World_predicates.
Context {G Input Obs Mask Aux St : Type}.
Local Abbreviation world :=
  (world (G := G) (Input := Input) (Obs := Obs) (Mask := Mask) (Aux := Aux) (St := St)).

(** A method call whose outcome and whose effect on the trunk do not depend
    on the generator, and that leaves the network object and the generator
    as it found them. *)
Definition ignores_generator {A} (m : M world A) : Prop :=
  ∀ self st, ∃ r st',
    ∀ g, m {| w_self := self; w_trunk := st; w_gen := g |}
         = (r, {| w_self := self; w_trunk := st'; w_gen := g |}).

(** The state of the trunk after a call of [forward] on [x]: what the
    trunk's own forward made of it, once the input layer has returned. *)
Definition trunk_state_after (x : Input) (w : world) : St :=
  match dict_input_layer (w_self w) x with
  | inr xm => (base_model (w_self w) xm (w_trunk w)).2
  | inl _ => w_trunk w
  end.

(** A trunk whose forward leaves its parameters and buffers alone, as a
    module in evaluation mode does. *)
Definition frozen_trunk (trunk : Obs * Mask → M St (tensor R * Aux)) : Prop :=
  ∀ xm st, (trunk xm st).2 = st.

End World_predicates.

(** An input of one board with three channels and one cell: one channel
    short of what [example_actor] expects. *)
Definition example_x_3_channels : tensor R := Tensor [1; 3; 1; 1] [0; 0; 0]%R.

(** * Properties *)

(** ** The helpers on concrete inputs *)

(** Equality of two lists of real numbers, entry by entry. *)
Ltac Rlist_eq :=
  repeat match goal with
         | |- _ :: _ = _ :: _ => apply (f_equal2 cons); [lra|]
         end;
  reflexivity.

Example slice_to_neg2_examples :
  slice_to_neg2 [1; 2; 12; 12] = [1; 2] ∧ slice_to_neg2 [5; 6; 7] = [5]
  ∧ slice_to_neg2 [5] = [].
Proof. done. Qed.

Example nd_min_max_examples :
  nd_min (Tensor [3] [3; 1; 2]%positive) = inr 1%positive
  ∧ nd_max (Tensor [3] [3; 1; 2]%positive) = inr 3%positive
  ∧ nd_min (Tensor [0; 1; 1; 1] []) = inl ValueError.
Proof. done. Qed.

Example unravel_example : unravel [2; 3; 4] 17 = [1; 1; 1].
Proof. reflexivity. Qed.

Example view_examples :
  view (Tensor [2; 3] [0; 1; 2; 3; 4; 5]) [Infer; Dim 2]
    = inr (Tensor [3; 2] [0; 1; 2; 3; 4; 5])
  ∧ view (Tensor [2; 3] [0; 1; 2; 3; 4; 5]) [Infer; Dim 4] = inl RuntimeError
  ∧ view (Tensor [0; 3] ([] : list nat)) [Infer; Dim 0] = inl RuntimeError
  ∧ view (Tensor [2; 3] [0; 1; 2; 3; 4; 5]) [Dim 6] = inr (Tensor [6] [0; 1; 2; 3; 4; 5]).
Proof. done. Qed.

Example permute_examples :
  permute (Tensor [2; 3] [0; 1; 2; 3; 4; 5]) [1; 0]
    = inr (Tensor [3; 2] [0; 3; 1; 4; 2; 5])
  ∧ permute (Tensor [1; 2; 1; 3; 1; 1] [0; 1; 2; 3; 4; 5]) [0; 2; 3; 4; 5; 1]
    = inr (Tensor [1; 1; 3; 1; 1; 2] [0; 3; 1; 4; 2; 5])
  ∧ permute (Tensor [2; 3] [0; 1; 2; 3; 4; 5]) [1; 1] = inl RuntimeError.
Proof. done. Qed.

Example normalize_dim_examples :
  normalize_dim 2 (-1) = inr 1 ∧ normalize_dim 2 0 = inr 0
  ∧ normalize_dim 2 2 = inl IndexError ∧ normalize_dim 3 (-4) = inl IndexError.
Proof. done. Qed.

Example argmax_list_examples :
  argmax_list [1; 3; 2]%R = 1 ∧ argmax_list [2; 2]%R = 0 ∧ argmax_list [0; 1; 1]%R = 1.
Proof.
  unfold argmax_list, argmax_from.
  repeat match goal with |- context [Rlt_dec ?a ?b] => destruct (Rlt_dec a b); try lra end.
  done.
Qed.

Example argmax_example :
  argmax (Tensor [2; 2] [0; 1; 1; 0]%R) (-1) false = inr (Tensor [2] [1; 0])
  ∧ argmax (Tensor [2; 2] [0; 1; 1; 0]%R) (-1) true = inr (Tensor [2; 1] [1; 0])
  ∧ argmax (Tensor [2; 0] []) (-1) false = inl IndexError.
Proof.
  unfold argmax. cbn [shape data length].
  change (normalize_dim 2 (-1)) with (inr 1 : result nat).
  cbn. unfold argmax_list, argmax_from, lane. cbn.
  repeat match goal with |- context [Rlt_dec ?a ?b] => destruct (Rlt_dec a b); try lra end.
  done.
Qed.

Example softmax_example :
  softmax (Tensor [1; 2] [0; 0]%R) (-1) = inr (Tensor [1; 2] [1 / 2; 1 / 2]%R).
Proof.
  unfold softmax. cbn [shape data length].
  change (normalize_dim 2 (-1)) with (inr 1 : result nat).
  cbn. rewrite exp_0. do 2 f_equal.
  Rlist_eq.
Qed.

Example ValueActivation_example :
  ValueActivation_forward {| dim := -1 |} (Tensor [1; 2] [0; 0]%R)
  = inr (Tensor [1; 2] [0; 0]%R).
Proof.
  unfold ValueActivation_forward. cbn [dim]. rewrite softmax_example. cbn.
  unfold mret, result_ret. do 2 f_equal. Rlist_eq.
Qed.

Example Conv2d_forward_example :
  Conv2d_forward
    {| conv_in_channels := 2; conv_out_channels := 1;
       conv_weight := Tensor [1; 2; 1; 1] [2; 3]%R; conv_bias := Tensor [1] [1]%R |}
    (Tensor [1; 2; 1; 2] [1; 10; 100; 1000]%R)
  = inr (Tensor [1; 1; 1; 2] [303; 3021]%R).
Proof.
  unfold Conv2d_forward. cbn [shape]. unfold conv_accepts. cbn [conv_out_channels conv_in_channels].
  rewrite bool_decide_eq_true_2 by (repeat split; lia).
  unfold conv_data. cbn. do 2 f_equal.
  Rlist_eq.
Qed.

(** A board without rows, a tensor without channels and a convolution
    without output channels are refused; a single image is convolved. *)
Example Conv2d_forward_refuses (c : Conv2d) (b ci w : nat) (x : list R) :
  Conv2d_forward c (Tensor [b; ci; 0; w] x) = inl RuntimeError
  ∧ Conv2d_forward c (Tensor [b; ci; w; 0] x) = inl RuntimeError
  ∧ Conv2d_forward c (Tensor [b; 0; w; w] x) = inl RuntimeError
  ∧ Conv2d_forward
      {| conv_in_channels := 2; conv_out_channels := 1;
         conv_weight := Tensor [1; 2; 1; 1] [2; 3]%R; conv_bias := Tensor [1] [1]%R |}
      (Tensor [2; 1; 1] [10; 100]%R)
    = inr (Tensor [1; 1; 1] [321]%R).
Proof.
  unfold Conv2d_forward, conv_accepts. cbn [shape data].
  repeat split.
  - rewrite bool_decide_eq_false_2; [done | intros (_ & _ & _ & ? & _); done].
  - rewrite bool_decide_eq_false_2; [done | intros (_ & _ & _ & _ & ?); done].
  - rewrite bool_decide_eq_false_2; [done | intros (_ & _ & ? & _); done].
  - cbn [conv_out_channels conv_in_channels].
    rewrite bool_decide_eq_true_2 by (repeat split; lia).
    unfold conv_data. cbn. do 2 f_equal. Rlist_eq.
Qed.

Example Linear_forward_example :
  Linear_forward
    {| in_features := 2; out_features := 2;
       lin_weight := Tensor [2; 2] [1; 2; 3; 4]%R; lin_bias := Tensor [2] [0; 1]%R |}
    (Tensor [1; 2] [10; 100]%R)
  = inr (Tensor [1; 2] [210; 431]%R).
Proof.
  unfold Linear_forward. cbn. do 2 f_equal.
  Rlist_eq.
Qed.

Example AdaptiveAvgPool2d_forward_example :
  AdaptiveAvgPool2d_forward (Tensor [1; 2; 1; 2] [1; 3; 10; 30]%R)
  = inr (Tensor [1; 2; 1; 1] [2; 20]%R)
  ∧ AdaptiveAvgPool2d_forward (Tensor [3; 0; 1; 2] []) = inr (Tensor [3; 0; 1; 1] [])
  ∧ (∃ d, AdaptiveAvgPool2d_forward (Tensor [1; 2; 0; 2] []) = inr (Tensor [1; 2; 1; 1] d))
  ∧ AdaptiveAvgPool2d_forward (Tensor [2; 2] [1; 3; 10; 30]%R) = inr (Tensor [1; 1] [11]%R)
  ∧ AdaptiveAvgPool2d_forward (Tensor [4] [1; 3; 10; 30]%R) = inl IndexError.
Proof.
  unfold AdaptiveAvgPool2d_forward. cbn. unfold plane_mean. cbn.
  split; [|split; [done|split; [by eauto|split; [|done]]]].
  - do 2 f_equal. Rlist_eq.
  - do 2 f_equal. Rlist_eq.
Qed.

Example int64_examples :
  int64_wrap 5 = 5%Z ∧ int64_wrap (2 ^ 63) = (- 2 ^ 63)%Z
  ∧ int64_mul (2 ^ 62 + 1) 4 = 4%Z ∧ np_prod [2; 3] = 6%Z
  ∧ int64_mul 4611686018427387904 (np_prod [1; 2]) = (- 9223372036854775808)%Z.
Proof. done. Qed.

Example valid_module_name_examples :
  valid_module_name (release := example_release) "worker" = true
  ∧ valid_module_name (release := example_release) "keys" = false
  ∧ valid_module_name (release := example_release) "city.tile" = false
  ∧ valid_module_name (release := example_release) EmptyString = false.
Proof. done. Qed.

(** ** The monads *)

Section Monad_lemmas.
Context {S : Type}.

Lemma bind_inr {A B} (f : A → M S B) (m : M S A) s a s' :
  m s = (inr a, s') → (m ≫= f) s = f a s'.
Proof. intros E. unfold mbind, M_bind. by rewrite E. Qed.

Lemma bind_inl {A B} (f : A → M S B) (m : M S A) s e s' :
  m s = (inl e, s') → (m ≫= f) s = (inl e, s').
Proof. intros E. unfold mbind, M_bind. by rewrite E. Qed.

Lemma lift_inr {A} (r : result A) (a : A) (s : S) : r = inr a → lift r s = (inr a, s).
Proof. by intros ->. Qed.

Lemma bind_inr_inv {A B} (m : M S A) (f : A → M S B) (s s' : S) (b : B) :
  (m ≫= f) s = (inr b, s') → ∃ a s1, m s = (inr a, s1) ∧ f a s1 = (inr b, s').
Proof.
  unfold mbind, M_bind. destruct (m s) as [[e|a] s1]; [done|]. by exists a, s1.
Qed.

(** The exception of a sequence is the exception of its first part, or of
    its second part after the first has returned. *)
Lemma bind_inl_inv {A B} (m : M S A) (f : A → M S B) (s s' : S) (e : exn) :
  (m ≫= f) s = (inl e, s') →
  m s = (inl e, s') ∨ ∃ a s1, m s = (inr a, s1) ∧ f a s1 = (inl e, s').
Proof.
  unfold mbind, M_bind. destruct (m s) as [[e'|a] s1]; intros E.
  - injection E as -> ->. by left.
  - right. by exists a, s1.
Qed.

Lemma lift_inr_inv {A} (r : result A) (s s' : S) (a : A) :
  lift r s = (inr a, s') → r = inr a ∧ s' = s.
Proof. unfold lift. by intros [= -> ->]. Qed.

Lemma mapM_inr_inv {A B} (f : A → M S B) (l : list A) (s s' : S) (ys : list B) :
  mapM f l s = (inr ys, s') → Forall2 (λ x y, ∃ s1 s2, f x s1 = (inr y, s2)) l ys.
Proof.
  revert s ys. induction l as [|x l IH]; intros s ys E.
  - injection E as <- <-. constructor.
  - cbn in E. apply bind_inr_inv in E as (y & s1 & Ey & E).
    apply bind_inr_inv in E as (k & s2 & Ek & E). injection E as <- <-.
    constructor; [by eauto | by eapply IH].
Qed.

(** A loop that raises does so in its body, at one of the elements. *)
Lemma mapM_inl_inv {A B} (f : A → M S B) (l : list A) (s s' : S) (e : exn) :
  mapM f l s = (inl e, s') → ∃ x s1, x ∈ l ∧ f x s1 = (inl e, s').
Proof.
  revert s. induction l as [|x l IH]; intros s E; [done|].
  cbn in E. apply bind_inl_inv in E as [E|(y & s1 & Ey & E)].
  - exists x, s. split; [by left | done].
  - apply bind_inl_inv in E as [E|(k & s2 & Ek & E)]; [|done].
    destruct (IH _ E) as (z & s3 & Hz & Ez). exists z, s3. split; [by right | done].
Qed.

Lemma mapM_total {A B} (f : A → M S B) (P : A → B → Prop) (l : list A) :
  (∀ x, x ∈ l → ∀ s, ∃ y s', f x s = (inr y, s') ∧ P x y) →
  ∀ s, ∃ ys s', mapM f l s = (inr ys, s') ∧ Forall2 P l ys.
Proof.
  induction l as [|x l IH]; intros Hf s.
  - exists [], s. split; [done | constructor].
  - destruct (Hf x (list_elem_of_here _ _) s) as (y & s1 & E1 & Hy).
    destruct (IH (λ z Hz, Hf z (list_elem_of_further _ _ _ Hz)) s1) as (ys & s2 & E2 & Hys).
    exists (y :: ys), s2. split; [|by constructor].
    cbn. rewrite (bind_inr _ _ _ _ _ E1). by rewrite (bind_inr _ _ _ _ _ E2).
Qed.

(** A loop over the items of a dictionary whose body returns for every
    item returns a dictionary with the same keys. *)
Lemma dict_for_total {V B} (f : string → V → M S B) (P : string → V → B → Prop)
    (d : gmap string V) :
  (∀ k v, d !! k = Some v → ∀ s, ∃ b s', f k v s = (inr b, s') ∧ P k v b) →
  ∀ s, ∃ d' s', dict_for f d s = (inr d', s') ∧
    ∀ k, match d !! k with
         | Some v => ∃ b, d' !! k = Some b ∧ P k v b
         | None => d' !! k = None
         end.
Proof.
  intros Hf s. unfold dict_for.
  destruct (mapM_total (λ kv, b ← f kv.1 kv.2; mret (kv.1, b))
              (λ kv kb, kb.1 = kv.1 ∧ P kv.1 kv.2 kb.2) (dict_items d)) with (s := s)
    as (ys & s' & E & Hys).
  { intros [k v] Hin s0. apply elem_of_map_to_list in Hin.
    destruct (Hf k v Hin s0) as (b & s1 & E1 & Hb).
    exists (k, b), s1. split; [|done]. by rewrite (bind_inr _ _ _ _ _ E1). }
  exists (list_to_map ys), s'. split; [by rewrite (bind_inr _ _ _ _ _ E)|].
  assert (Hkeys : ys.*1 = (map_to_list d).*1).
  { unfold dict_items in Hys. clear E.
    induction Hys as [|kv kb l' ys' [Hk _] _ IH]; [done|]. cbn. by rewrite Hk, IH. }
  assert (Hnd : NoDup ys.*1) by (rewrite Hkeys; apply NoDup_fst_map_to_list).
  intros k. destruct (d !! k) as [v|] eqn:Ek.
  - apply elem_of_map_to_list in Ek.
    apply list_elem_of_lookup in Ek as [i Hi].
    destruct (Forall2_lookup_l _ _ _ _ _ Hys Hi) as ([k' b] & Hi' & Hk' & Hb).
    simpl in *. subst k'. exists b. split; [|done].
    apply elem_of_list_to_map; [done|]. apply list_elem_of_lookup. eauto.
  - apply not_elem_of_list_to_map. rewrite Hkeys.
    intros ([k' v] & -> & Hin)%list_elem_of_fmap.
    apply elem_of_map_to_list in Hin. simpl in *. congruence.
Qed.

(** When a loop over the items of a dictionary returns, it has one value per
    key, and the body returned that value for the key's item. *)
Lemma dict_for_inr_inv {V B} (f : string → V → M S B) (d : gmap string V)
    (s s' : S) (d' : gmap string B) :
  dict_for f d s = (inr d', s') →
  ∀ k, match d !! k with
       | Some v => ∃ b s1 s2, d' !! k = Some b ∧ f k v s1 = (inr b, s2)
       | None => d' !! k = None
       end.
Proof.
  unfold dict_for. intros E.
  apply bind_inr_inv in E as (ys & s1 & Eys & E). injection E as <- <-.
  apply mapM_inr_inv in Eys.
  assert (Hys : Forall2 (λ kv kb, kb.1 = kv.1 ∧ ∃ s1 s2, f kv.1 kv.2 s1 = (inr kb.2, s2))
                  (dict_items d) ys).
  { eapply Forall2_impl; [exact Eys|]. intros [k v] [k' b] (s2 & s3 & E). cbn in *.
    apply bind_inr_inv in E as (b' & s4 & Eb & E). injection E as <- <- <-. eauto. }
  assert (Hkeys : ys.*1 = (map_to_list d).*1).
  { unfold dict_items in Hys. clear Eys.
    induction Hys as [|kv kb l' ys' [Hk _] _ IH]; [done|]. cbn. by rewrite Hk, IH. }
  assert (Hnd : NoDup ys.*1) by (rewrite Hkeys; apply NoDup_fst_map_to_list).
  intros k. destruct (d !! k) as [v|] eqn:Ek.
  - apply elem_of_map_to_list in Ek.
    apply list_elem_of_lookup in Ek as [i Hi].
    destruct (Forall2_lookup_l _ _ _ _ _ Hys Hi) as ([k' b] & Hi' & Hk' & s2 & s3 & Hb).
    simpl in *. subst k'. exists b, s2, s3. split; [|done].
    apply elem_of_list_to_map; [done|]. apply list_elem_of_lookup. eauto.
  - apply not_elem_of_list_to_map. rewrite Hkeys.
    intros ([k' v] & -> & Hin)%list_elem_of_fmap.
    apply elem_of_map_to_list in Hin. simpl in *. congruence.
Qed.

(** A loop over the items of a dictionary that raises does so in its body,
    at one of the items. *)
Lemma dict_for_inl_inv {V B} (f : string → V → M S B) (d : gmap string V)
    (s s' : S) (e : exn) :
  dict_for f d s = (inl e, s') → ∃ k v s1, d !! k = Some v ∧ f k v s1 = (inl e, s').
Proof.
  unfold dict_for. intros E.
  apply bind_inl_inv in E as [E|(ys & s1 & _ & E)]; [|done].
  apply mapM_inl_inv in E as ([k v] & s1 & Hin & E).
  apply elem_of_map_to_list in Hin.
  apply bind_inl_inv in E as [E|(b & s2 & _ & E)]; [|done].
  by exists k, v, s1.
Qed.

Lemma stateless_ret {A} (a : A) : stateless (mret a : M S A).
Proof. by exists (inr a). Qed.

Lemma stateless_lift {A} (r : result A) : stateless (lift r : M S A).
Proof. by exists r. Qed.

Lemma stateless_raise {A} e : stateless (raise e : M S A).
Proof. by exists (inl e). Qed.

Lemma stateless_bind {A B} (m : M S A) (f : A → M S B) :
  stateless m → (∀ a, stateless (f a)) → stateless (m ≫= f).
Proof.
  intros [r Hm] Hf. destruct r as [e|a].
  - exists (inl e). intros s. by rewrite (bind_inl _ _ _ _ _ (Hm s)).
  - destruct (Hf a) as [r' Hr']. exists r'. intros s.
    by rewrite (bind_inr _ _ _ _ _ (Hm s)).
Qed.

Lemma stateless_mapM {A B} (f : A → M S B) (l : list A) :
  (∀ x, stateless (f x)) → stateless (mapM f l).
Proof.
  intros Hf. induction l as [|x l IH]; [apply stateless_ret|].
  cbn. apply stateless_bind; [done|]. intros y.
  apply stateless_bind; [done|]. intros k. apply stateless_ret.
Qed.

Lemma stateless_dict_for {V B} (f : string → V → M S B) (d : gmap string V) :
  (∀ k v, stateless (f k v)) → stateless (dict_for f d).
Proof.
  intros Hf. unfold dict_for. apply stateless_bind.
  - apply stateless_mapM. intros [k v]. apply stateless_bind; [done|].
    intros b. apply stateless_ret.
  - intros l. apply stateless_ret.
Qed.

End Monad_lemmas.

(** ** Python and numpy helpers *)

Lemma py_all_fmap {A} (f : A → bool) (l : list A) :
  py_all (f <$> l) = true ↔ Forall (λ x, f x = true) l.
Proof.
  unfold py_all. induction l as [|x l IH]; simpl.
  - split; [constructor | done].
  - rewrite andb_true_iff, IH. split.
    + intros [? ?]. by constructor.
    + by inversion 1.
Qed.

Lemma py_all_fmap_false {A} (f : A → bool) (l : list A) :
  py_all (f <$> l) = false → ∃ x, x ∈ l ∧ f x = false.
Proof.
  unfold py_all. induction l as [|x l IH]; simpl; [done|].
  destruct (f x) eqn:E; simpl.
  - intros (y & ? & ?)%IH. exists y. split; [by right | done].
  - intros _. exists x. split; [by left | done].
Qed.

Lemma elem_of_dict_values {V} (d : gmap string V) (v : V) :
  v ∈ dict_values d ↔ ∃ k, d !! k = Some v.
Proof.
  unfold dict_values. rewrite list_elem_of_fmap. split.
  - intros ([k v'] & -> & Hin). exists k. by apply elem_of_map_to_list.
  - intros [k Hk]. exists (k, v). split; [done|]. by apply elem_of_map_to_list.
Qed.

Lemma mapM_result_inl {A B} (f : A → result B) (l : list A) e :
  mapM f l = inl e → ∃ x, x ∈ l ∧ f x = inl e.
Proof.
  induction l as [|x l IH]; cbn; [done|].
  destruct (f x) as [e'|y] eqn:E; cbn.
  - intros [= ->]. exists x. split; [by left | done].
  - destruct (mapM f l) as [e'|ys]; cbn; [|done].
    intros [= ->]. destruct IH as (z & ? & ?); [done|].
    exists z. split; [by right | done].
Qed.

Lemma mapM_result_inr {A B} (f : A → result B) (l : list A) ys :
  mapM f l = inr ys → Forall2 (λ x y, f x = inr y) l ys.
Proof.
  revert ys. induction l as [|x l IH]; cbn; intros ys.
  - intros [= <-]. constructor.
  - destruct (f x) as [e'|y] eqn:E; cbn; [done|].
    destruct (mapM f l) as [e'|ys']; cbn; [done|].
    intros [= <-]. constructor; [done | by apply IH].
Qed.

Lemma nd_min_max_empty (nvec : tensor positive) :
  data nvec = [] → nd_min nvec = inl ValueError ∧ nd_max nvec = inl ValueError.
Proof. unfold nd_min, nd_max. by intros ->. Qed.

Lemma nd_min_max_nonempty (nvec : tensor positive) :
  data nvec ≠ [] → ∃ lo hi, nd_min nvec = inr lo ∧ nd_max nvec = inr hi.
Proof. unfold nd_min, nd_max. destruct (data nvec); [done | eauto]. Qed.

Lemma length_slice_to_neg2 {A} (l : list A) :
  length l = 4 → slice_to_neg2 l = take 2 l ∧ length (slice_to_neg2 l) = 2.
Proof.
  intros Hl. unfold slice_to_neg2. rewrite Hl. split; [done|].
  rewrite length_take. lia.
Qed.

Lemma result_bind_inr_inv {A B} (m : result A) (f : A → result B) (b : B) :
  m ≫= f = inr b → ∃ a, m = inr a ∧ f a = inr b.
Proof. destruct m as [e|a]; [done | by exists a]. Qed.

Lemma getitem_inr_inv {V} (d : gmap string V) (key : string) (v : V) :
  getitem d key = inr v → d !! key = Some v.
Proof. unfold getitem. destruct (d !! key); [by intros [= ->] | done]. Qed.

(** ** int64 *)

Lemma int64_wrap_small (z : Z) : (- 2 ^ 63 ≤ z < 2 ^ 63)%Z → int64_wrap z = z.
Proof. intros Hz. unfold int64_wrap. rewrite Z.mod_small; lia. Qed.

Lemma int64_wrap_range (z : Z) : (- 2 ^ 63 ≤ int64_wrap z < 2 ^ 63)%Z.
Proof.
  unfold int64_wrap. pose proof (Z.mod_pos_bound (z + 2 ^ 63) (2 ^ 64)). lia.
Qed.

(** Wrapping a factor first does not change the wrapped product. *)
Lemma int64_mul_wrap_r (a b : Z) : int64_mul a (int64_wrap b) = int64_mul a b.
Proof.
  unfold int64_mul, int64_wrap. f_equal.
  rewrite (Z.mod_eq (b + 2 ^ 63) (2 ^ 64)) by lia.
  replace (a * (b + 2 ^ 63 - 2 ^ 64 * ((b + 2 ^ 63) / 2 ^ 64) - 2 ^ 63) + 2 ^ 63)%Z
    with (a * b + 2 ^ 63 + (- a * ((b + 2 ^ 63) / 2 ^ 64)) * 2 ^ 64)%Z by ring.
  apply Z.mod_add. lia.
Qed.

(** [np.prod] of a tuple of sizes is the wrapped product of the sizes. *)
Lemma np_prod_wrap (t : list nat) : np_prod t = int64_wrap (Z.of_nat (numel_of t)).
Proof.
  induction t as [|d t IH]; [done|].
  unfold np_prod, numel_of in *. cbn [foldr]. rewrite IH, int64_mul_wrap_r.
  unfold int64_mul. f_equal. lia.
Qed.

(** The number of output channels when nothing overflows. *)
Lemma int64_mul_np_prod (n : nat) (t : list nat) :
  (Z.of_nat (n * numel_of t) < 2 ^ 63)%Z →
  int64_mul (Z.of_nat n) (np_prod t) = Z.of_nat (n * numel_of t).
Proof.
  intros Hlt. rewrite np_prod_wrap, int64_mul_wrap_r. unfold int64_mul.
  rewrite int64_wrap_small; lia.
Qed.

(** ** DictActor.__init__ *)

Lemma passes_checks_not_rejected (sp : space) :
  passes_checks sp → ¬ (rejected_by_a_check sp ∨ no_elements sp).
Proof.
  intros (nvec & n & -> & Hlen & Hlo & Hhi) [[H|[H|H]]|H].
  - done.
  - simpl in H. lia.
  - destruct H as (nvec' & lo & hi & [= <-] & Hlo' & Hhi' & Hne). congruence.
  - destruct H as (nvec' & [= <-] & Hd).
    apply nd_min_max_empty in Hd as [Hd _]. congruence.
Qed.

(** The checks either all pass, and then every entry is as they demand, or
    they raise [ValueError] because of some entry. *)
Lemma DictActor_validate_spec (action_space : gmap string space) :
  (DictActor_validate action_space = inr ()
     ∧ ∀ k sp, action_space !! k = Some sp → passes_checks sp)
  ∨ (DictActor_validate action_space = inl ValueError
     ∧ ∃ k sp, action_space !! k = Some sp ∧ (rejected_by_a_check sp ∨ no_elements sp)).
Proof.
  unfold DictActor_validate, check_MultiDiscrete.
  destruct (py_all (is_MultiDiscrete <$> _)) eqn:E1; cycle 1.
  { right. split; [done|].
    apply py_all_fmap_false in E1 as (sp & [k Hk]%elem_of_dict_values & Hsp).
    exists k, sp. split; [done|]. left. by left. }
  rewrite py_all_fmap, Forall_forall in E1. unfold check_ndims.
  destruct (py_all ((λ sp, bool_decide _) <$> _)) eqn:E2; cycle 1.
  { right. split; [done|].
    apply py_all_fmap_false in E2 as (sp & [k Hk]%elem_of_dict_values & Hsp).
    exists k, sp. split; [done|]. left. right. left.
    by apply bool_decide_eq_false in Hsp. }
  rewrite py_all_fmap, Forall_forall in E2. unfold check_n_actions. cbn.
  destruct (mapM same_n_actions _) as [e|flags] eqn:E3; cbn.
  { apply mapM_result_inl in E3 as (sp & Hin & Hsp).
    pose proof (E1 sp Hin) as Hmd. apply elem_of_dict_values in Hin as [k Hk].
    destruct sp as [| |nvec|]; try done. unfold same_n_actions in Hsp. cbn in Hsp.
    destruct (data nvec) as [|x l] eqn:Ed.
    - destruct (nd_min_max_empty nvec Ed) as [Hlo _]. rewrite Hlo in Hsp.
      cbn in Hsp. injection Hsp as <-. right. split; [done|].
      exists k, (MultiDiscrete nvec). split; [done|]. right. by exists nvec.
    - destruct (nd_min_max_nonempty nvec) as (lo & hi & Hlo & Hhi); [congruence|].
      rewrite Hlo in Hsp. cbn in Hsp. rewrite Hhi in Hsp. done. }
  apply mapM_result_inr in E3.
  destruct (py_all flags) eqn:E4.
  - left. split; [done|]. intros k sp Hk.
    assert (Hin : sp ∈ dict_values action_space) by (apply elem_of_dict_values; eauto).
    pose proof (E1 sp Hin) as Hmd. pose proof (E2 sp Hin) as Hnd.
    apply bool_decide_eq_true in Hnd.
    apply list_elem_of_lookup in Hin as [i Hi].
    destruct (Forall2_lookup_l _ _ _ _ _ E3 Hi) as (flag & Hi' & Hflag).
    assert (flag = true) as ->.
    { unfold py_all in E4. rewrite forallb_forall in E4. apply E4.
      apply list_elem_of_In, list_elem_of_lookup. eauto. }
    destruct sp as [| |nvec|]; try done. unfold same_n_actions in Hflag. cbn in Hflag.
    destruct (nd_min nvec) as [|lo] eqn:Hlo; [done|]. cbn in Hflag.
    destruct (nd_max nvec) as [|hi] eqn:Hhi; [done|]. cbn in Hflag.
    injection Hflag as Hflag. apply bool_decide_eq_true in Hflag as ->.
    by exists nvec, hi.
  - right. split; [done|].
    assert (∃ i, flags !! i = Some false) as [i Hi].
    { unfold py_all in E4. clear E3. induction flags as [|[] flags IH]; simpl in E4; [done| |].
      - destruct (IH E4) as [i Hi]. by exists (S i).
      - by exists 0. }
    destruct (Forall2_lookup_r _ _ _ _ _ E3 Hi) as (sp & Hsp & Hflag).
    assert (Hin : sp ∈ dict_values action_space) by (apply list_elem_of_lookup; eauto).
    pose proof (E1 sp Hin) as Hmd. apply elem_of_dict_values in Hin as [k Hk].
    destruct sp as [| |nvec|]; try done. unfold same_n_actions in Hflag. cbn in Hflag.
    destruct (nd_min nvec) as [|lo] eqn:Hlo; [done|]. cbn in Hflag.
    destruct (nd_max nvec) as [|hi] eqn:Hhi; [done|]. cbn in Hflag.
    injection Hflag as Hflag. apply bool_decide_eq_false in Hflag.
    exists k, (MultiDiscrete nvec). split; [done|]. left. right. right.
    by exists nvec, lo, hi.
Qed.

Lemma length_draws {G} (draw : G → R * G) (n : nat) (g : G) :
  length (draws draw n g).1 = n.
Proof.
  revert g. induction n as [|n IH]; intros g; [done|]. simpl.
  destruct (draw g) as [x g1]. specialize (IH g1).
  destruct (draws draw n g1) as [l g2]. simpl in *. by rewrite IH.
Qed.

Lemma foldr_min_le (x : positive) (l : list positive) (v : positive) :
  v ∈ x :: l → (foldr Pos.min x l ≤ v)%positive.
Proof.
  induction l as [|y l IH]; simpl.
  - intros ->%list_elem_of_singleton. lia.
  - rewrite !elem_of_cons. intros [->|[->|Hv]].
    + specialize (IH ltac:(left)). lia.
    + lia.
    + specialize (IH ltac:(by right)). lia.
Qed.

Lemma foldr_max_ge (x : positive) (l : list positive) (v : positive) :
  v ∈ x :: l → (v ≤ foldr Pos.max x l)%positive.
Proof.
  induction l as [|y l IH]; simpl.
  - intros ->%list_elem_of_singleton. lia.
  - rewrite !elem_of_cons. intros [->|[->|Hv]].
    + specialize (IH ltac:(left)). lia.
    + lia.
    + specialize (IH ltac:(by right)). lia.
Qed.

(** An array whose minimum is its maximum holds that number everywhere. *)
Lemma nd_min_max_all_equal (nvec : tensor positive) (n : positive) :
  nd_min nvec = inr n → nd_max nvec = inr n →
  data nvec ≠ [] ∧ Forall (λ v, v = n) (data nvec).
Proof.
  unfold nd_min, nd_max. destruct (data nvec) as [|x l]; [done|].
  intros [= Hlo] [= Hhi]. split; [done|]. apply Forall_forall. intros v Hv.
  pose proof (foldr_min_le x l v Hv). pose proof (foldr_max_ge x l v Hv). lia.
Qed.

Lemma ModuleDict_new_inr_inv {release : TorchRelease} {V} (d d' : gmap string V) :
  ModuleDict_new d = inr d' →
  d' = d ∧ ∀ key, is_Some (d !! key) → valid_module_name key = true.
Proof.
  unfold ModuleDict_new. destruct (forallb _ _) eqn:E; [|done]. intros [= <-].
  split; [done|]. intros key [v Hk]. rewrite forallb_forall in E. apply E.
  apply list_elem_of_In, list_elem_of_fmap. exists (key, v).
  split; [done | by apply elem_of_map_to_list].
Qed.

Lemma ModuleDict_new_inl_inv {release : TorchRelease} {V} (d : gmap string V) (e : exn) :
  ModuleDict_new d = inl e →
  e = KeyError ∧ ∃ key, is_Some (d !! key) ∧ valid_module_name key = false.
Proof.
  unfold ModuleDict_new. destruct (forallb _ _) eqn:E; [done|]. intros [= <-].
  split; [done|].
  assert (∃ key, key ∈ (dict_items d).*1 ∧ valid_module_name key = false)
    as (key & Hin & Hkey).
  { induction ((dict_items d).*1) as [|k l IH]; [done|]. simpl in E.
    destruct (valid_module_name k) eqn:Ek; simpl in E.
    - destruct (IH E) as (key & ? & ?). exists key. split; [by right | done].
    - exists k. split; [by left | done]. }
  exists key. split; [|done].
  apply list_elem_of_fmap in Hin as ([k v] & -> & Hin).
  apply elem_of_map_to_list in Hin. by exists v.
Qed.

Section Init_lemmas.
Context {G : Type} `{!Generator G} {release : TorchRelease}.

Lemma Conv2d_new_inr_inv (ic : nat) (oc : Z) (g g' : G) (c : Conv2d) :
  Conv2d_new ic oc g = (inr c, g') →
  (0 ≤ oc)%Z ∧ conv_in_channels c = ic ∧ Z.of_nat (conv_out_channels c) = oc ∧ conv_wf c.
Proof.
  unfold Conv2d_new. case_bool_decide as Hoc; [done|].
  pose proof (length_draws (uniform_ (- (1 / sqrt (INR ic))) (1 / sqrt (INR ic)))
                (Z.to_nat oc * ic) g) as Hw.
  destruct (draws _ (Z.to_nat oc * ic) g) as [wt g1].
  assert (∃ bs g2,
    (if bool_decide (ic = 0) then (replicate (Z.to_nat oc) 0%R, g1)
     else draws (uniform_ (- (1 / sqrt (INR ic))) (1 / sqrt (INR ic))) (Z.to_nat oc) g1)
    = (bs, g2) ∧ length bs = Z.to_nat oc) as (bs & g2 & -> & Hb).
  { case_bool_decide.
    - eexists _, _. split; [done|]. by rewrite length_replicate.
    - pose proof (length_draws (uniform_ (- (1 / sqrt (INR ic))) (1 / sqrt (INR ic)))
                    (Z.to_nat oc) g1) as Hb.
      destruct (draws _ (Z.to_nat oc) g1) as [bs g2]. by eexists _, _. }
  intros [= <- <-]. cbn in *. split; [lia|]. split; [done|]. split; [lia|].
  unfold conv_wf, tensor_wf, numel. cbn. repeat split; lia.
Qed.

Lemma Conv2d_new_inl_inv (ic : nat) (oc : Z) (g g' : G) (e : exn) :
  Conv2d_new ic oc g = (inl e, g') → e = RuntimeError ∧ (oc < 0)%Z.
Proof.
  unfold Conv2d_new. case_bool_decide as Hoc; [by intros [= <- <-]|].
  destruct (draws _ _ g) as [wt g1].
  by destruct (if bool_decide (ic = 0) then _ else _) as [bs g2].
Qed.

Lemma Conv2d_new_total (ic : nat) (oc : Z) (g : G) :
  (0 ≤ oc)%Z →
  ∃ c g', Conv2d_new ic oc g = (inr c, g')
          ∧ conv_in_channels c = ic ∧ conv_out_channels c = Z.to_nat oc.
Proof.
  intros Hoc. unfold Conv2d_new. rewrite bool_decide_eq_false_2 by lia.
  destruct (draws _ _ g) as [w g1].
  destruct (if bool_decide (ic = 0) then _ else _) as [b g2]. eauto.
Qed.

Lemma Linear_new_total (fi fo : nat) (g : G) :
  ∃ l g', Linear_new fi fo g = (inr l, g') ∧ in_features l = fi ∧ out_features l = fo.
Proof.
  unfold Linear_new.
  destruct (draws _ _ g) as [w g1]. destruct (draws _ _ g1) as [b g2]. eauto.
Qed.

(** Past the checks, the constructor has the numbers of actions and the
    action plane shapes, its [assert] holds, and what is left of it is to
    build the convolutions and the [nn.ModuleDict]. *)
Lemma DictActor_init_past_checks (in_channels : nat) (action_space : gmap string space) :
  DictActor_validate action_space = inr () →
  ∀ g, ∃ na,
    (∀ k, match action_space !! k with
          | Some sp => ∃ nvec lo, sp = MultiDiscrete nvec ∧ length (shape nvec) = 4
                                  ∧ nd_min nvec = inr lo ∧ nd_max nvec = inr lo
                                  ∧ na !! k = Some (Pos.to_nat lo)
          | None => na !! k = None
          end)
    ∧ DictActor_init in_channels action_space g
      = (convs ← dict_for (λ key n_act,
             aps ← lift (getitem ((λ sp, slice_to_neg2 (space_shape sp)) <$> action_space) key);
             Conv2d_new in_channels (int64_mul (Z.of_nat n_act) (np_prod aps)))
           na;
         actors ← lift (ModuleDict_new convs);
         mret {| n_actions := na;
                 action_plane_shapes :=
                   (λ sp, slice_to_neg2 (space_shape sp)) <$> action_space;
                 actors := actors |}) g.
Proof.
  intros Hval g.
  destruct (DictActor_validate_spec action_space) as [[_ Hpass]|[? _]]; [|congruence].
  unfold DictActor_init. rewrite Hval.
  erewrite bind_inr by reflexivity.
  destruct (dict_for_total (S := G)
      (λ key sp, lift (nvec ← space_nvec sp; lo ← nd_min nvec; mret (Pos.to_nat lo)))
      (λ _ sp n, ∃ nvec lo, sp = MultiDiscrete nvec ∧ nd_min nvec = inr lo ∧ n = Pos.to_nat lo)
      action_space) with (s := g) as (na & g1 & Ena & Hna).
  { intros k sp Hk s. destruct (Hpass k sp Hk) as (nvec & n & -> & _ & Hlo & _).
    exists (Pos.to_nat n), s. split; [|by eauto].
    unfold lift. cbn. by rewrite Hlo. }
  assert (g1 = g) as ->.
  { destruct (stateless_dict_for (S := G)
        (λ key sp, lift (nvec ← space_nvec sp; lo ← nd_min nvec; mret (Pos.to_nat lo)))
        action_space) as [r Hr]; [intros; apply stateless_lift|].
    rewrite Hr in Ena. by injection Ena as _ ->. }
  rewrite (bind_inr _ _ _ _ _ Ena).
  set (aps := (λ sp, slice_to_neg2 (space_shape sp)) <$> action_space).
  assert (Haps : py_all ((λ a, bool_decide (length a = 2)) <$> dict_values aps) = true).
  { apply py_all_fmap, Forall_forall. intros a [k Hk]%elem_of_dict_values.
    subst aps. rewrite lookup_fmap in Hk.
    destruct (action_space !! k) as [sp|] eqn:Ek; [|done]. injection Hk as <-.
    destruct (Hpass k sp Ek) as (nvec & n & -> & Hlen & _).
    apply bool_decide_eq_true. by apply length_slice_to_neg2. }
  rewrite Haps. erewrite bind_inr by reflexivity.
  exists na. split; [|done].
  intros k. specialize (Hna k). destruct (action_space !! k) as [sp|] eqn:Ek; [|done].
  destruct Hna as (n & Hn & nvec & lo & -> & Hlo & ->).
  destruct (Hpass k _ Ek) as (nvec' & lo' & [= <-] & Hlen & Hlo' & Hhi).
  assert (lo' = lo) as -> by congruence. by exists nvec, lo.
Qed.

(** When the constructor returns, the checks have passed and it has stored
    what [DictActor_built] says. *)
Lemma DictActor_init_inr_inv (in_channels : nat) (action_space : gmap string space)
    (g g' : G) (self : DictActor) :
  DictActor_init in_channels action_space g = (inr self, g') →
  DictActor_validate action_space = inr ()
  ∧ action_plane_shapes self = (λ sp, slice_to_neg2 (space_shape sp)) <$> action_space
  ∧ DictActor_built in_channels action_space self.
Proof.
  intros E.
  assert (DictActor_validate action_space = inr ()) as Hval.
  { unfold DictActor_init in E. apply bind_inr_inv in E as ([] & s1 & [Hv _]%lift_inr_inv & _).
    done. }
  split; [done|].
  destruct (DictActor_init_past_checks in_channels action_space Hval g) as (na & Hna & E').
  rewrite E' in E. clear E'.
  apply bind_inr_inv in E as (convs & s1 & Hconvs & E).
  apply bind_inr_inv in E as (acts & s2 & [Hacts ->]%lift_inr_inv & E).
  apply (inj2 pair) in E as [E _]. apply (inj inr) in E. subst self.
  apply ModuleDict_new_inr_inv in Hacts as [-> Hnames].
  cbn [n_actions action_plane_shapes actors]. split; [done|].
  intros key. specialize (Hna key).
  pose proof (dict_for_inr_inv _ _ _ _ _ Hconvs key) as Hkey.
  cbn [n_actions action_plane_shapes actors]. rewrite lookup_fmap.
  destruct (action_space !! key) as [sp|] eqn:Ek; cycle 1.
  { rewrite Hna in Hkey. by rewrite Hna, Hkey. }
  destruct Hna as (nvec & lo & -> & Hlen & Hlo & Hhi & Hn). rewrite Hn in Hkey.
  destruct Hkey as (c & s3 & s4 & Hc & Hbody).
  apply bind_inr_inv in Hbody as (aps & s5 & [Haps%getitem_inr_inv ->]%lift_inr_inv & Hnew).
  rewrite lookup_fmap, Ek in Haps. injection Haps as <-.
  apply Conv2d_new_inr_inv in Hnew as (Hoc & Hci & Hco & Hwf).
  exists nvec, lo, c. do 4 (split; [done|]).
  split; [cbn; f_equal; exact (proj1 (length_slice_to_neg2 _ Hlen))|].
  do 4 (split; [done|]). apply Hnames. by exists c.
Qed.

Lemma DictActor_init_inv (in_channels : nat) (action_space : gmap string space)
    (g g' : G) (self : DictActor) :
  DictActor_init in_channels action_space g = (inr self, g') →
  DictActor_built in_channels action_space self.
Proof. intros E. by apply DictActor_init_inr_inv in E as (_ & _ & ?). Qed.

(** When the constructor raises, it is [ValueError] from the checks, or,
    past the checks, [RuntimeError] from a convolution whose number of
    output channels has wrapped around to a negative number, or, with all
    convolutions built, [KeyError] from [nn.ModuleDict]. *)
Lemma DictActor_init_inl_inv (in_channels : nat) (action_space : gmap string space)
    (g g' : G) (e : exn) :
  DictActor_init in_channels action_space g = (inl e, g') →
  (e = ValueError ∧ DictActor_validate action_space = inl ValueError)
  ∨ (DictActor_validate action_space = inr ()
     ∧ e = RuntimeError
     ∧ ∃ key nvec n, action_space !! key = Some (MultiDiscrete nvec)
                     ∧ nd_min nvec = inr n ∧ (requested_channels n nvec < 0)%Z)
  ∨ (DictActor_validate action_space = inr ()
     ∧ e = KeyError
     ∧ (∀ key nvec n, action_space !! key = Some (MultiDiscrete nvec) →
          nd_min nvec = inr n → (0 ≤ requested_channels n nvec)%Z)
     ∧ ∃ key, is_Some (action_space !! key) ∧ valid_module_name key = false).
Proof.
  intros E.
  destruct (DictActor_validate_spec action_space) as [[Hval Hpass]|[Hval _]]; cycle 1.
  { left. unfold DictActor_init in E. rewrite Hval in E. by injection E as <- _. }
  right.
  destruct (DictActor_init_past_checks in_channels action_space Hval g) as (na & Hna & E').
  rewrite E' in E. clear E'.
  apply bind_inl_inv in E as [E|(convs & s1 & Hconvs & E)].
  - left. split; [done|].
    apply dict_for_inl_inv in E as (key & n & s1 & Hn & E).
    specialize (Hna key). destruct (action_space !! key) as [sp|] eqn:Ek; [|congruence].
    destruct Hna as (nvec & lo & -> & Hlen & Hlo & Hhi & Hn'). rewrite Hn in Hn'.
    injection Hn' as ->.
    unfold getitem in E. rewrite lookup_fmap, Ek in E. cbn [fmap option_fmap option_map] in E.
    erewrite bind_inr in E by reflexivity.
    apply Conv2d_new_inl_inv in E as [-> Hneg]. split; [done|].
    by exists key, nvec, lo.
  - right. split; [done|].
    apply bind_inl_inv in E as [E|(acts & s2 & _ & E)]; [|done].
    unfold lift in E. injection E as E _.
    apply ModuleDict_new_inl_inv in E as (-> & key & [c Hc] & Hbad). split; [done|]. split.
    + intros k nvec n Hk Hlo.
      pose proof (dict_for_inr_inv _ _ _ _ _ Hconvs k) as Hkey. specialize (Hna k).
      rewrite Hk in Hna. destruct Hna as (nvec' & lo & [= <-] & Hlen & Hlo' & Hhi & Hn).
      assert (lo = n) as -> by congruence.
      rewrite Hn in Hkey. destruct Hkey as (c' & s3 & s4 & _ & Hbody).
      apply bind_inr_inv in Hbody
        as (aps & s5 & [Haps%getitem_inr_inv ->]%lift_inr_inv & Hnew).
      rewrite lookup_fmap, Hk in Haps. injection Haps as <-.
      by apply Conv2d_new_inr_inv in Hnew as (Hoc & _).
    + exists key. split; [|done].
      pose proof (dict_for_inr_inv _ _ _ _ _ Hconvs key) as Hkey. specialize (Hna key).
      destruct (action_space !! key) as [sp|]; [by eexists|].
      rewrite Hna in Hkey. congruence.
Qed.

(** The constructor raises [ValueError] exactly when the checks do. *)
Lemma DictActor_init_ValueError_spec (in_channels : nat)
    (action_space : gmap string space) (g : G) :
  fst (DictActor_init in_channels action_space g) = inl ValueError
  ↔ ∃ key sp, action_space !! key = Some sp ∧ (rejected_by_a_check sp ∨ no_elements sp).
Proof.
  destruct (DictActor_validate_spec action_space) as [[Hv Hp]|[Hv Hr]].
  - split.
    + destruct (DictActor_init in_channels action_space g) as [[e|self] g'] eqn:E; [|done].
      cbn [fst]. intros [= ->].
      apply DictActor_init_inl_inv in E as [[_ E]|[(_ & E & _)|(_ & E & _)]]; congruence.
    + intros (key & sp & Hk & Hbad). by destruct (passes_checks_not_rejected sp (Hp _ _ Hk)).
  - assert (DictActor_init in_channels action_space g = (inl ValueError, g)) as E
      by (unfold DictActor_init; by rewrite Hv).
    rewrite E. by split.
Qed.

(** The [assert] of the constructor fails for no action space at all. *)
Lemma DictActor_init_no_AssertionError (in_channels : nat)
    (action_space : gmap string space) (g : G) :
  fst (DictActor_init in_channels action_space g) ≠ inl AssertionError.
Proof.
  destruct (DictActor_init in_channels action_space g) as [[e|self] g'] eqn:E; [|done].
  apply DictActor_init_inl_inv in E as [[-> _]|[(_ & -> & _)|(_ & -> & _)]]; done.
Qed.

End Init_lemmas.

Section DictActor_init_claims.
Context {G : Type} `{!Generator G} {release : TorchRelease}.

(** C2 (as amended).  [DictActor.__init__] raises [ValueError] if and only
    if some entry of the action space is not a [MultiDiscrete] space, or has
    a shape that is not 4-dimensional, or has differing numbers of actions
    ([nvec.min() != nvec.max()]), or has an [nvec] without elements (for
    which [nvec.min()] itself raises [ValueError]).  When no entry is of
    these kinds the three checks pass, and if the constructor then raises,
    it is [RuntimeError] (from [nn.Conv2d]) or [KeyError] (from
    [nn.ModuleDict]). *)
Theorem DictActor_init_ValueError_iff (in_channels : nat)
    (action_space : gmap string space) (g : G) :
  (fst (DictActor_init in_channels action_space g) = inl ValueError
   ↔ ∃ key sp, action_space !! key = Some sp ∧ (rejected_by_a_check sp ∨ no_elements sp))
  ∧ ((∀ key sp, action_space !! key = Some sp → ¬ (rejected_by_a_check sp ∨ no_elements sp))
     → DictActor_validate action_space = inr ()
       ∧ ∀ e, fst (DictActor_init in_channels action_space g) = inl e →
              e = RuntimeError ∨ e = KeyError).
Proof.
  split; [apply DictActor_init_ValueError_spec|]. intros Hgood.
  destruct (DictActor_validate_spec action_space) as [[Hv Hp]|[Hv Hr]]; cycle 1.
  { destruct Hr as (key & sp & Hk & Hbad). by destruct (Hgood key sp Hk). }
  split; [done|]. intros e.
  destruct (DictActor_init in_channels action_space g) as [[e'|self] g'] eqn:E; [|done].
  cbn [fst]. intros [= ->].
  apply DictActor_init_inl_inv in E as [[_ E]|[(_ & E & _)|(_ & E & _)]];
    [congruence | by left | by right].
Qed.

(** C6.  When the checks of [DictActor.__init__] pass, every action plane
    shape [space.shape[:-2]] has length 2, so the [assert] of the constructor
    holds: the constructor does not raise [AssertionError], and when it
    returns, every entry of [action_plane_shapes] is [space.shape[:-2]] and
    has length 2. *)
Theorem action_plane_shapes_length_2 (in_channels : nat)
    (action_space : gmap string space) (g : G) :
  DictActor_validate action_space = inr () →
  (∀ key sp, action_space !! key = Some sp → length (slice_to_neg2 (space_shape sp)) = 2)
  ∧ py_all ((λ aps, bool_decide (length aps = 2))
              <$> dict_values ((λ sp, slice_to_neg2 (space_shape sp)) <$> action_space))
    = true
  ∧ fst (DictActor_init in_channels action_space g) ≠ inl AssertionError
  ∧ ∀ self g', DictActor_init in_channels action_space g = (inr self, g') →
      (∀ key sp, action_space !! key = Some sp →
         action_plane_shapes self !! key = Some (slice_to_neg2 (space_shape sp)))
      ∧ (∀ key aps, action_plane_shapes self !! key = Some aps → length aps = 2).
Proof.
  intros Hv.
  destruct (DictActor_validate_spec action_space) as [[_ Hpass]|[? _]]; [|congruence].
  assert (Hlen : ∀ key sp, action_space !! key = Some sp →
                   length (slice_to_neg2 (space_shape sp)) = 2).
  { intros key sp Hk. destruct (Hpass key sp Hk) as (nvec & n & -> & Hlen & _).
    by apply length_slice_to_neg2. }
  split; [done|]. split.
  { apply py_all_fmap, Forall_forall. intros a [k Hk]%elem_of_dict_values.
    rewrite lookup_fmap in Hk.
    destruct (action_space !! k) as [sp|] eqn:Ek; [|done]. injection Hk as <-.
    apply bool_decide_eq_true. by eapply Hlen. }
  split; [apply DictActor_init_no_AssertionError|].
  intros self g' E. apply DictActor_init_inr_inv in E as (_ & Haps & _). split.
  - intros key sp Hk. by rewrite Haps, lookup_fmap, Hk.
  - intros key aps. rewrite Haps, lookup_fmap.
    destruct (action_space !! key) as [sp|] eqn:Ek; [|done]. intros [= <-]. by eapply Hlen.
Qed.

(** X6.  The number of actions that the constructor stores for a key is the
    number at every position of the key's [nvec], which is not empty. *)
Theorem DictActor_init_n_actions (in_channels : nat)
    (action_space : gmap string space) (g0 g1 : G) (self : DictActor) :
  DictActor_init in_channels action_space g0 = (inr self, g1) →
  ∀ key nvec, action_space !! key = Some (MultiDiscrete nvec) →
    ∃ n : positive,
      n_actions self !! key = Some (Pos.to_nat n)
      ∧ data nvec ≠ []
      ∧ Forall (λ v, v = n) (data nvec).
Proof.
  intros Hinit key nvec Hk.
  apply DictActor_init_inr_inv in Hinit as (Hval & _ & Hb).
  destruct (DictActor_validate_spec action_space) as [[_ Hpass]|[? _]]; [|congruence].
  specialize (Hb key). rewrite Hk in Hb.
  destruct (Hpass key _ Hk) as (nvec' & lo & [= <-] & _ & Hlo & Hhi).
  destruct Hb as (nvec' & lo' & c & [= <-] & _ & Hlo' & Hn & _).
  assert (lo' = lo) as -> by congruence.
  exists lo. split; [done|]. by apply nd_min_max_all_equal.
Qed.

(** X7.  When the constructor returns, each of its three dictionaries has one
    entry per key of the action space, every key is a name that
    [nn.ModuleDict] takes, and the convolution of a key maps [in_channels]
    channels to n_actions * p1 * p2 channels, the product taken in [int64]:
    it is the exact product when that is below 2^63.  The weight has shape
    (out_channels, in_channels, 1, 1) and the bias has out_channels
    entries. *)
Theorem DictActor_init_stores (in_channels : nat)
    (action_space : gmap string space) (g0 g1 : G) (self : DictActor) :
  DictActor_init in_channels action_space g0 = (inr self, g1) →
  dom (n_actions self) = dom action_space
  ∧ dom (action_plane_shapes self) = dom action_space
  ∧ dom (actors self) = dom action_space
  ∧ ∀ key c, actors self !! key = Some c →
      ∃ n p1 p2,
        n_actions self !! key = Some n
        ∧ action_plane_shapes self !! key = Some [p1; p2]
        ∧ valid_module_name key = true
        ∧ conv_in_channels c = in_channels
        ∧ Z.of_nat (conv_out_channels c)
          = int64_wrap (Z.of_nat n * (Z.of_nat p1 * Z.of_nat p2))
        ∧ ((Z.of_nat n * (Z.of_nat p1 * Z.of_nat p2) < 2 ^ 63)%Z →
           conv_out_channels c = n * (p1 * p2))
        ∧ shape (conv_weight c) = [conv_out_channels c; in_channels; 1; 1]
        ∧ tensor_wf (conv_weight c)
        ∧ shape (conv_bias c) = [conv_out_channels c]
        ∧ tensor_wf (conv_bias c).
Proof.
  intros Hinit. pose proof (DictActor_init_inv _ _ _ _ _ Hinit) as Hb.
  split; [|split; [|split]].
  1-3: apply set_eq; intros key; rewrite !elem_of_dom; specialize (Hb key);
       destruct (action_space !! key) as [sp|];
       [destruct Hb as (nvec & n & c & _ & _ & _ & Hn & Ha & Hc & _);
        rewrite ?Hn, ?Ha, ?Hc; split; eauto
       |destruct Hb as (Hn & Ha & Hc); rewrite ?Hn, ?Ha, ?Hc; split; by intros [? ?]].
  intros key c Hc. specialize (Hb key).
  destruct (action_space !! key) as [sp|]; cycle 1.
  { destruct Hb as (_ & _ & ?). congruence. }
  destruct Hb as (nvec & n & c' & -> & Hlen & _ & Hn & Ha & Hc' & Hci & Hco & Hwf & Hname).
  rewrite Hc in Hc'. injection Hc' as <-.
  destruct Hwf as (Hsw & Hww & Hsb & Hwb). rewrite Hci in Hsw.
  unfold requested_channels in Hco.
  rewrite (proj1 (length_slice_to_neg2 _ Hlen)) in Hco.
  destruct (shape nvec) as [|p1 [|p2 [|d3 [|d4 [|]]]]]; try done.
  cbn [take] in Ha, Hco.
  assert (int64_mul (Z.of_nat (Pos.to_nat n)) (np_prod [p1; p2])
          = int64_wrap (Z.of_nat (Pos.to_nat n) * (Z.of_nat p1 * Z.of_nat p2))) as Hprod.
  { rewrite np_prod_wrap, int64_mul_wrap_r. unfold int64_mul. f_equal.
    unfold numel_of. cbn [foldr]. lia. }
  rewrite Hprod in Hco.
  exists (Pos.to_nat n), p1, p2. do 5 (split; [done|]). split; [|done].
  intros Hlt. rewrite int64_wrap_small in Hco by lia. lia.
Qed.

(** X13.  Past the checks, the constructor raises [RuntimeError] when, for some
    key, the number of output channels n_actions * p1 * p2 has wrapped
    around in [int64] to a negative number. *)
Theorem DictActor_init_RuntimeError (in_channels : nat)
    (action_space : gmap string space) (g : G)
    (key : string) (nvec : tensor positive) (n : positive) :
  DictActor_validate action_space = inr () →
  action_space !! key = Some (MultiDiscrete nvec) →
  nd_min nvec = inr n →
  (requested_channels n nvec < 0)%Z →
  fst (DictActor_init in_channels action_space g) = inl RuntimeError.
Proof.
  intros Hval Hk Hlo Hneg.
  destruct (DictActor_init in_channels action_space g) as [[e|self] g'] eqn:E; cbn [fst].
  - apply DictActor_init_inl_inv in E as [[_ E]|[(_ & -> & _)|(_ & _ & Hpos & _)]].
    + congruence.
    + done.
    + specialize (Hpos key nvec n Hk Hlo). lia.
  - apply DictActor_init_inv in E. specialize (E key). rewrite Hk in E.
    destruct E as (nvec' & n' & c & [= <-] & _ & Hlo' & _ & _ & _ & _ & Hco & _).
    assert (n' = n) as -> by congruence. lia.
Qed.

End DictActor_init_claims.

Lemma example_space_passes key sp :
  example_space !! key = Some sp → passes_checks sp.
Proof.
  unfold example_space. intros [_ <-]%lookup_singleton_Some.
  by exists (Tensor [1; 2; 1; 1] [3; 3]%positive), 3%positive.
Qed.

Lemma example_actor_init :
  DictActor_init (release := example_release) 4 example_space ([] : list R)
  = (inr example_actor, []).
Proof. vm_compute. reflexivity. Qed.

Lemma DictActor_init_ValueError_iff_witness :
  DictActor_validate example_space = inr ()
  ∧ ∀ e, fst (DictActor_init (release := example_release) 4 example_space ([] : list R))
         = inl e → e = RuntimeError ∨ e = KeyError.
Proof.
  apply (DictActor_init_ValueError_iff (release := example_release) 4 example_space []).
  intros key sp Hk. by apply passes_checks_not_rejected, (example_space_passes key).
Defined.

(** C2, as stated, fails on an entry whose [nvec] is 4-dimensional and has no
    elements: no entry is rejected for one of the three reasons, yet the
    constructor raises [ValueError] (from [nvec.min()]). *)
Lemma DictActor_init_empty_nvec :
  fst (DictActor_init (release := example_release) 4 empty_nvec_space ([] : list R))
  = inl ValueError
  ∧ ¬ ∃ key sp, empty_nvec_space !! key = Some sp ∧ rejected_by_a_check sp.
Proof.
  split; [reflexivity|]. unfold empty_nvec_space.
  intros (key & sp & [_ <-]%lookup_singleton_Some & [H|[H|H]]).
  - done.
  - simpl in H. lia.
  - by destruct H as (nvec & lo & hi & [= <-] & Hlo & _).
Qed.

Lemma action_plane_shapes_length_2_witness :
  (∀ key sp, example_space !! key = Some sp → length (slice_to_neg2 (space_shape sp)) = 2)
  ∧ py_all ((λ aps, bool_decide (length aps = 2))
              <$> dict_values ((λ sp, slice_to_neg2 (space_shape sp)) <$> example_space))
    = true
  ∧ fst (DictActor_init (release := example_release) 4 example_space ([] : list R))
    ≠ inl AssertionError
  ∧ ∀ self g',
      DictActor_init (release := example_release) 4 example_space ([] : list R)
      = (inr self, g') →
      (∀ key sp, example_space !! key = Some sp →
         action_plane_shapes self !! key = Some (slice_to_neg2 (space_shape sp)))
      ∧ (∀ key aps, action_plane_shapes self !! key = Some aps → length aps = 2).
Proof.
  apply (action_plane_shapes_length_2 (release := example_release) 4 example_space []).
  reflexivity.
Defined.

Lemma DictActor_init_n_actions_witness :
  ∃ n : positive,
    n_actions example_actor !! "worker" = Some (Pos.to_nat n)
    ∧ data (Tensor [1; 2; 1; 1] [3; 3]%positive) ≠ []
    ∧ Forall (λ v, v = n) (data (Tensor [1; 2; 1; 1] [3; 3]%positive)).
Proof.
  apply (DictActor_init_n_actions (release := example_release) 4 example_space [] []
           example_actor).
  - vm_compute. reflexivity.
  - reflexivity.
Defined.

Lemma DictActor_init_stores_witness :
  dom (n_actions example_actor) = dom example_space
  ∧ dom (action_plane_shapes example_actor) = dom example_space
  ∧ dom (actors example_actor) = dom example_space
  ∧ ∀ key c, actors example_actor !! key = Some c →
      ∃ n p1 p2,
        n_actions example_actor !! key = Some n
        ∧ action_plane_shapes example_actor !! key = Some [p1; p2]
        ∧ valid_module_name (release := example_release) key = true
        ∧ conv_in_channels c = 4
        ∧ Z.of_nat (conv_out_channels c)
          = int64_wrap (Z.of_nat n * (Z.of_nat p1 * Z.of_nat p2))
        ∧ ((Z.of_nat n * (Z.of_nat p1 * Z.of_nat p2) < 2 ^ 63)%Z →
           conv_out_channels c = n * (p1 * p2))
        ∧ shape (conv_weight c) = [conv_out_channels c; 4; 1; 1]
        ∧ tensor_wf (conv_weight c)
        ∧ shape (conv_bias c) = [conv_out_channels c]
        ∧ tensor_wf (conv_bias c).
Proof.
  apply (DictActor_init_stores (release := example_release) 4 example_space [] []
           example_actor).
  vm_compute. reflexivity.
Defined.

Lemma DictActor_init_RuntimeError_witness :
  fst (DictActor_init (release := example_release) 4 overflowing_space ([] : list R))
  = inl RuntimeError.
Proof.
  apply (DictActor_init_RuntimeError (release := example_release) 4 overflowing_space []
           "worker"
           (Tensor [1; 2; 1; 1] [4611686018427387904; 4611686018427387904]%positive)
           4611686018427387904%positive).
  - vm_compute. reflexivity.
  - reflexivity.
  - vm_compute. reflexivity.
  - unfold requested_channels. rewrite positive_nat_Z. vm_compute. reflexivity.
Defined.

(** ** Shapes of the tensor operations *)

Lemma known_dims_Dim (l : list nat) : known_dims (Dim <$> l) = l.
Proof. unfold known_dims. induction l as [|x l IH]; [done|]. cbn. by rewrite IH. Qed.

Lemma infer_count_Dim (l : list nat) : infer_count (Dim <$> l) = 0.
Proof.
  unfold infer_count. induction l as [|x l IH]; [done|].
  rewrite fmap_cons, filter_cons_False; [done | by intros ?].
Qed.

Lemma fill_dim_Dim (n : nat) (l : list nat) : fill_dim n <$> (Dim <$> l) = l.
Proof. induction l as [|x l IH]; [done|]. cbn. by rewrite IH. Qed.

Lemma view_Dim {A} (t : tensor A) (l : list nat) :
  numel_of l = numel t → view t (Dim <$> l) = inr (Tensor l (data t)).
Proof.
  intros Hn. unfold view. rewrite infer_count_Dim, known_dims_Dim, fill_dim_Dim.
  by rewrite bool_decide_eq_true_2.
Qed.

Lemma view_Infer {A} (t : tensor A) (n count : nat) :
  n ≠ 0 → numel t = count * n →
  view t [Infer; Dim n] = inr (Tensor [count; n] (data t)).
Proof.
  intros Hn Hnum. unfold view.
  change (infer_count [Infer; Dim n]) with 1.
  change (numel_of (known_dims [Infer; Dim n])) with (n * 1).
  rewrite Nat.mul_1_r, Hnum.
  rewrite bool_decide_eq_false_2 by done.
  rewrite bool_decide_eq_true_2 by (by apply Nat.Div0.mod_mul).
  cbn. by rewrite Nat.div_mul.
Qed.

Lemma permute_logits {A} `{!Inhabited A} (t : tensor A) (b n p1 p2 h w : nat) :
  shape t = [b; n; p1; p2; h; w] →
  ∃ t', permute t [0; 2; 3; 4; 5; 1] = inr t' ∧ shape t' = [b; p1; p2; h; w; n]
        ∧ tensor_wf t'.
Proof.
  intros Hs. unfold permute. rewrite Hs.
  rewrite bool_decide_eq_true_2.
  - eexists. split; [reflexivity|]. split; [done|].
    unfold tensor_wf, numel. cbn [data shape]. by rewrite length_fmap, length_seq.
  - split; [done|]. split.
    + by apply (bool_decide_unpack _).
    + repeat constructor; simpl; lia.
Qed.

Lemma normalize_dim_last (ndim : nat) :
  ndim ≠ 0 → normalize_dim ndim (-1) = inr (ndim - 1).
Proof.
  intros Hn. unfold normalize_dim.
  rewrite bool_decide_eq_true_2 by lia.
  rewrite bool_decide_eq_true_2 by lia.
  f_equal. lia.
Qed.

Lemma Conv2d_forward_shape (c : Conv2d) (x : tensor R) (b h w : nat) :
  shape x = [b; conv_in_channels c; h; w] →
  conv_out_channels c ≠ 0 → conv_in_channels c ≠ 0 → h ≠ 0 → w ≠ 0 →
  ∃ y, Conv2d_forward c x = inr y ∧ shape y = [b; conv_out_channels c; h; w].
Proof.
  intros Hs Hco Hci Hh Hw. unfold Conv2d_forward, conv_accepts. rewrite Hs.
  rewrite bool_decide_eq_true_2 by done. eexists. split; [reflexivity | done].
Qed.

Lemma length_conv_data (c : Conv2d) (b ci h w : nat) (x : list R) :
  length (conv_data c b ci h w x) = b * (conv_out_channels c * (h * w)).
Proof. unfold conv_data. by rewrite length_fmap, length_seq. Qed.

(** When a convolution returns, the input was a batch or a single image
    with [in_channels] channels, no size among the channels, the rows and
    the columns was zero, and the output has the sizes of the input with
    [out_channels] channels. *)
Lemma Conv2d_forward_inv (c : Conv2d) (x y : tensor R) :
  Conv2d_forward c x = inr y →
  conv_out_channels c ≠ 0 ∧ conv_in_channels c ≠ 0 ∧ tensor_wf y
  ∧ ((∃ b h w, shape x = [b; conv_in_channels c; h; w]
               ∧ shape y = [b; conv_out_channels c; h; w] ∧ h ≠ 0 ∧ w ≠ 0)
     ∨ (∃ h w, shape x = [conv_in_channels c; h; w]
               ∧ shape y = [conv_out_channels c; h; w] ∧ h ≠ 0 ∧ w ≠ 0)).
Proof.
  unfold Conv2d_forward, conv_accepts.
  destruct (shape x) as [|d1 [|d2 [|d3 [|d4 [|]]]]]; try done.
  - case_bool_decide as H; [|done]. destruct H as (Hco & -> & Hci & Hh & Hw).
    intros [= <-]. split; [done|]. split; [done|]. split.
    + unfold tensor_wf, numel. cbn [data shape]. rewrite length_conv_data. cbn. lia.
    + right. by exists d2, d3.
  - case_bool_decide as H; [|done]. destruct H as (Hco & -> & Hci & Hh & Hw).
    intros [= <-]. split; [done|]. split; [done|]. split.
    + unfold tensor_wf, numel. cbn [data shape]. rewrite length_conv_data. cbn. lia.
    + left. by exists d1, d3, d4.
Qed.

(** ** argmax, softmax and multinomial *)

Lemma argmax_from_bound (best_i : nat) (best : R) (i : nat) (l : list R) :
  best_i < i → argmax_from best_i best i l < i + length l.
Proof.
  revert best_i best i. induction l as [|x l IH]; intros best_i best i Hlt; simpl.
  - lia.
  - destruct (Rlt_dec best x).
    + specialize (IH i x (S i)). lia.
    + specialize (IH best_i best (S i)). lia.
Qed.

Lemma argmax_list_bound (l : list R) : l ≠ [] → argmax_list l < length l.
Proof.
  destruct l as [|x l]; [done|]. intros _. simpl.
  pose proof (argmax_from_bound 0 x 1 l). lia.
Qed.

Lemma length_lane (x : list R) (n inner o i : nat) : length (lane x n inner o i) = n.
Proof. unfold lane. by rewrite length_fmap, length_seq. Qed.

Lemma argmax_lane_bound (x : list R) (n inner o i : nat) :
  n ≠ 0 → argmax_list (lane x n inner o i) < n.
Proof.
  intros Hn. rewrite <- (length_lane x n inner o i) at 2.
  apply argmax_list_bound. intros E. apply (f_equal length) in E.
  rewrite length_lane in E. done.
Qed.

(** On a matrix of [count] rows and [n] columns, [argmax(dim=-1)] returns
    one column index per row. *)
Lemma argmax_rows (x : tensor R) (count n : nat) (keepdim : bool) :
  shape x = [count; n] → n ≠ 0 →
  ∃ a, argmax x (-1) keepdim = inr a
       ∧ shape a = (if keepdim then [count; 1] else [count])
       ∧ Forall (λ i, i < n) (data a).
Proof.
  intros Hs Hn. unfold argmax. rewrite Hs. cbn [length].
  rewrite normalize_dim_last by done. cbn.
  rewrite bool_decide_eq_false_2 by done.
  eexists. split; [reflexivity|]. split; [by destruct keepdim|].
  cbn. apply Forall_fmap, Forall_forall. intros j _. by apply argmax_lane_bound.
Qed.

Lemma Rsum_pos (l : list R) : l ≠ [] → Forall (λ v, 0 < v)%R l → (0 < Rsum l)%R.
Proof.
  intros Hne Hl. induction Hl as [|v l Hv Hl IH]; [done|]. simpl.
  destruct l as [|v' l'].
  - simpl. lra.
  - specialize (IH ltac:(done)). simpl in *. lra.
Qed.

Lemma Rsum_exp_lane_pos (x : list R) (n inner o i : nat) :
  n ≠ 0 → (0 < Rsum (exp <$> lane x n inner o i))%R.
Proof.
  intros Hn. apply Rsum_pos.
  - intros E. apply (f_equal length) in E. rewrite length_fmap, length_lane in E. done.
  - apply Forall_fmap, Forall_forall. intros v _. apply exp_pos.
Qed.

Lemma nth_fmap_seq {B} (f : nat → B) (m j : nat) (d : B) :
  j < m → nth j (f <$> seq 0 m) d = f j.
Proof.
  intros Hj. apply nth_lookup_Some with (d := d).
  rewrite list_lookup_fmap, lookup_seq_lt by done. done.
Qed.

(** Softmax along an axis of non-zero size keeps the shape and returns
    positive numbers only. *)
Lemma softmax_spec (x : tensor R) (d : Z) (a : nat) :
  normalize_dim (length (shape x)) d = inr a →
  axis_size (shape x) a ≠ 0 →
  ∃ y, softmax x d = inr y ∧ shape y = shape x ∧ length (data y) = numel x
       ∧ Forall (λ v, 0 < v)%R (data y).
Proof.
  intros Ha Hn. unfold softmax. rewrite Ha. cbn.
  eexists. split; [reflexivity|]. split; [done|]. cbn. split.
  - by rewrite length_fmap, length_seq.
  - apply Forall_fmap, Forall_forall. intros j _. cbn.
    apply Rdiv_lt_0_compat; [apply exp_pos | by apply Rsum_exp_lane_pos].
Qed.

Lemma valid_probs_positive (d : list R) (count n : nat) :
  n ≠ 0 → length d = count * n → Forall (λ v, 0 < v)%R d →
  valid_probs n d count = true.
Proof.
  intros Hn Hlen Hpos. unfold valid_probs. apply andb_true_iff. split.
  - apply forallb_forall. intros p Hp%list_elem_of_In.
    rewrite Forall_forall in Hpos. apply bool_decide_eq_true.
    apply Rlt_le. by apply Hpos.
  - apply forallb_forall. intros row Hrow%list_elem_of_In.
    unfold rows_of in Hrow. apply list_elem_of_fmap in Hrow as (r & -> & Hr).
    apply elem_of_seq in Hr. apply negb_true_iff, bool_decide_eq_false.
    assert (0 < Rsum (lane d n 1 r 0))%R; [|lra].
    apply Rsum_pos.
    + intros E. apply (f_equal length) in E. by rewrite length_lane in E.
    + unfold lane. apply Forall_fmap, Forall_forall. intros k Hk%elem_of_seq. cbn.
      apply Forall_nth; [done|]. nia.
Qed.

(** ** The index that argmax returns *)

Lemma argmax_from_spec (pre l : list R) (best_i : nat) (best : R) :
  best_i < length pre → nth best_i pre 0%R = best →
  (∀ k, k < length pre → (nth k pre 0 <= best)%R) →
  (∀ k, k < best_i → (nth k pre 0 < best)%R) →
  let r := argmax_from best_i best (length pre) l in
  r < length (pre ++ l)
  ∧ (∀ k, k < length (pre ++ l) → (nth k (pre ++ l) 0 <= nth r (pre ++ l) 0)%R)
  ∧ (∀ k, k < r → (nth k (pre ++ l) 0 < nth r (pre ++ l) 0)%R).
Proof.
  revert pre best_i best. induction l as [|x l IH]; intros pre best_i best Hi Hb Hmax Hfirst.
  - cbv zeta. simpl. rewrite app_nil_r, Hb. by repeat split.
  - cbv zeta. simpl. replace (pre ++ x :: l) with ((pre ++ [x]) ++ l) by (rewrite <- app_assoc; reflexivity).
    assert (length (pre ++ [x]) = S (length pre)) as Hlen by (rewrite length_app; simpl; lia).
    assert (nth (length pre) (pre ++ [x]) 0%R = x) as Hx.
    { rewrite app_nth2 by lia. by rewrite Nat.sub_diag. }
    destruct (Rlt_dec best x) as [Hlt|Hge].
    + rewrite <- Hlen. apply IH.
      * lia.
      * exact Hx.
      * intros k Hk. destruct (decide (k < length pre)) as [Hk'|Hk'].
        -- rewrite app_nth1 by done. specialize (Hmax k Hk'). lra.
        -- replace k with (length pre) by lia. rewrite Hx. lra.
      * intros k Hk. rewrite app_nth1 by lia.
        specialize (Hmax k ltac:(lia)). lra.
    + rewrite <- Hlen. apply IH.
      * lia.
      * by rewrite app_nth1.
      * intros k Hk. destruct (decide (k < length pre)) as [Hk'|Hk'].
        -- rewrite app_nth1 by done. by apply Hmax.
        -- replace k with (length pre) by lia. rewrite Hx. lra.
      * intros k Hk. rewrite app_nth1 by lia. by apply Hfirst.
Qed.

(** [argmax_list] returns the first position of a largest element. *)
Lemma argmax_list_spec (l : list R) :
  l ≠ [] →
  argmax_list l < length l
  ∧ (∀ k, k < length l → (nth k l 0 <= nth (argmax_list l) l 0)%R)
  ∧ (∀ k, k < argmax_list l → (nth k l 0 < nth (argmax_list l) l 0)%R).
Proof.
  destruct l as [|x l]; [done|]. intros _.
  apply (argmax_from_spec [x] l 0 x); simpl; try lia; try done.
  intros k Hk. replace k with 0 by lia. lra.
Qed.

Lemma nth_lane (x : list R) (n inner o i k : nat) :
  k < n → nth k (lane x n inner o i) 0%R = nth ((o * n + k) * inner + i) x 0%R.
Proof. intros Hk. unfold lane. by rewrite nth_fmap_seq. Qed.

(** The elements of [argmax(dim=-1)] on a matrix. *)
Lemma argmax_rows_data (x : tensor R) (count n : nat) (keepdim : bool) :
  shape x = [count; n] → n ≠ 0 →
  ∃ a, argmax x (-1) keepdim = inr a
       ∧ shape a = (if keepdim then [count; 1] else [count])
       ∧ data a = (λ j, argmax_list (lane (data x) n 1 j 0)) <$> seq 0 count.
Proof.
  intros Hs Hn. unfold argmax. rewrite Hs. cbn [length].
  rewrite normalize_dim_last by done.
  unfold mbind, result_bind. cbv beta. change (2 - 1) with 1.
  change (axis_size [count; n] 1) with n.
  change (inner_size [count; n] 1) with 1.
  change (outer_size [count; n] 1) with (count * 1).
  rewrite bool_decide_eq_false_2 by done.
  eexists. split; [reflexivity|]. split; [by destruct keepdim|].
  cbn [data]. rewrite !Nat.mul_1_r. apply list_fmap_ext. intros _ j _.
  by rewrite Nat.div_1_r, Nat.mod_1_r.
Qed.


Lemma view_data {A} (t t' : tensor A) (dims : list view_dim) :
  view t dims = inr t' → data t' = data t.
Proof.
  unfold view. destruct (infer_count dims) as [|[|]]; [| |done].
  - case_bool_decide; [|done]. by intros [= <-].
  - case_bool_decide; [done|]. case_bool_decide; [|done]. by intros [= <-].
Qed.

Lemma view_Dim_inv {A} (t t' : tensor A) (l : list nat) :
  view t (Dim <$> l) = inr t' → t' = Tensor l (data t) ∧ numel_of l = numel t.
Proof.
  unfold view. rewrite infer_count_Dim, known_dims_Dim, fill_dim_Dim.
  case_bool_decide; [|done]. by intros [= <-].
Qed.


Section Sampling_lemmas.
Context {G : Type} `{!Generator G}.

(** [torch.multinomial] on [count] rows of [n] positive numbers returns one
    column index per row, as a column. *)
Lemma multinomial_rows (probs : tensor R) (count n : nat) (g : G) :
  shape probs = [count; n] → n ≠ 0 → (Z.of_nat n ≤ 2 ^ 24)%Z →
  length (data probs) = count * n → Forall (λ v, 0 < v)%R (data probs) →
  ∃ a g', multinomial probs g = (inr a, g')
          ∧ shape a = [count; 1] ∧ Forall (λ i, i < n) (data a).
Proof.
  intros Hs Hn Hcat Hlen Hpos.
  assert (axis_size (shape probs) (length (shape probs) - 1) = n) as Ha
    by (by rewrite Hs).
  assert (outer_size (shape probs) (length (shape probs) - 1) = count) as Ho
    by (rewrite Hs; cbn; lia).
  unfold multinomial. rewrite Ha, Ho, Hs.
  rewrite (bool_decide_eq_false_2 (n = 0)) by done.
  rewrite (bool_decide_eq_false_2 (2 ^ 24 < Z.of_nat n)%Z) by lia.
  case_bool_decide as Hc.
  - eexists _, g. split; [reflexivity|]. split; [done | constructor].
  - rewrite valid_probs_positive by done. cbn [negb].
    destruct (draws (exponential_ 1) (numel probs) g) as [q g'].
    destruct (argmax_rows (Tensor [count; n] (zip_with Rdiv (data probs) q)) count n true)
      as (a & Ea & Hsa & Hda); [done..|].
    exists a, g'. by rewrite Ea.
Qed.

(** [DictActor.logits_to_actions] on [count] rows of [n] logits: a column
    of indices when it samples, a vector of indices when it does not. *)
Lemma logits_to_actions_rows (logits : tensor R) (count n : nat) (sample : bool) (g : G) :
  shape logits = [count; n] → n ≠ 0 → (sample = true → (Z.of_nat n ≤ 2 ^ 24)%Z) →
  ∃ a g', logits_to_actions logits sample g = (inr a, g')
          ∧ shape a = (if sample then [count; 1] else [count])
          ∧ Forall (λ i, i < n) (data a).
Proof.
  intros Hs Hn Hcat. unfold logits_to_actions. destruct sample.
  - destruct (softmax_spec logits (-1) 1) as (p & Ep & Hsp & Hlp & Hpos).
    { rewrite Hs. by apply normalize_dim_last. }
    { by rewrite Hs. }
    rewrite (bind_inr _ _ _ _ _ (lift_inr _ _ g Ep)).
    apply multinomial_rows; [congruence | done | by apply Hcat | | done].
    rewrite Hlp. unfold numel. rewrite Hs. cbn. lia.
  - destruct (argmax_rows logits count n false) as (a & Ea & Hsa & Hda); [done..|].
    exists a, g. by rewrite (lift_inr _ _ g Ea).
Qed.

Lemma logits_to_actions_stateless (logits : tensor R) :
  stateless (logits_to_actions (G := G) logits false).
Proof. apply stateless_lift. Qed.

(** When [logits_to_actions] returns on [count] rows of [n] logits, it has
    one index below [n] per row; without sampling the index of a row is the
    first position of its largest logit, and the generator is as it was. *)
Lemma logits_to_actions_inv (logits : tensor R) (count n : nat) (sample : bool)
    (g g' : G) (a : tensor nat) :
  shape logits = [count; n] → n ≠ 0 →
  logits_to_actions logits sample g = (inr a, g') →
  shape a = (if sample then [count; 1] else [count])
  ∧ length (data a) = count
  ∧ Forall (λ i, i < n) (data a)
  ∧ (sample = false →
     g' = g ∧ data a = (λ j, argmax_list (lane (data logits) n 1 j 0)) <$> seq 0 count).
Proof.
  intros Hs Hn. unfold logits_to_actions. destruct sample.
  - destruct (softmax_spec logits (-1) 1) as (p & Ep & Hsp & Hlp & Hpos).
    { rewrite Hs. by apply normalize_dim_last. }
    { by rewrite Hs. }
    rewrite (bind_inr _ _ _ _ _ (lift_inr _ _ g Ep)).
    rewrite Hs in Hsp.
    assert (axis_size (shape p) (length (shape p) - 1) = n) as Ha by (by rewrite Hsp).
    assert (outer_size (shape p) (length (shape p) - 1) = count) as Ho
      by (rewrite Hsp; cbn; lia).
    unfold multinomial. rewrite Ha, Ho, Hsp.
    rewrite (bool_decide_eq_false_2 (n = 0)) by done.
    case_bool_decide as Hcat; [done|].
    case_bool_decide as Hc.
    + intros [= <- <-]. subst count. by repeat split.
    + destruct (negb _); [done|].
      destruct (draws (exponential_ 1) (numel p) g) as [q g1].
      destruct (argmax_rows_data (Tensor [count; n] (zip_with Rdiv (data p) q)) count n true)
        as (a' & Ea & Hsa & Hda); [done..|].
      rewrite Ea. intros [= <- <-]. rewrite Hda, length_fmap, length_seq.
      split; [done|]. split; [done|]. split; [|done].
      apply Forall_fmap, Forall_forall. intros j _. by apply argmax_lane_bound.
  - destruct (argmax_rows_data logits count n false) as (a' & Ea & Hsa & Hda); [done..|].
    rewrite Ea. intros [= <- <-]. rewrite Hda, length_fmap, length_seq.
    split; [done|]. split; [done|]. split; [|done].
    apply Forall_fmap, Forall_forall. intros j _. by apply argmax_lane_bound.
Qed.

End Sampling_lemmas.

(** ** The layout of the logits *)

Lemma digit_of_offset (J q idx r d st : nat) :
  J = (q * d + idx) * st + r → idx < d → r < st → (J / st) mod d = idx.
Proof.
  intros -> Hi Hr.
  assert (((q * d + idx) * st + r) / st = q * d + idx) as ->
    by (symmetry; apply Nat.div_unique with r; lia).
  symmetry. apply Nat.mod_unique with q; lia.
Qed.

Lemma offset_bound (idx d r st : nat) : idx < d → r < st → idx * st + r < d * st.
Proof. nia. Qed.

(** The multi-index of an offset into a tensor of shape (b, p1, p2, h, w, n). *)
Lemma unravel_logits (b p1 p2 h w n ib i j y x a : nat) :
  ib < b → i < p1 → j < p2 → y < h → x < w → a < n →
  unravel [b; p1; p2; h; w; n] (((((ib * p1 + i) * p2 + j) * h + y) * w + x) * n + a)
  = [ib; i; j; y; x; a].
Proof.
  intros Hib Hi Hj Hy Hx Ha.
  set (J := ((((ib * p1 + i) * p2 + j) * h + y) * w + x) * n + a).
  set (s5 := n * 1). set (s4 := w * s5). set (s3 := h * s4). set (s2 := p2 * s3).
  set (s1 := p1 * s2).
  assert (a < s5) as B5 by (subst s5; lia).
  assert (x * s5 + a < s4) as B4 by (apply offset_bound; done).
  assert (y * s4 + (x * s5 + a) < s3) as B3 by (apply offset_bound; done).
  assert (j * s3 + (y * s4 + (x * s5 + a)) < s2) as B2 by (apply offset_bound; done).
  assert (i * s2 + (j * s3 + (y * s4 + (x * s5 + a))) < s1) as B1
    by (apply offset_bound; done).
  unfold unravel. cbn [strides numel_of foldr zip_with].
  fold s5 s4 s3 s2 s1.
  rewrite (digit_of_offset J 0 ib (i * s2 + (j * s3 + (y * s4 + (x * s5 + a)))) b s1);
    [|subst J s1 s2 s3 s4 s5; ring|done|done].
  rewrite (digit_of_offset J ib i (j * s3 + (y * s4 + (x * s5 + a))) p1 s2);
    [|subst J s1 s2 s3 s4 s5; ring|done|done].
  rewrite (digit_of_offset J (ib * p1 + i) j (y * s4 + (x * s5 + a)) p2 s3);
    [|subst J s1 s2 s3 s4 s5; ring|done|done].
  rewrite (digit_of_offset J ((ib * p1 + i) * p2 + j) y (x * s5 + a) h s4);
    [|subst J s1 s2 s3 s4 s5; ring|done|done].
  rewrite (digit_of_offset J (((ib * p1 + i) * p2 + j) * h + y) x a w s5);
    [|subst J s1 s2 s3 s4 s5; ring|done|done].
  rewrite (digit_of_offset J ((((ib * p1 + i) * p2 + j) * h + y) * w + x) a 0 n 1);
    [done|subst J; ring|done|lia].
Qed.

(** [permute(0, 2, 3, 4, 5, 1)] moves the element at (ib, a, i, j, y, x) of a
    tensor of shape (b, n, p1, p2, h, w) to (ib, i, j, y, x, a). *)
Lemma permute_logits_nth {A} `{!Inhabited A} (t l : tensor A)
    (b n p1 p2 h w ib i j y x a : nat) :
  shape t = [b; n; p1; p2; h; w] →
  permute t [0; 2; 3; 4; 5; 1] = inr l →
  ib < b → i < p1 → j < p2 → y < h → x < w → a < n →
  nth (((((ib * p1 + i) * p2 + j) * h + y) * w + x) * n + a) (data l) inhabitant
  = nth (((((ib * n + a) * p1 + i) * p2 + j) * h + y) * w + x) (data t) inhabitant.
Proof.
  intros Hs Hp Hib Hi Hj Hy Hx Ha. unfold permute in Hp. rewrite Hs in Hp.
  rewrite bool_decide_eq_true_2 in Hp; cycle 1.
  { split; [done|]. split; [by apply (bool_decide_unpack _)|].
    repeat constructor; simpl; lia. }
  apply (inj inr) in Hp. subst l. cbn [data fmap list_fmap nth].
  pose proof (offset_bound ib b _ _ Hib
    (offset_bound i p1 _ _ Hi (offset_bound j p2 _ _ Hj
      (offset_bound y h _ _ Hy (offset_bound x w _ _ Hx Ha))))) as Hlt.
  rewrite nth_fmap_seq; cycle 1.
  { cbn [numel_of foldr]. nia. }
  rewrite unravel_logits by done. f_equal.
  cbn [strides numel_of foldr zip_with nth sum_list sum_list_with].
  unfold Datatypes.id. ring.
Qed.


Lemma numel_of_app (l1 l2 : list nat) : numel_of (l1 ++ l2) = numel_of l1 * numel_of l2.
Proof. unfold numel_of. induction l1 as [|x l1 IH]; simpl; [lia|]. rewrite IH. lia. Qed.

(** One element of the output of a convolution with a (1, 1) kernel: the
    bias of the channel plus the weighted sum of the input channels at the
    same cell of the same board. *)
Lemma conv_data_nth (c : Conv2d) (b ci h w : nat) (x : list R) (ib o r s : nat) :
  ib < b → o < conv_out_channels c → r < h → s < w →
  nth (((ib * conv_out_channels c + o) * h + r) * w + s) (conv_data c b ci h w x) 0%R
  = (nth o (data (conv_bias c)) 0
     + Rsum ((λ k, nth (o * ci + k) (data (conv_weight c)) 0
                    * nth (((ib * ci + k) * h + r) * w + s) x 0) <$> seq 0 ci))%R.
Proof.
  intros Hib Ho Hr Hs. unfold conv_data. set (co := conv_out_channels c) in *.
  assert (r * w + s < h * w) as Hp by (by apply offset_bound).
  assert (ib * co + o < b * co) as Hq by (by apply offset_bound).
  assert (o * (h * w) + (r * w + s) < co * (h * w)) as Hq' by (by apply offset_bound).
  replace (((ib * co + o) * h + r) * w + s)
    with ((ib * co + o) * (h * w) + (r * w + s)) by ring.
  rewrite nth_fmap_seq; cycle 1.
  { replace (b * (co * (h * w))) with ((b * co) * (h * w)) by ring. by apply offset_bound. }
  cbv beta zeta.
  assert (((ib * co + o) * (h * w) + (r * w + s)) / (h * w) = ib * co + o) as ->.
  { symmetry. apply Nat.div_unique with (r * w + s); [done | ring]. }
  assert (((ib * co + o) * (h * w) + (r * w + s)) mod (h * w) = r * w + s) as ->.
  { symmetry. apply Nat.mod_unique with (ib * co + o); [done | ring]. }
  assert (((ib * co + o) * (h * w) + (r * w + s)) / (co * (h * w)) = ib) as ->.
  { symmetry. apply Nat.div_unique with (o * (h * w) + (r * w + s)); [done | ring]. }
  assert ((ib * co + o) mod co = o) as ->.
  { symmetry. apply Nat.mod_unique with ib; [done | ring]. }
  do 2 f_equal. apply list_fmap_ext. intros _ k _. do 2 f_equal. ring.
Qed.

(** ** DictActor.forward *)

Section DictActor_forward_lemmas.
Context {G : Type} `{!Generator G} {release : TorchRelease}.

(** When [DictActor.forward] returns, the input was 4-dimensional and every
    key of [actors] has its logits and its actions. *)
Lemma DictActor_forward_inr_inv (self : DictActor) (x : tensor R) (sample : bool)
    (g g' : G) (logits : gmap string (tensor R)) (actions : gmap string (tensor nat)) :
  DictActor_forward self x sample g = (inr (logits, actions), g') →
  ∃ b c h w,
    shape x = [b; c; h; w]
    ∧ ∀ key,
        match actors self !! key with
        | Some actor =>
            ∃ l a, logits !! key = Some l ∧ actions !! key = Some a
                   ∧ logits_of_key self x b h w key actor l
                   ∧ actions_of_logits self b h w sample key l a
        | None => logits !! key = None ∧ actions !! key = None
        end.
Proof.
  unfold DictActor_forward.
  destruct (shape x) as [|b [|c [|h [|w [|]]]]] eqn:Hs; try done.
  intros E. exists b, c, h, w. split; [done|].
  apply bind_inr_inv in E as (out & s1 & Eout & E). injection E as <- <- <-.
  intros key. pose proof (dict_for_inr_inv _ _ _ _ _ Eout key) as Hk.
  rewrite !lookup_fmap.
  destruct (actors self !! key) as [actor|]; [|by rewrite Hk].
  destruct Hk as ([l a] & s2 & s3 & -> & E).
  apply bind_inr_inv in E as (n & s4 & [Hn%getitem_inr_inv ->]%lift_inr_inv & E).
  apply bind_inr_inv in E as (aps & s4 & [Ha%getitem_inr_inv ->]%lift_inr_inv & E).
  apply bind_inr_inv in E as (y & s4 & [Hy ->]%lift_inr_inv & E).
  apply bind_inr_inv in E as (l0 & s4 & [Hl0 ->]%lift_inr_inv & E).
  apply bind_inr_inv in E as (l' & s4 & [Hl ->]%lift_inr_inv & E).
  apply bind_inr_inv in E as (flat & s4 & [Hflat ->]%lift_inr_inv & E).
  apply bind_inr_inv in E as (a0 & s4 & Ha0 & E).
  apply bind_inr_inv in E as (a' & s5 & [Ha' ->]%lift_inr_inv & E).
  injection E as <- <- <-.
  exists l', a'. split; [done|]. split; [done|]. split.
  - by exists n, aps, y, l0.
  - by exists n, aps, flat, a0, s2, s4.
Qed.

(** The logits of a key are determined by the actor and the input. *)
Lemma logits_of_key_unique (self : DictActor) (x : tensor R) (b h w : nat)
    (key : string) (actor : Conv2d) (l1 l2 : tensor R) :
  logits_of_key self x b h w key actor l1 → logits_of_key self x b h w key actor l2 →
  l1 = l2.
Proof.
  intros (n & aps & y & l0 & Hn & Ha & Hy & Hl0 & Hl)
         (n' & aps' & y' & l0' & Hn' & Ha' & Hy' & Hl0' & Hl').
  congruence.
Qed.

(** What the steps of [DictActor.forward] have made for a key with [n] > 0
    actions and action planes (p1, p2). *)
Lemma key_run_intro (self : DictActor) (x : tensor R) (b h w : nat) (sample : bool)
    (key : string) (c : Conv2d) (l : tensor R) (a : tensor nat) (n p1 p2 : nat) :
  n_actions self !! key = Some n → n ≠ 0 →
  action_plane_shapes self !! key = Some [p1; p2] →
  actors self !! key = Some c →
  logits_of_key self x b h w key c l →
  actions_of_logits self b h w sample key l a →
  key_run self x b h w sample key l a.
Proof.
  intros Hn Hn0 Hp Hc (n' & aps & y & l0 & Hn' & Hp' & Hy & Hl0 & Hperm)
    (n'' & aps' & flat & a0 & g1 & g2 & Hn'' & Hp'' & Hflat & Ha0 & Hview).
  rewrite Hn in Hn', Hn''. rewrite Hp in Hp', Hp''.
  injection Hn' as <-. injection Hn'' as <-. injection Hp' as <-. injection Hp'' as <-.
  apply view_Dim_inv in Hl0 as [-> Hnum].
  destruct (permute_logits (Tensor ([b; n] ++ [p1; p2] ++ [h; w]) (data y)) b n p1 p2 h w)
    as (l' & El & Hsl & Hwf); [done|].
  rewrite Hperm in El. injection El as <-.
  rewrite (view_Infer l n (b * p1 * p2 * h * w)) in Hflat; [|done|]; cycle 1.
  { unfold numel. rewrite Hsl. cbn. lia. }
  apply (inj inr) in Hflat. subst flat.
  destruct (logits_to_actions_inv (Tensor [b * p1 * p2 * h * w; n] (data l))
              (b * p1 * p2 * h * w) n sample g1 g2 a0) as (Hsa & Hla & Hra & _);
    [reflexivity | exact Hn0 | exact Ha0 |].
  apply view_Dim_inv in Hview as [-> _].
  exists n, p1, p2, c, y, (Tensor [b * p1 * p2 * h * w; n] (data l)), a0, g1, g2.
  do 5 (split; [done|]). split.
  { cbn in Hnum. lia. }
  do 8 (split; [done|]). done.
Qed.

(** When [DictActor.forward] returns on a built actor, it has run as
    [key_run] says for every key of the action space, and has nothing for
    another key. *)
Lemma DictActor_forward_returned (in_channels : nat) (action_space : gmap string space)
    (self : DictActor) (x : tensor R) (b c h w : nat) (sample : bool) (g g' : G)
    (logits : gmap string (tensor R)) (actions : gmap string (tensor nat)) :
  DictActor_built in_channels action_space self →
  shape x = [b; c; h; w] →
  DictActor_forward self x sample g = (inr (logits, actions), g') →
  ∀ key,
    match action_space !! key with
    | Some _ => ∃ l a, logits !! key = Some l ∧ actions !! key = Some a
                       ∧ key_run self x b h w sample key l a
    | None => logits !! key = None ∧ actions !! key = None
    end.
Proof.
  intros Hb Hs E key.
  apply DictActor_forward_inr_inv in E as (b' & c' & h' & w' & Hs' & Hinv).
  rewrite Hs in Hs'. injection Hs' as <- <- <- <-.
  specialize (Hinv key). specialize (Hb key).
  destruct (action_space !! key) as [sp|].
  - destruct Hb as (nvec & lo & conv & -> & Hlen & _ & Hn & Ha & Hc & _).
    rewrite Hc in Hinv. destruct Hinv as (l & a & Hl & Ha' & Hlog & Hact).
    exists l, a. split; [done|]. split; [done|].
    destruct (shape nvec) as [|p1 [|p2 [|d3 [|d4 [|]]]]]; try done.
    cbn [take] in Ha.
    eapply key_run_intro; try done. lia.
  - destruct Hb as (_ & _ & Hc). by rewrite Hc in Hinv.
Qed.

(** On an actor whose convolutions have the channels that the logits need,
    and an input with [in_channels] channels and no zero size among the
    channels, the rows and the columns, [DictActor.forward] returns; when it
    samples, provided no key has more than 2^24 actions. *)
Lemma DictActor_forward_built (in_channels : nat) (action_space : gmap string space)
    (self : DictActor) (x : tensor R) (b h w : nat) (sample : bool) (g : G) :
  DictActor_built in_channels action_space self →
  channels_fit self → (sample = true → categories_fit self) →
  shape x = [b; in_channels; h; w] → in_channels ≠ 0 → h ≠ 0 → w ≠ 0 →
  ∃ logits actions g', DictActor_forward self x sample g = (inr (logits, actions), g').
Proof.
  intros Hb Hfit Hcat Hs Hci0 Hh0 Hw0. unfold DictActor_forward. rewrite Hs.
  match goal with |- context [dict_for ?f (actors self)] => set (body := f) end.
  destruct (dict_for_total body (λ _ _ _, True) (actors self)) with (s := g)
    as (out & g' & Eout & _).
  { intros key c Hc s. specialize (Hb key).
    destruct (action_space !! key) as [sp|]; [|destruct Hb as (_ & _ & ?); congruence].
    destruct Hb as (nvec & lo & c' & -> & Hlen & Hlo & Hn & Ha & Hc' & Hci & _).
    rewrite Hc in Hc'. injection Hc' as <-.
    destruct (Hfit key c Hc) as (n' & aps & Hn' & Ha' & Hco & Hco0).
    rewrite Hn in Hn'. rewrite Ha in Ha'. injection Hn' as <-. injection Ha' as <-.
    destruct (shape nvec) as [|p1 [|p2 [|d3 [|d4 [|]]]]]; try done.
    cbn [take] in Ha, Hco. set (n := Pos.to_nat lo) in *.
    assert (n ≠ 0) as Hn0 by (subst n; lia).
    subst body. cbn beta.
    rewrite (bind_inr _ _ _ _ _ (lift_inr _ _ s (f_equal (from_option inr (inl KeyError)) Hn))).
    rewrite (bind_inr _ _ _ _ _ (lift_inr _ _ s (f_equal (from_option inr (inl KeyError)) Ha))).
    destruct (Conv2d_forward_shape c x b h w) as (y & Ey & Hy);
      [by rewrite Hci | done | by rewrite Hci | done | done |].
    rewrite (bind_inr _ _ _ _ _ (lift_inr _ _ s Ey)).
    rewrite (view_Dim y ([b; n] ++ [p1; p2] ++ [h; w])); cycle 1.
    { unfold numel. rewrite Hy, Hco. cbn. lia. }
    erewrite bind_inr by reflexivity.
    destruct (permute_logits (Tensor ([b; n] ++ [p1; p2] ++ [h; w]) (data y)) b n p1 p2 h w)
      as (l & El & Hl & Hwf); [done|].
    rewrite (bind_inr _ _ _ _ _ (lift_inr _ _ s El)).
    rewrite (view_Infer l n (numel_of [b; p1; p2; h; w])); [|done|]; cycle 1.
    { unfold numel. rewrite Hl. cbn. lia. }
    erewrite bind_inr by reflexivity.
    destruct (logits_to_actions_rows (Tensor [numel_of [b; p1; p2; h; w]; n] (data l))
                (numel_of [b; p1; p2; h; w]) n sample s) as (a & s' & Ea & Hsa & Hda);
      [done | done | intros Hsam; by apply (Hcat Hsam key) |].
    rewrite (bind_inr _ _ _ _ _ Ea).
    rewrite (view_Dim a ([b] ++ [p1; p2] ++ [h; w])); cycle 1.
    { unfold numel. rewrite Hsa. destruct sample; cbn; lia. }
    erewrite bind_inr by reflexivity.
    by eexists (_, _), s'. }
  rewrite (bind_inr _ _ _ _ _ Eout). by eexists _, _, g'.
Qed.

(** In a run without sampling, the action at a location is the first index
    of a largest logit there. *)
Lemma DictActor_argmax_built (in_channels : nat) (action_space : gmap string space)
    (self : DictActor) (x : tensor R) (g g' : G)
    (logits : gmap string (tensor R)) (actions : gmap string (tensor nat)) :
  DictActor_built in_channels action_space self →
  DictActor_forward self x false g = (inr (logits, actions), g') →
  ∀ key, is_Some (action_space !! key) →
    ∃ n l a,
      n_actions self !! key = Some n
      ∧ logits !! key = Some l
      ∧ actions !! key = Some a
      ∧ ∀ loc, loc < length (data a) →
          nth loc (data a) 0 < n
          ∧ (∀ k, k < n →
               (nth (loc * n + k) (data l) 0
                <= nth (loc * n + nth loc (data a) 0%nat) (data l) 0)%R)
          ∧ (∀ k, k < nth loc (data a) 0 →
               (nth (loc * n + k) (data l) 0
                < nth (loc * n + nth loc (data a) 0%nat) (data l) 0)%R).
Proof.
  intros Hinit Erun key [sp Hk].
  destruct (DictActor_forward_inr_inv _ _ _ _ _ _ _ Erun) as (b & c & h & w & Hs & _).
  pose proof (DictActor_forward_returned _ _ _ _ _ _ _ _ _ _ _ _ _ Hinit Hs Erun key) as Hrun.
  rewrite Hk in Hrun. destruct Hrun as (l & a & Hl & Ha & Hrun).
  destruct Hrun as (n & p1 & p2 & conv & y & flat & a0 & ga & gb & Hn & Hn0 & _ & _ & _
                    & _ & _ & _ & _ & -> & Ha0 & _ & _ & _ & ->).
  destruct (logits_to_actions_inv (Tensor [b * p1 * p2 * h * w; n] (data l))
              (b * p1 * p2 * h * w) n false ga gb a0) as (_ & _ & _ & Hda);
    [reflexivity | exact Hn0 | exact Ha0 |].
  destruct (Hda eq_refl) as [_ Hdata]. cbn [data] in Hdata.
  exists n, l, (Tensor [b; p1; p2; h; w] (data a0)). do 3 (split; [done|]).
  cbn [data]. intros loc Hloc. rewrite Hdata in Hloc |- *.
  rewrite length_fmap, length_seq in Hloc. rewrite !nth_fmap_seq by done.
  destruct (argmax_list_spec (lane (data l) n 1 loc 0)) as (Hlt & Hmax & Hfirst).
  { intros Hnil. apply (f_equal length) in Hnil. by rewrite length_lane in Hnil. }
  rewrite length_lane in Hlt, Hmax.
  split; [done|]. split.
  - intros k Hk'. specialize (Hmax k Hk'). rewrite !nth_lane in Hmax by done.
    by replace ((loc * n + k) * 1 + 0) with (loc * n + k) in Hmax by lia;
       replace ((loc * n + argmax_list (lane (data l) n 1 loc 0)) * 1 + 0)
         with (loc * n + argmax_list (lane (data l) n 1 loc 0)) in Hmax by lia.
  - intros k Hk'. specialize (Hfirst k Hk'). rewrite !nth_lane in Hfirst by lia.
    by replace ((loc * n + k) * 1 + 0) with (loc * n + k) in Hfirst by lia;
       replace ((loc * n + argmax_list (lane (data l) n 1 loc 0)) * 1 + 0)
         with (loc * n + argmax_list (lane (data l) n 1 loc 0)) in Hfirst by lia.
Qed.

(** Without sampling, [DictActor.forward] does not use the generator. *)
Lemma DictActor_forward_stateless (self : DictActor) (x : tensor R) :
  stateless (DictActor_forward (G := G) self x false).
Proof.
  unfold DictActor_forward.
  destruct (shape x) as [|b [|c [|h [|w [|]]]]]; try apply stateless_raise.
  apply stateless_bind; [|intros out; apply stateless_ret].
  apply stateless_dict_for. intros key actor.
  apply stateless_bind; [apply stateless_lift|]. intros n.
  apply stateless_bind; [apply stateless_lift|]. intros aps.
  apply stateless_bind; [apply stateless_lift|]. intros y.
  apply stateless_bind; [apply stateless_lift|]. intros logits.
  apply stateless_bind; [apply stateless_lift|]. intros logits'.
  apply stateless_bind; [apply stateless_lift|]. intros flat.
  apply stateless_bind; [apply logits_to_actions_stateless|]. intros actions.
  apply stateless_bind; [apply stateless_lift|]. intros actions'.
  apply stateless_ret.
Qed.

(** When the numbers of output channels fit [int64], the convolutions of a
    built actor have the channels that the logits need. *)
Lemma channels_fit_built (in_channels : nat) (action_space : gmap string space)
    (self : DictActor) :
  DictActor_built in_channels action_space self →
  channels_fit_int64 action_space → channels_fit self.
Proof.
  intros Hb Hfit key c Hc. specialize (Hb key).
  destruct (action_space !! key) as [sp|] eqn:Hk; [|destruct Hb as (_ & _ & ?); congruence].
  destruct Hb as (nvec & lo & c' & -> & Hlen & Hlo & Hn & Ha & Hc' & _ & Hco & _).
  rewrite Hc in Hc'. injection Hc' as <-.
  destruct (Hfit key nvec lo Hk Hlo) as [Hwf Hlt].
  unfold requested_channels in Hco.
  rewrite (proj1 (length_slice_to_neg2 _ Hlen)) in Hco, Hlt.
  rewrite int64_mul_np_prod in Hco by lia.
  exists (Pos.to_nat lo), (take 2 (shape nvec)). do 2 (split; [done|]).
  split; [lia|].
  assert (numel_of (take 2 (shape nvec)) ≠ 0) as Hne.
  { assert (numel nvec ≠ 0) as Hnum.
    { rewrite <- Hwf. unfold nd_min in Hlo. by destruct (data nvec). }
    unfold numel in Hnum. rewrite <- (take_drop 2 (shape nvec)), numel_of_app in Hnum. lia. }
  nia.
Qed.

End DictActor_forward_lemmas.

(** The example actor has the channels its logits need, and three actions. *)
Lemma example_actor_built :
  DictActor_built (release := example_release) 4 example_space example_actor.
Proof. exact (DictActor_init_inv _ _ _ _ _ example_actor_init). Qed.

Lemma example_actor_fits : channels_fit example_actor ∧ categories_fit example_actor.
Proof.
  split.
  - intros key c Hc. cbn in Hc. apply lookup_singleton_Some in Hc as [<- <-].
    by exists 3, [1; 2].
  - intros key n Hn. cbn in Hn. apply lookup_singleton_Some in Hn as [<- <-]. cbn. lia.
Qed.

(** [DictActor.forward] returns on the example actor. *)
Lemma example_actor_forward_returns (sample : bool) :
  ∃ logits actions g',
    DictActor_forward example_actor example_x sample ([] : list R)
    = (inr (logits, actions), g').
Proof.
  apply (DictActor_forward_built (release := example_release) 4 example_space
           example_actor example_x 1 1 1 sample []).
  - exact example_actor_built.
  - exact (proj1 example_actor_fits).
  - intros _. exact (proj2 example_actor_fits).
  - reflexivity.
  - lia.
  - lia.
  - lia.
Qed.

Section DictActor_forward_claims.
Context {G : Type} `{!Generator G} {release : TorchRelease}.

(** C4.  Whenever [DictActor.forward] returns on an input of shape
    (batch, channels, height, width), the policy logits of every key have
    shape (batch, p1, p2, height, width, n_actions[key]), where (p1, p2) is
    the action plane shape of the key, and hold the output of the key's
    convolution with the action dimension moved to the last position: the
    logit of action [a] on plane (i, j) at cell (r, s) of board [ib] is the
    output in channel (a * p1 + i) * p2 + j at that cell of that board. *)
Theorem DictActor_forward_logits_shape (in_channels : nat)
    (action_space : gmap string space) (g0 g1 : G) (self : DictActor)
    (x : tensor R) (b c h w : nat) (sample : bool) (g g' : G)
    (logits : gmap string (tensor R)) (actions : gmap string (tensor nat)) :
  DictActor_init in_channels action_space g0 = (inr self, g1) →
  shape x = [b; c; h; w] →
  DictActor_forward self x sample g = (inr (logits, actions), g') →
  ∀ key, is_Some (action_space !! key) →
    ∃ n p1 p2 conv y l,
      n_actions self !! key = Some n
      ∧ action_plane_shapes self !! key = Some [p1; p2]
      ∧ actors self !! key = Some conv
      ∧ Conv2d_forward conv x = inr y
      ∧ shape y = [b; conv_out_channels conv; h; w]
      ∧ (b ≠ 0 → conv_out_channels conv = n * (p1 * p2))
      ∧ logits !! key = Some l
      ∧ shape l = [b; p1; p2; h; w; n] ∧ tensor_wf l
      ∧ ∀ ib i j r s a,
          ib < b → i < p1 → j < p2 → r < h → s < w → a < n →
          nth (((((ib * p1 + i) * p2 + j) * h + r) * w + s) * n + a) (data l) 0%R
          = nth (((ib * (n * (p1 * p2)) + ((a * p1 + i) * p2 + j)) * h + r) * w + s)
              (data y) 0%R.
Proof.
  intros Hinit Hs E key [sp Hk]. apply DictActor_init_inv in Hinit.
  pose proof (DictActor_forward_returned _ _ _ _ _ _ _ _ _ _ _ _ _ Hinit Hs E key) as Hrun.
  rewrite Hk in Hrun. destruct Hrun as (l & a & Hl & _ & Hrun).
  destruct Hrun as (n & p1 & p2 & conv & y & flat & a0 & ga & gb & Hn & Hn0 & Hp & Hc & Hy
                    & Hnum & Hperm & Hsl & Hwf & _).
  destruct (Conv2d_forward_inv _ _ _ Hy)
    as (_ & _ & _ & [(b' & h' & w' & Hsx & Hsy & Hh & Hw)|(h' & w' & Hsx & _)]);
    [|congruence].
  rewrite Hs in Hsx. injection Hsx as <- _ <- <-.
  exists n, p1, p2, conv, y, l. do 4 (split; [done|]). split; [done|]. split.
  { intros Hb0. unfold numel in Hnum. rewrite Hsy in Hnum. cbn in Hnum.
    apply (Nat.mul_cancel_l _ _ (b * (h * w))); [|lia].
    repeat (apply Nat.neq_mul_0; split); done. }
  do 3 (split; [done|]).
  intros ib i j r s a' Hib Hi Hj Hr Hs' Ha.
  etrans.
  { exact (permute_logits_nth (Tensor [b; n; p1; p2; h; w] (data y)) l
             b n p1 p2 h w ib i j r s a' eq_refl Hperm Hib Hi Hj Hr Hs' Ha). }
  cbn [data]. f_equal. ring.
Qed.

(** C5.  With and without sampling, whenever [DictActor.forward] returns on
    an input of shape (batch, channels, height, width), the actions of every
    key have shape (batch, p1, p2, height, width) and hold exactly one
    index per location and action plane: the indices that
    [logits_to_actions] returns for the batch * p1 * p2 * height * width
    rows of logits, which come as a column (a trailing dimension of size 1)
    when it samples and as a vector when it takes the argmax. *)
Theorem DictActor_forward_actions_shape (in_channels : nat)
    (action_space : gmap string space) (g0 g1 : G) (self : DictActor)
    (x : tensor R) (b c h w : nat) (sample : bool) (g g' : G)
    (logits : gmap string (tensor R)) (actions : gmap string (tensor nat)) :
  DictActor_init in_channels action_space g0 = (inr self, g1) →
  shape x = [b; c; h; w] →
  DictActor_forward self x sample g = (inr (logits, actions), g') →
  ∀ key, is_Some (action_space !! key) →
    ∃ n p1 p2 l a0 a (ga gb : G),
      n_actions self !! key = Some n
      ∧ action_plane_shapes self !! key = Some [p1; p2]
      ∧ logits !! key = Some l
      ∧ logits_to_actions (Tensor [b * p1 * p2 * h * w; n] (data l)) sample ga = (inr a0, gb)
      ∧ shape a0 = (if sample then [b * p1 * p2 * h * w; 1] else [b * p1 * p2 * h * w])
      ∧ actions !! key = Some a
      ∧ shape a = [b; p1; p2; h; w]
      ∧ data a = data a0
      ∧ length (data a) = b * p1 * p2 * h * w
      ∧ tensor_wf a.
Proof.
  intros Hinit Hs E key [sp Hk]. apply DictActor_init_inv in Hinit.
  pose proof (DictActor_forward_returned _ _ _ _ _ _ _ _ _ _ _ _ _ Hinit Hs E key) as Hrun.
  rewrite Hk in Hrun. destruct Hrun as (l & a & Hl & Ha & Hrun).
  destruct Hrun as (n & p1 & p2 & conv & y & flat & a0 & ga & gb & Hn & Hn0 & Hp & Hc & Hy
                    & Hnum & Hperm & Hsl & Hwf & -> & Ha0 & Hsa & Hla & Hra & ->).
  exists n, p1, p2, l, a0, (Tensor [b; p1; p2; h; w] (data a0)), ga, gb.
  do 8 (split; [done|]). split; [done|].
  unfold tensor_wf, numel. cbn [data shape]. rewrite Hla. cbn. lia.
Qed.

(** C7.  With and without sampling, whenever [DictActor.forward] returns,
    every entry of the actions of a key is an integer between 0 and
    n_actions[key] - 1, where n_actions[key] is the number of actions that
    all positions of the key's space share. *)
Theorem DictActor_forward_actions_range (in_channels : nat)
    (action_space : gmap string space) (g0 g1 : G) (self : DictActor)
    (x : tensor R) (b c h w : nat) (sample : bool) (g g' : G)
    (logits : gmap string (tensor R)) (actions : gmap string (tensor nat)) :
  DictActor_init in_channels action_space g0 = (inr self, g1) →
  shape x = [b; c; h; w] →
  DictActor_forward self x sample g = (inr (logits, actions), g') →
  ∀ key nvec, action_space !! key = Some (MultiDiscrete nvec) →
    ∃ lo a,
      nd_min nvec = inr lo ∧ nd_max nvec = inr lo
      ∧ n_actions self !! key = Some (Pos.to_nat lo)
      ∧ actions !! key = Some a
      ∧ Forall (λ i, 0 ≤ Z.of_nat i ≤ Z.pos lo - 1)%Z (data a).
Proof.
  intros Hinit Hs E key nvec Hk.
  apply DictActor_init_inr_inv in Hinit as (Hval & _ & Hb).
  destruct (DictActor_validate_spec action_space) as [[_ Hpass]|[? _]]; [|congruence].
  pose proof (DictActor_forward_returned _ _ _ _ _ _ _ _ _ _ _ _ _ Hb Hs E key) as Hrun.
  specialize (Hb key). rewrite Hk in Hrun, Hb.
  destruct (Hpass key _ Hk) as (nvec' & lo & [= <-] & _ & Hlo & Hhi).
  destruct Hb as (nvec' & lo' & conv & [= <-] & _ & Hlo' & Hn & _).
  assert (lo' = lo) as -> by congruence.
  destruct Hrun as (l & a & _ & Ha & Hrun).
  destruct Hrun as (n & p1 & p2 & conv' & y & flat & a0 & ga & gb & Hn' & _ & _ & _ & _
                    & _ & _ & _ & _ & _ & _ & _ & _ & Hra & ->).
  assert (n = Pos.to_nat lo) as -> by congruence.
  exists lo, (Tensor [b; p1; p2; h; w] (data a0)). do 4 (split; [done|]).
  cbn [data]. eapply Forall_impl; [exact Hra|]. intros i Hi. cbn beta in Hi. lia.
Qed.

(** X1.  Whenever [DictActor.forward] returns, the two dictionaries it returns
    have the keys of the action space, no more and no less. *)
Theorem DictActor_forward_keys (in_channels : nat)
    (action_space : gmap string space) (g0 g1 : G) (self : DictActor)
    (x : tensor R) (sample : bool) (g g' : G)
    (logits : gmap string (tensor R)) (actions : gmap string (tensor nat)) :
  DictActor_init in_channels action_space g0 = (inr self, g1) →
  DictActor_forward self x sample g = (inr (logits, actions), g') →
  dom logits = dom action_space ∧ dom actions = dom action_space.
Proof.
  intros Hinit E. apply DictActor_init_inv in Hinit.
  destruct (DictActor_forward_inr_inv _ _ _ _ _ _ _ E) as (b & c & h & w & Hs & _).
  pose proof (DictActor_forward_returned _ _ _ _ _ _ _ _ _ _ _ _ _ Hinit Hs E) as Hkeys.
  split; apply set_eq; intros key; rewrite !elem_of_dom; specialize (Hkeys key);
    destruct (action_space !! key) as [sp|].
  - destruct Hkeys as (l & a & -> & _). split; eauto.
  - destruct Hkeys as [-> _]. split; by intros [? ?].
  - destruct Hkeys as (l & a & _ & -> & _). split; eauto.
  - destruct Hkeys as [_ ->]. split; by intros [? ?].
Qed.

(** X2.  With and without sampling, whenever [DictActor.forward] returns on
    an input of shape (b, c, h, w), the actions of every key are a well-formed
    tensor: they hold b * p1 * p2 * h * w indices, as many as the shape
    (b, p1, p2, h, w) asks for, and none for an empty batch. *)
Theorem DictActor_forward_actions_wf (in_channels : nat)
    (action_space : gmap string space) (g0 g1 : G) (self : DictActor)
    (x : tensor R) (b c h w : nat) (sample : bool) (g g' : G)
    (logits : gmap string (tensor R)) (actions : gmap string (tensor nat)) :
  DictActor_init in_channels action_space g0 = (inr self, g1) →
  shape x = [b; c; h; w] →
  DictActor_forward self x sample g = (inr (logits, actions), g') →
  ∀ key, is_Some (action_space !! key) →
    ∃ p1 p2 a,
      action_plane_shapes self !! key = Some [p1; p2]
      ∧ actions !! key = Some a
      ∧ shape a = [b; p1; p2; h; w]
      ∧ tensor_wf a
      ∧ length (data a) = b * p1 * p2 * h * w
      ∧ (b = 0 → data a = []).
Proof.
  intros Hinit Hs E key [sp Hk]. apply DictActor_init_inv in Hinit.
  pose proof (DictActor_forward_returned _ _ _ _ _ _ _ _ _ _ _ _ _ Hinit Hs E key) as Hrun.
  rewrite Hk in Hrun. destruct Hrun as (l & a & Hl & Ha & Hrun).
  destruct Hrun as (n & p1 & p2 & conv & y & flat & a0 & ga & gb & Hn & Hn0 & Hp & Hc & Hy
                    & Hnum & Hperm & Hsl & Hwf & -> & Ha0 & Hsa & Hla & Hra & ->).
  exists p1, p2, (Tensor [b; p1; p2; h; w] (data a0)).
  do 3 (split; [done|]). split; [|split; [done|]].
  - unfold tensor_wf, numel. cbn [data shape]. rewrite Hla. cbn. lia.
  - intros ->. cbn [data]. by apply nil_length_inv.
Qed.

(** X3.  Whenever [DictActor.forward] returns on an input of shape (b, c, h, w),
    the policy logits are the output of the key's convolution and nothing
    else: the logit of action [a] on action plane (i, j) at cell (r, s) of
    board [ib] is the bias of channel (a * p1 + i) * p2 + j plus the sum,
    over the input channels, of that channel's weight times the input at
    cell (r, s) of board [ib]. *)
Theorem DictActor_forward_logits_layout (in_channels : nat)
    (action_space : gmap string space) (g0 g1 : G) (self : DictActor)
    (x : tensor R) (b c h w : nat) (sample : bool) (g g' : G)
    (logits : gmap string (tensor R)) (actions : gmap string (tensor nat)) :
  DictActor_init in_channels action_space g0 = (inr self, g1) →
  shape x = [b; c; h; w] →
  DictActor_forward self x sample g = (inr (logits, actions), g') →
  ∀ key, is_Some (action_space !! key) →
    ∃ n p1 p2 conv l,
      n_actions self !! key = Some n
      ∧ action_plane_shapes self !! key = Some [p1; p2]
      ∧ actors self !! key = Some conv
      ∧ logits !! key = Some l
      ∧ ∀ ib i j r s a,
          ib < b → i < p1 → j < p2 → r < h → s < w → a < n →
          nth (((((ib * p1 + i) * p2 + j) * h + r) * w + s) * n + a) (data l) 0%R
          = (nth ((a * p1 + i) * p2 + j) (data (conv_bias conv)) 0
             + Rsum ((λ k, nth (((a * p1 + i) * p2 + j) * c + k)
                             (data (conv_weight conv)) 0
                           * nth (((ib * c + k) * h + r) * w + s) (data x) 0)
                       <$> seq 0 c))%R.
Proof.
  intros Hinit Hs E key [sp Hk]. apply DictActor_init_inv in Hinit.
  pose proof (DictActor_forward_returned _ _ _ _ _ _ _ _ _ _ _ _ _ Hinit Hs E key) as Hrun.
  rewrite Hk in Hrun. destruct Hrun as (l & a & Hl & _ & Hrun).
  destruct Hrun as (n & p1 & p2 & conv & y & flat & a0 & ga & gb & Hn & Hn0 & Hp & Hc & Hy
                    & Hnum & Hperm & _).
  exists n, p1, p2, conv, l. do 4 (split; [done|]).
  intros ib i j r s a' Hib Hi Hj Hr Hs' Ha.
  unfold Conv2d_forward in Hy. rewrite Hs in Hy.
  destruct (conv_accepts conv c h w); [|done]. injection Hy as <-.
  assert (conv_out_channels conv = n * (p1 * p2)) as Hco.
  { unfold numel in Hnum. cbn in Hnum.
    apply (Nat.mul_cancel_l _ _ (b * (h * w))); [|lia].
    repeat (apply Nat.neq_mul_0; split); lia. }
  etrans.
  { exact (permute_logits_nth
             (Tensor [b; n; p1; p2; h; w] (conv_data conv b c h w (data x))) l
             b n p1 p2 h w ib i j r s a' eq_refl Hperm Hib Hi Hj Hr Hs' Ha). }
  cbn [data].
  replace (((((ib * n + a') * p1 + i) * p2 + j) * h + r) * w + s)
    with (((ib * conv_out_channels conv + ((a' * p1 + i) * p2 + j)) * h + r) * w + s)
    by (rewrite Hco; ring).
  apply conv_data_nth; [done| |done|done].
  rewrite Hco. replace (n * (p1 * p2)) with (n * p1 * p2) by ring.
  apply offset_bound; [|done]. by apply offset_bound.
Qed.

(** X4.  Whenever [DictActor.forward] returns with [sample=False], the action
    at a location is the first index of a largest logit there: no logit at
    the location is larger, and every logit before the chosen one is
    smaller. *)
Theorem DictActor_forward_argmax (in_channels : nat)
    (action_space : gmap string space) (g0 g1 : G) (self : DictActor)
    (x : tensor R) (g g' : G)
    (logits : gmap string (tensor R)) (actions : gmap string (tensor nat)) :
  DictActor_init in_channels action_space g0 = (inr self, g1) →
  DictActor_forward self x false g = (inr (logits, actions), g') →
  ∀ key, is_Some (action_space !! key) →
    ∃ n l a,
      n_actions self !! key = Some n
      ∧ logits !! key = Some l
      ∧ actions !! key = Some a
      ∧ ∀ loc, loc < length (data a) →
          nth loc (data a) 0 < n
          ∧ (∀ k, k < n →
               (nth (loc * n + k) (data l) 0
                <= nth (loc * n + nth loc (data a) 0%nat) (data l) 0)%R)
          ∧ (∀ k, k < nth loc (data a) 0 →
               (nth (loc * n + k) (data l) 0
                < nth (loc * n + nth loc (data a) 0%nat) (data l) 0)%R).
Proof.
  intros Hinit E. apply DictActor_init_inv in Hinit. by eapply DictActor_argmax_built.
Qed.

(** X5.  [DictActor.forward] rejects a wrong input before it draws anything: an
    input that is not 4-dimensional raises [ValueError] (the unpacking of
    [x.shape]), and, when the action space has a key, a 4-dimensional input
    whose channel count is not [in_channels] raises [RuntimeError] (the
    convolution); the generator is left as it was. *)
Theorem DictActor_forward_bad_input (in_channels : nat)
    (action_space : gmap string space) (g0 g1 : G) (self : DictActor)
    (x : tensor R) (sample : bool) (g : G) :
  DictActor_init in_channels action_space g0 = (inr self, g1) →
  (∃ key, is_Some (action_space !! key)) →
  (length (shape x) ≠ 4 → DictActor_forward self x sample g = (inl ValueError, g))
  ∧ (∀ b c h w, shape x = [b; c; h; w] → c ≠ in_channels →
       DictActor_forward self x sample g = (inl RuntimeError, g)).
Proof.
  intros Hinit (key0 & sp0 & Hk0). apply DictActor_init_inv in Hinit. split.
  - intros Hlen. unfold DictActor_forward.
    by destruct (shape x) as [|b [|c [|h [|w [|]]]]].
  - intros b c h w Hs Hc. unfold DictActor_forward. rewrite Hs.
    apply bind_inl. unfold dict_for. apply bind_inl. unfold dict_items.
    destruct (map_to_list (actors self)) as [|[key actor] rest] eqn:Hl.
    { apply map_to_list_empty_iff in Hl. specialize (Hinit key0). rewrite Hk0 in Hinit.
      destruct Hinit as (nvec & n & c' & _ & _ & _ & _ & _ & Hc' & _).
      rewrite Hl in Hc'. done. }
    assert (actors self !! key = Some actor) as Hactor.
    { apply elem_of_map_to_list. rewrite Hl. by left. }
    cbn [mapM]. apply bind_inl. cbn [fst snd]. apply bind_inl.
    specialize (Hinit key). destruct (action_space !! key) as [sp|]; cycle 1.
    { destruct Hinit as (_ & _ & ?). congruence. }
    destruct Hinit as (nvec & n & c' & _ & _ & _ & Hn & Ha & Hc' & Hci & _).
    rewrite Hactor in Hc'. injection Hc' as <-.
    unfold getitem. rewrite Hn, Ha.
    erewrite bind_inr by reflexivity. erewrite bind_inr by reflexivity.
    apply bind_inl. unfold lift, Conv2d_forward, conv_accepts. rewrite Hs, Hci.
    rewrite bool_decide_eq_false_2; [done|]. by intros (_ & ? & _).
Qed.

(** X14.  Without sampling, [DictActor.forward] returns, and leaves the
    generator alone, on every input of shape (b, in_channels, h, w) with
    in_channels, h and w other than zero, provided the numbers of output
    channels n_actions * p1 * p2 fit [int64]. *)
Theorem DictActor_forward_returns (in_channels : nat)
    (action_space : gmap string space) (g0 g1 : G) (self : DictActor)
    (x : tensor R) (b h w : nat) (g : G) :
  DictActor_init in_channels action_space g0 = (inr self, g1) →
  channels_fit_int64 action_space →
  shape x = [b; in_channels; h; w] → in_channels ≠ 0 → h ≠ 0 → w ≠ 0 →
  ∃ logits actions, DictActor_forward self x false g = (inr (logits, actions), g).
Proof.
  intros Hinit Hfit Hs Hci Hh Hw. apply DictActor_init_inv in Hinit.
  destruct (DictActor_forward_built in_channels action_space self x b h w false g)
    as (logits & actions & g' & E); try done.
  { by apply channels_fit_built with in_channels action_space. }
  exists logits, actions.
  destruct (DictActor_forward_stateless self x) as [r Hr]. rewrite Hr in E.
  injection E as -> <-. apply Hr.
Qed.

End DictActor_forward_claims.

Lemma example_space_fits : channels_fit_int64 example_space.
Proof.
  intros key nvec n Hk Hn. unfold example_space in Hk.
  apply lookup_singleton_Some in Hk as [_ [= <-]]. injection Hn as <-.
  split; [reflexivity|]. cbn. lia.
Qed.

Lemma DictActor_forward_logits_shape_witness :
  ∃ logits actions g',
    DictActor_forward example_actor example_x true ([] : list R)
      = (inr (logits, actions), g')
    ∧ ∀ key, is_Some (example_space !! key) →
        ∃ n p1 p2 conv y l,
          n_actions example_actor !! key = Some n
          ∧ action_plane_shapes example_actor !! key = Some [p1; p2]
          ∧ actors example_actor !! key = Some conv
          ∧ Conv2d_forward conv example_x = inr y
          ∧ shape y = [1; conv_out_channels conv; 1; 1]
          ∧ (1 ≠ 0 → conv_out_channels conv = n * (p1 * p2))
          ∧ logits !! key = Some l
          ∧ shape l = [1; p1; p2; 1; 1; n] ∧ tensor_wf l
          ∧ ∀ ib i j r s a,
              ib < 1 → i < p1 → j < p2 → r < 1 → s < 1 → a < n →
              nth (((((ib * p1 + i) * p2 + j) * 1 + r) * 1 + s) * n + a) (data l) 0%R
              = nth (((ib * (n * (p1 * p2)) + ((a * p1 + i) * p2 + j)) * 1 + r) * 1 + s)
                  (data y) 0%R.
Proof.
  destruct (example_actor_forward_returns true) as (logits & actions & g' & E).
  exists logits, actions, g'. split; [exact E|].
  apply (DictActor_forward_logits_shape (release := example_release) 4 example_space
           [] [] example_actor example_x 1 4 1 1 true [] g' logits actions).
  - vm_compute. reflexivity.
  - reflexivity.
  - exact E.
Defined.

Lemma DictActor_forward_actions_shape_witness :
  ∃ logits actions g',
    DictActor_forward example_actor example_x true ([] : list R)
      = (inr (logits, actions), g')
    ∧ ∀ key, is_Some (example_space !! key) →
        ∃ n p1 p2 l a0 a (ga gb : list R),
          n_actions example_actor !! key = Some n
          ∧ action_plane_shapes example_actor !! key = Some [p1; p2]
          ∧ logits !! key = Some l
          ∧ logits_to_actions (Tensor [1 * p1 * p2 * 1 * 1; n] (data l)) true ga
            = (inr a0, gb)
          ∧ shape a0 = [1 * p1 * p2 * 1 * 1; 1]
          ∧ actions !! key = Some a
          ∧ shape a = [1; p1; p2; 1; 1]
          ∧ data a = data a0
          ∧ length (data a) = 1 * p1 * p2 * 1 * 1
          ∧ tensor_wf a.
Proof.
  destruct (example_actor_forward_returns true) as (logits & actions & g' & E).
  exists logits, actions, g'. split; [exact E|].
  apply (DictActor_forward_actions_shape (release := example_release) 4 example_space
           [] [] example_actor example_x 1 4 1 1 true [] g' logits actions).
  - vm_compute. reflexivity.
  - reflexivity.
  - exact E.
Defined.

Lemma DictActor_forward_actions_range_witness :
  ∃ logits actions g',
    DictActor_forward example_actor example_x true ([] : list R)
      = (inr (logits, actions), g')
    ∧ ∀ key nvec, example_space !! key = Some (MultiDiscrete nvec) →
        ∃ lo a,
          nd_min nvec = inr lo ∧ nd_max nvec = inr lo
          ∧ n_actions example_actor !! key = Some (Pos.to_nat lo)
          ∧ actions !! key = Some a
          ∧ Forall (λ i, 0 ≤ Z.of_nat i ≤ Z.pos lo - 1)%Z (data a).
Proof.
  destruct (example_actor_forward_returns true) as (logits & actions & g' & E).
  exists logits, actions, g'. split; [exact E|].
  apply (DictActor_forward_actions_range (release := example_release) 4 example_space
           [] [] example_actor example_x 1 4 1 1 true [] g' logits actions).
  - vm_compute. reflexivity.
  - reflexivity.
  - exact E.
Defined.

Lemma DictActor_forward_keys_witness :
  ∃ logits actions g',
    DictActor_forward example_actor example_x true ([] : list R)
      = (inr (logits, actions), g')
    ∧ dom logits = dom example_space
    ∧ dom actions = dom example_space.
Proof.
  destruct (example_actor_forward_returns true) as (logits & actions & g' & E).
  exists logits, actions, g'. split; [exact E|].
  apply (DictActor_forward_keys (release := example_release) 4 example_space
           [] [] example_actor example_x true [] g' logits actions).
  - vm_compute. reflexivity.
  - exact E.
Defined.

Lemma DictActor_forward_argmax_witness :
  ∃ logits actions g',
    DictActor_forward example_actor example_x false ([] : list R)
      = (inr (logits, actions), g')
    ∧ ∀ key, is_Some (example_space !! key) →
        ∃ n l a,
          n_actions example_actor !! key = Some n
          ∧ logits !! key = Some l
          ∧ actions !! key = Some a
          ∧ ∀ loc, loc < length (data a) →
              nth loc (data a) 0 < n
              ∧ (∀ k, k < n →
                   (nth (loc * n + k) (data l) 0
                    <= nth (loc * n + nth loc (data a) 0%nat) (data l) 0)%R)
              ∧ (∀ k, k < nth loc (data a) 0 →
                   (nth (loc * n + k) (data l) 0
                    < nth (loc * n + nth loc (data a) 0%nat) (data l) 0)%R).
Proof.
  destruct (example_actor_forward_returns false) as (logits & actions & g' & E).
  exists logits, actions, g'. split; [exact E|].
  apply (DictActor_forward_argmax (release := example_release) 4 example_space
           [] [] example_actor example_x [] g' logits actions).
  - vm_compute. reflexivity.
  - exact E.
Defined.

Lemma DictActor_forward_bad_input_witness :
  DictActor_forward example_actor example_x_3_channels true ([] : list R)
  = (inl RuntimeError, []).
Proof.
  refine (proj2 (DictActor_forward_bad_input (release := example_release) 4 example_space
                   [] [] example_actor example_x_3_channels true [] _ _) 1 3 1 1 _ _).
  - vm_compute. reflexivity.
  - exists "worker". eexists. reflexivity.
  - reflexivity.
  - lia.
Defined.

Lemma DictActor_forward_returns_witness :
  ∃ logits actions,
    DictActor_forward example_actor example_x false ([] : list R)
    = (inr (logits, actions), []).
Proof.
  apply (DictActor_forward_returns (release := example_release) 4 example_space [] []
           example_actor example_x 1 1 1 []).
  - vm_compute. reflexivity.
  - exact example_space_fits.
  - reflexivity.
  - lia.
  - lia.
  - lia.
Defined.

Lemma DictActor_forward_actions_wf_witness :
  ∃ logits actions g',
    DictActor_forward example_actor example_x true ([] : list R)
      = (inr (logits, actions), g')
    ∧ ∀ key, is_Some (example_space !! key) →
        ∃ p1 p2 a,
          action_plane_shapes example_actor !! key = Some [p1; p2]
          ∧ actions !! key = Some a
          ∧ shape a = [1; p1; p2; 1; 1]
          ∧ tensor_wf a
          ∧ length (data a) = 1 * p1 * p2 * 1 * 1
          ∧ (1 = 0 → data a = []).
Proof.
  destruct (example_actor_forward_returns true) as (logits & actions & g' & E).
  exists logits, actions, g'. split; [exact E|].
  apply (DictActor_forward_actions_wf (release := example_release) 4 example_space
           [] [] example_actor example_x 1 4 1 1 true [] g' logits actions).
  - vm_compute. reflexivity.
  - reflexivity.
  - exact E.
Defined.

Lemma DictActor_forward_logits_layout_witness :
  ∃ logits actions g',
    DictActor_forward example_actor example_x false ([] : list R)
      = (inr (logits, actions), g')
    ∧ ∀ key, is_Some (example_space !! key) →
        ∃ n p1 p2 conv l,
          n_actions example_actor !! key = Some n
          ∧ action_plane_shapes example_actor !! key = Some [p1; p2]
          ∧ actors example_actor !! key = Some conv
          ∧ logits !! key = Some l
          ∧ ∀ ib i j r s a,
              ib < 1 → i < p1 → j < p2 → r < 1 → s < 1 → a < n →
              nth (((((ib * p1 + i) * p2 + j) * 1 + r) * 1 + s) * n + a) (data l) 0%R
              = (nth ((a * p1 + i) * p2 + j) (data (conv_bias conv)) 0
                 + Rsum ((λ k, nth (((a * p1 + i) * p2 + j) * 4 + k)
                                 (data (conv_weight conv)) 0
                               * nth (((ib * 4 + k) * 1 + r) * 1 + s) (data example_x) 0)
                           <$> seq 0 4))%R.
Proof.
  destruct (example_actor_forward_returns false) as (logits & actions & g' & E).
  exists logits, actions, g'. split; [exact E|].
  apply (DictActor_forward_logits_layout (release := example_release) 4 example_space
           [] [] example_actor example_x 1 4 1 1 false [] g' logits actions).
  - vm_compute. reflexivity.
  - reflexivity.
  - exact E.
Defined.

(** ** ValueActivation *)

Lemma lane_index (j n inner : nat) :
  (j / inner / n * n + (j / inner) mod n) * inner + j mod inner = j.
Proof.
  pose proof (Nat.div_mod_eq j inner). pose proof (Nat.div_mod_eq (j / inner) n). nia.
Qed.

Lemma Rsum_ge_nth (l : list R) (k : nat) :
  Forall (λ v, 0 < v)%R l → k < length l → (nth k l 0 <= Rsum l)%R.
Proof.
  intros Hl. revert k. induction Hl as [|v l Hv Hl IH]; intros k Hk; simpl in *; [lia|].
  assert (0 <= Rsum l)%R.
  { clear IH Hk. induction Hl as [|v' l' Hv' _ IH']; simpl; lra. }
  destruct k as [|k]; [lra|]. specialize (IH k ltac:(lia)). lra.
Qed.

Lemma Rsum_gt_nth (l : list R) (k : nat) :
  Forall (λ v, 0 < v)%R l → k < length l → 2 ≤ length l → (nth k l 0 < Rsum l)%R.
Proof.
  intros Hl Hk Hlen. destruct Hl as [|v l Hv Hl]; simpl in *; [lia|].
  destruct k as [|k].
  - assert (0 < Rsum l)%R; [|lra]. apply Rsum_pos; [|done].
    intros ->. simpl in Hlen. lia.
  - pose proof (Rsum_ge_nth l k Hl ltac:(lia)). lra.
Qed.

(** Along an axis with at least two entries every softmax value is
    strictly between 0 and 1. *)
Lemma softmax_between_0_1 (x y : tensor R) (d : Z) (a : nat) :
  normalize_dim (length (shape x)) d = inr a →
  2 ≤ axis_size (shape x) a →
  softmax x d = inr y →
  Forall (λ v, 0 < v < 1)%R (data y).
Proof.
  intros Ha Hn. unfold softmax. rewrite Ha. cbn. intros [= <-]. cbn.
  apply Forall_fmap, Forall_forall. intros j _. cbn.
  set (n := axis_size (shape x) a) in *. set (inner := inner_size (shape x) a).
  set (S := Rsum _).
  assert (0 < S)%R as HS by (apply Rsum_exp_lane_pos; lia).
  assert (exp (nth j (data x) 0%R) < S)%R as Hlt.
  { assert (nth ((j / inner) mod n) (exp <$> lane (data x) n inner (j / inner / n) (j mod inner)) 0%R
            = exp (nth j (data x) 0%R)) as <-.
    { unfold lane. rewrite <- list_fmap_compose.
      rewrite nth_fmap_seq by (apply Nat.mod_upper_bound; lia).
      cbn. by rewrite lane_index. }
    apply Rsum_gt_nth.
    - apply Forall_fmap, Forall_forall. intros v _. apply exp_pos.
    - rewrite length_fmap, length_lane. apply Nat.mod_upper_bound. lia.
    - by rewrite length_fmap, length_lane. }
  pose proof (exp_pos (nth j (data x) 0%R)) as He.
  split.
  - by apply Rdiv_lt_0_compat.
  - apply (Rmult_lt_reg_r S); [done|]. unfold Rdiv.
    rewrite Rmult_assoc, Rinv_l by lra. lra.
Qed.

(** [ValueActivation(dim=-1)] on a tensor whose last axis has two entries:
    the shape stays, every value is strictly between -1 and 1, and the two
    values of every pair add up to 0. *)
Lemma ValueActivation_pairs (x y : tensor R) (lead : list nat) :
  shape x = lead ++ [2] →
  ValueActivation_forward {| dim := -1 |} x = inr y →
  shape y = lead ++ [2]
  ∧ Forall (λ v, -1 < v < 1)%R (data y)
  ∧ ∀ r, r < numel_of lead → (nth (2 * r) (data y) 0 + nth (2 * r + 1) (data y) 0 = 0)%R.
Proof.
  intros Hs. unfold ValueActivation_forward. cbn [dim].
  assert (normalize_dim (length (shape x)) (-1) = inr (length lead)) as Ha.
  { rewrite normalize_dim_last; rewrite Hs, length_app; simpl; [f_equal|]; lia. }
  assert (axis_size (shape x) (length lead) = 2) as Hn.
  { unfold axis_size. rewrite Hs. clear. induction lead; simpl; auto. }
  destruct (softmax x (-1)) as [e|s] eqn:Es; cbn; [done|]. intros [= <-]. cbn.
  pose proof (softmax_between_0_1 x s (-1) _ Ha ltac:(lia) Es) as Hrange.
  unfold softmax in Es. rewrite Ha in Es. cbn in Es. injection Es as <-. cbn in *.
  split; [done|]. split.
  - apply Forall_fmap. eapply Forall_impl; [exact Hrange|]. intros v Hv. cbn. lra.
  - intros r Hr. rewrite Hn.
    assert (inner_size (shape x) (length lead) = 1) as ->.
    { unfold inner_size. rewrite Hs, drop_ge; [done|]. rewrite length_app. simpl. lia. }
    rewrite <- list_fmap_compose.
    assert (numel x = numel_of lead * 2) as Hnum
      by (unfold numel; rewrite Hs, numel_of_app; simpl; lia).
    rewrite !nth_fmap_seq by lia. cbn [compose].
    rewrite !Nat.div_1_r, !Nat.mod_1_r.
    replace ((r + (r + 0)) / 2) with r by (apply Nat.div_unique with 0; lia).
    replace ((r + (r + 0) + 1) / 2) with r by (apply Nat.div_unique with 1; lia).
    unfold lane. cbn [seq fmap list_fmap Rsum foldr].
    replace ((r * 2 + 0) * 1 + 0) with (r + (r + 0)) by lia.
    replace ((r * 2 + 1) * 1 + 0) with (r + (r + 0) + 1) by lia.
    pose proof (exp_pos (nth (r + (r + 0)) (data x) 0%R)).
    pose proof (exp_pos (nth (r + (r + 0) + 1) (data x) 0%R)).
    field. lra.
Qed.

(** ** nn.Sequential and the layers *)

Lemma Sequential_forward_app (l1 l2 : list layer) (x : tensor R) :
  Sequential_forward (l1 ++ l2) x = Sequential_forward l1 x ≫= Sequential_forward l2.
Proof.
  revert x. induction l1 as [|l l1 IH]; intros x; [done|].
  cbn. destruct (layer_forward l x) as [e|y]; cbn; [done | apply IH].
Qed.

Lemma keeps_shape_preserves_shape (f : module_) : keeps_shape f → preserves_shape f.
Proof. intros Hf t t' E. destruct (Hf t) as (t'' & E' & Hs). congruence. Qed.

Lemma conv_act_layers_shape (channels : nat) (activation : module_) (layers : list layer)
    (x : tensor R) (b h w : nat) :
  conv_act_layers channels activation layers → keeps_shape activation →
  shape x = [b; channels; h; w] → channels ≠ 0 → h ≠ 0 → w ≠ 0 →
  ∃ y, Sequential_forward layers x = inr y ∧ shape y = [b; channels; h; w].
Proof.
  intros Hl Hact Hs Hc0 Hh0 Hw0. induction Hl as [|layers c Hl IH Hci Hco].
  - by exists x.
  - destruct IH as (y & Ey & Hy). rewrite Sequential_forward_app, Ey. cbn.
    destruct (Conv2d_forward_shape c y b h w) as (z & Ez & Hz);
      [by rewrite Hci | by rewrite Hco | by rewrite Hci | done | done |].
    rewrite Ez. cbn. destruct (Hact z) as (z' & Ez' & Hz'). rewrite Ez'. cbn.
    exists z'. split; [done|]. by rewrite Hz', Hz, Hco.
Qed.

(** When the convolutions and activations of a head return a tensor on a
    4-dimensional input, either there is none of them, or the input has
    [channels] channels and the output has the batch and board sizes of the
    input, with [channels] channels. *)
Lemma conv_act_layers_forward_inv (channels : nat) (activation : module_)
    (layers : list layer) (x y : tensor R) (b c h w : nat) :
  conv_act_layers channels activation layers → preserves_shape activation →
  Sequential_forward layers x = inr y →
  shape x = [b; c; h; w] →
  (layers = [] ∧ y = x) ∨ (c = channels ∧ shape y = [b; channels; h; w]).
Proof.
  intros Hl Hact. revert y. induction Hl as [|layers conv Hl IH Hci Hco]; intros y E Hs.
  - left. split; [done|]. by injection E as <-.
  - right. rewrite Sequential_forward_app in E.
    apply result_bind_inr_inv in E as (y0 & Ey0 & E). cbn in E.
    apply result_bind_inr_inv in E as (z & Ez & E).
    apply result_bind_inr_inv in E as (z' & Ez' & [= <-]).
    apply Hact in Ez'. rewrite Ez'.
    destruct (Conv2d_forward_inv _ _ _ Ez)
      as (_ & _ & _ & [(b' & h' & w' & Hsy0 & Hsz & _)|(h' & w' & Hsy0 & _)]).
    + rewrite Hci in Hsy0. rewrite Hco in Hsz.
      destruct (IH y0 Ey0 Hs) as [[-> ->]|[-> Hy0]].
      * rewrite Hs in Hsy0. by injection Hsy0 as <- <- <- <-.
      * rewrite Hy0 in Hsy0. by injection Hsy0 as <- <- <-.
    + destruct (IH y0 Ey0 Hs) as [[-> ->]|[-> Hy0]]; congruence.
Qed.

(** The other way round: on a 4-dimensional output. *)
Lemma conv_act_layers_backward_inv (channels : nat) (activation : module_)
    (layers : list layer) (x y : tensor R) (b c h w : nat) :
  conv_act_layers channels activation layers → preserves_shape activation →
  Sequential_forward layers x = inr y →
  shape y = [b; c; h; w] →
  (layers = [] ∧ y = x) ∨ (c = channels ∧ shape x = [b; channels; h; w]).
Proof.
  intros Hl Hact. revert y c. induction Hl as [|layers conv Hl IH Hci Hco]; intros y c E Hs.
  - left. split; [done|]. by injection E as <-.
  - right. rewrite Sequential_forward_app in E.
    apply result_bind_inr_inv in E as (y0 & Ey0 & E). cbn in E.
    apply result_bind_inr_inv in E as (z & Ez & E).
    apply result_bind_inr_inv in E as (z' & Ez' & [= <-]).
    apply Hact in Ez'. rewrite Ez' in Hs.
    destruct (Conv2d_forward_inv _ _ _ Ez)
      as (_ & _ & _ & [(b' & h' & w' & Hsy0 & Hsz & _)|(h' & w' & Hsy0 & Hsz & _)]);
      [|congruence].
    rewrite Hci in Hsy0. rewrite Hco, Hs in Hsz. injection Hsz as <- -> <- <-.
    split; [done|].
    destruct (IH y0 channels Ey0 Hsy0) as [[-> ->]|[_ Hx]]; done.
Qed.

Lemma ReLU_keeps_shape : keeps_shape ReLU_forward.
Proof. intros t. by eexists. Qed.

Lemma ValueActivation_last_keeps_shape : keeps_shape (ValueActivation_forward {| dim := -1 |}).
Proof.
  intros t. unfold ValueActivation_forward, softmax. cbn [dim].
  assert (∃ a, normalize_dim (length (shape t)) (-1) = inr a) as [a ->].
  { unfold normalize_dim. rewrite bool_decide_eq_true_2 by lia. by eexists. }
  cbn. by eexists.
Qed.

Lemma AdaptiveAvgPool2d_forward_shape (x : tensor R) (b c h w : nat) :
  shape x = [b; c; h; w] →
  ∃ y, AdaptiveAvgPool2d_forward x = inr y ∧ shape y = [b; c; 1; 1].
Proof. intros Hs. unfold AdaptiveAvgPool2d_forward. rewrite Hs. cbn. by eexists. Qed.

Lemma Flatten_forward_shape (x : tensor R) (b c : nat) :
  shape x = [b; c; 1; 1] →
  ∃ y, Flatten_forward x = inr y ∧ shape y = [b; c].
Proof.
  intros Hs. unfold Flatten_forward. rewrite Hs.
  eexists. split; [reflexivity|]. cbn. f_equal. f_equal. lia.
Qed.

Lemma Linear_forward_shape (lin : Linear) (x : tensor R) (b : nat) :
  shape x = [b; in_features lin] →
  ∃ y, Linear_forward lin x = inr y ∧ shape y = [b; out_features lin]
       ∧ length (data y) = b * out_features lin.
Proof.
  intros Hs. unfold Linear_forward. rewrite Hs. cbn [last removelast].
  rewrite bool_decide_eq_true_2 by done.
  eexists. split; [reflexivity|]. split; [done|].
  cbn. rewrite length_fmap, length_seq. lia.
Qed.

Lemma Linear_forward_inv (lin : Linear) (x y : tensor R) :
  Linear_forward lin x = inr y →
  last (shape x) = Some (in_features lin)
  ∧ shape y = removelast (shape x) ++ [out_features lin].
Proof.
  unfold Linear_forward. destruct (last (shape x)); [|done].
  case_bool_decide as Hfi; [|done]. subst. by intros [= <-].
Qed.

(** The pooled head maps (b, channels, h, w) to (b, 2) when the final
    activation keeps the shape. *)
Lemma baseline_head_shape (lin : Linear) (final_value_activation : module_)
    (z : tensor R) (b c h w : nat) :
  in_features lin = c → out_features lin = 2 → keeps_shape final_value_activation →
  shape z = [b; c; h; w] →
  ∃ y, baseline_head lin final_value_activation z = inr y ∧ shape y = [b; 2].
Proof.
  intros Hfi Hfo Hact Hs. unfold baseline_head.
  destruct (AdaptiveAvgPool2d_forward_shape z b c h w) as (p & -> & Hp); [done|].
  destruct (Flatten_forward_shape p b c Hp) as (f & Ef & Hf). cbn. rewrite Ef. cbn.
  destruct (Linear_forward_shape lin f b) as (l & El & Hl & _); [by rewrite Hfi|].
  rewrite El. cbn. destruct (Hact l) as (y & Ey & Hy).
  exists y. split; [done|]. by rewrite Hy, Hl, Hfo.
Qed.

(** When the pooled head returns on a tensor of shape (b, c, h, w), the
    linear layer has taken [c] features and given a tensor of shape
    (b, out_features) to the final activation. *)
Lemma baseline_head_inv (lin : Linear) (final_value_activation : module_)
    (z y : tensor R) (b c h w : nat) :
  baseline_head lin final_value_activation z = inr y →
  shape z = [b; c; h; w] →
  c = in_features lin
  ∧ ∃ l, shape l = [b; out_features lin] ∧ final_value_activation l = inr y.
Proof.
  unfold baseline_head. intros E Hs.
  destruct (AdaptiveAvgPool2d_forward_shape z b c h w Hs) as (p & Ep & Hp).
  rewrite Ep in E. cbn in E.
  destruct (Flatten_forward_shape p b c Hp) as (f & Ef & Hf). rewrite Ef in E. cbn in E.
  apply result_bind_inr_inv in E as (l & El & E).
  apply Linear_forward_inv in El as [Hlast Hl]. rewrite Hf in Hlast, Hl.
  cbn in Hlast, Hl. injection Hlast as ->. split; [done|]. by exists l.
Qed.

Lemma baseline_layers_forward (layers : list layer) (lin : Linear)
    (final_value_activation : module_) (x : tensor R) :
  Sequential_forward (layers ++ [AdaptiveAvgPool2d_layer; Flatten_layer; Linear_layer lin;
                                 Module_layer final_value_activation]) x
  = (z ← Sequential_forward layers x; baseline_head lin final_value_activation z).
Proof.
  rewrite Sequential_forward_app.
  destruct (Sequential_forward layers x) as [e|z]; [done|]. cbn.
  unfold baseline_head.
  destruct (AdaptiveAvgPool2d_forward z) as [e|p]; [done|]. cbn.
  destruct (Flatten_forward p) as [e|f]; [done|]. cbn.
  destruct (Linear_forward lin f) as [e|l]; [done|]. cbn.
  by destruct (final_value_activation l).
Qed.

(** ** BasicActorCriticNetwork.__init__ *)

Section Network_init_lemmas.
Context {G : Type} `{!Generator G} {release : TorchRelease}.
Context {Input Obs Mask Aux St : Type}.
Variable DictInputLayer_forward : Input → result (Obs * Mask).
Local Abbreviation Network :=
  (BasicActorCriticNetwork (Input := Input) (Obs := Obs) (Mask := Mask) (Aux := Aux)
     (St := St)).

Lemma init_layers_spec (n channels : nat) (activation : unit → module_)
    (actor_layers baseline_layers : list layer) (g : G) :
  conv_act_layers channels (activation ()) actor_layers →
  conv_act_layers channels (activation ()) baseline_layers →
  ∃ al bl g',
    init_layers n channels activation actor_layers baseline_layers g = (inr (al, bl), g')
    ∧ conv_act_layers channels (activation ()) al
    ∧ conv_act_layers channels (activation ()) bl
    ∧ length al = length actor_layers + 2 * n
    ∧ length bl = length baseline_layers + 2 * n.
Proof.
  revert actor_layers baseline_layers g.
  induction n as [|n IH]; intros al bl g Hal Hbl.
  - exists al, bl, g. repeat split; try done; lia.
  - cbn [init_layers].
    destruct (Conv2d_new_total channels (Z.of_nat channels) g) as (c1 & g1 & E1 & Hi1 & Ho1);
      [lia|].
    rewrite (bind_inr _ _ _ _ _ E1).
    destruct (Conv2d_new_total channels (Z.of_nat channels) g1) as (c2 & g2 & E2 & Hi2 & Ho2);
      [lia|].
    rewrite (bind_inr _ _ _ _ _ E2).
    rewrite Nat2Z.id in Ho1, Ho2.
    rewrite <- !(assoc_L (++)). cbn [app].
    destruct (IH (al ++ [Conv2d_layer c1; Module_layer (activation ())])
                 (bl ++ [Conv2d_layer c2; Module_layer (activation ())]) g2)
      as (al' & bl' & g' & E & Hal' & Hbl' & Hlal & Hlbl); [by constructor..|].
    exists al', bl', g'. split; [done|]. split; [done|]. split; [done|].
    rewrite !length_app in Hlal, Hlbl. simpl in Hlal, Hlbl. lia.
Qed.

(** When the constructor of the network returns, it has stored what
    [Network_built] says, with n_action_value_layers - 1 pairs of a
    convolution and an activation in each head. *)
Lemma BasicActorCriticNetwork_init_inv
    (trunk : Obs * Mask → M St (tensor R * Aux)) (channels : nat)
    (action_space : gmap string space) (activation : unit → module_)
    (n_layers : Z) (final_value_activation : module_) (g g' : G) (self : Network) :
  BasicActorCriticNetwork_init DictInputLayer_forward trunk channels action_space
    activation n_layers final_value_activation g = (inr self, g') →
  Network_built DictInputLayer_forward trunk channels action_space
    (activation ()) final_value_activation self
  ∧ length (actor_base self) = 2 * Z.to_nat (n_layers - 1)
  ∧ length (baseline self) = 2 * Z.to_nat (n_layers - 1) + 4
  ∧ DictActor_validate action_space = inr ().
Proof.
  unfold BasicActorCriticNetwork_init. intros E.
  destruct (init_layers_spec (Z.to_nat (n_layers - 1)) channels activation [] [] g)
    as (al & bl & g1 & E1 & Hal & Hbl & Hlal & Hlbl); [constructor..|].
  rewrite (bind_inr _ _ _ _ _ E1) in E.
  apply bind_inr_inv in E as (act & g2 & Hact & E).
  destruct (Linear_new_total channels 2 g2) as (lin & g3 & E3 & Hfi & Hfo).
  rewrite (bind_inr _ _ _ _ _ E3) in E.
  apply (inj2 pair) in E as [E _]. apply (inj inr) in E. subst self.
  cbn [actor_base baseline]. split; [|split; [|split]]; cycle 3.
  { by apply DictActor_init_inr_inv in Hact as [? _]. }
  - split; [done|]. split; [done|]. split; [done|]. split; [done|].
    split; [by eapply DictActor_init_inv|].
    exists bl, lin. split; [done|]. split; [done|]. split; [done|].
    cbn [baseline]. by rewrite <- !(assoc_L (++)).
  - simpl in Hlal. lia.
  - rewrite !length_app. simpl in *. lia.
Qed.

(** When the constructor of the network raises, [DictActor.__init__] has
    raised. *)
Lemma BasicActorCriticNetwork_init_inl_inv
    (trunk : Obs * Mask → M St (tensor R * Aux)) (channels : nat)
    (action_space : gmap string space) (activation : unit → module_)
    (n_layers : Z) (final_value_activation : module_) (g g' : G) (e : exn) :
  BasicActorCriticNetwork_init DictInputLayer_forward trunk channels action_space
    activation n_layers final_value_activation g = (inl e, g') →
  ∃ g1, DictActor_init channels action_space g1 = (inl e, g').
Proof.
  unfold BasicActorCriticNetwork_init. intros E.
  destruct (init_layers_spec (Z.to_nat (n_layers - 1)) channels activation [] [] g)
    as (al & bl & g1 & E1 & _); [constructor..|].
  rewrite (bind_inr _ _ _ _ _ E1) in E.
  apply bind_inl_inv in E as [E|(act & g2 & Hact & E)]; [by exists g1|].
  destruct (Linear_new_total channels 2 g2) as (lin & g3 & E3 & Hfi & Hfo).
  by rewrite (bind_inr _ _ _ _ _ E3) in E.
Qed.

End Network_init_lemmas.

(** ** BasicActorCriticNetwork.forward *)

Section Forward_lemmas.
Context {G : Type} `{!Generator G} {release : TorchRelease}.
Context {Input Obs Mask Aux St : Type}.
Local Abbreviation Network :=
  (BasicActorCriticNetwork (Input := Input) (Obs := Obs) (Mask := Mask) (Aux := Aux)
     (St := St)).
Local Abbreviation world :=
  (world (G := G) (Input := Input) (Obs := Obs) (Mask := Mask) (Aux := Aux) (St := St)).

Lemma with_generator_inr {A} (m : M G A) (self : Network) (st : St) (g g' : G) (a : A) :
  m g = (inr a, g') →
  with_generator m {| w_self := self; w_trunk := st; w_gen := g |}
  = (inr a, {| w_self := self; w_trunk := st; w_gen := g' |}).
Proof. intros E. unfold with_generator. cbn. by rewrite E. Qed.

Lemma with_generator_inr_inv {A} (m : M G A) (self : Network) (st : St) (g : G) (a : A) w' :
  with_generator m {| w_self := self; w_trunk := st; w_gen := g |} = (inr a, w') →
  ∃ g', m g = (inr a, g') ∧ w' = {| w_self := self; w_trunk := st; w_gen := g' |}.
Proof.
  unfold with_generator. cbn. destruct (m g) as [r g']. intros [= -> <-]. by exists g'.
Qed.

Lemma with_trunk_inr {A} (m : M St A) (self : Network) (st st' : St) (g : G) (a : A) :
  m st = (inr a, st') →
  with_trunk m {| w_self := self; w_trunk := st; w_gen := g |}
  = (inr a, {| w_self := self; w_trunk := st'; w_gen := g |}).
Proof. intros E. unfold with_trunk. cbn. by rewrite E. Qed.

Lemma with_trunk_inr_inv {A} (m : M St A) (self : Network) (st : St) (g : G) (a : A) w' :
  with_trunk m {| w_self := self; w_trunk := st; w_gen := g |} = (inr a, w') →
  ∃ st', m st = (inr a, st') ∧ w' = {| w_self := self; w_trunk := st'; w_gen := g |}.
Proof.
  unfold with_trunk. cbn. destruct (m st) as [r st']. intros [= -> <-]. by exists st'.
Qed.

(** Once the input layer and the trunk have returned, [forward] is the two
    heads on the trunk's output. *)
Lemma forward_unfold (self : Network) (x : Input) (obs : Obs) (mask : Mask)
    (base_out : tensor R) (aux : Aux) (layers : list layer) (lin : Linear)
    (final_value_activation : module_) (sample : bool) (st st' : St) (g : G) :
  dict_input_layer self x = inr (obs, mask) →
  base_model self (obs, mask) st = (inr (base_out, aux), st') →
  baseline self = layers ++ [AdaptiveAvgPool2d_layer; Flatten_layer; Linear_layer lin;
                             Module_layer final_value_activation] →
  forward x sample {| w_self := self; w_trunk := st; w_gen := g |}
  = (a ← lift (Sequential_forward (actor_base self) base_out);
     '(policy_logits, actions) ← with_generator (DictActor_forward (actor self) a sample);
     baseline ← lift (z ← Sequential_forward layers base_out;
                      baseline_head lin final_value_activation z);
     mret {| out_actions := actions;
             out_policy_logits := policy_logits;
             out_baseline := baseline |})
      {| w_self := self; w_trunk := st'; w_gen := g |}.
Proof.
  intros Hx Ht Hbl. unfold forward.
  erewrite (bind_inr _ get_self) by reflexivity. cbn [w_self].
  rewrite Hx. erewrite bind_inr by reflexivity. cbn beta iota.
  rewrite (bind_inr _ _ _ _ _ (with_trunk_inr _ self st st' g _ Ht)). cbn beta iota.
  by rewrite Hbl, baseline_layers_forward.
Qed.

(** When [forward] returns, every step of it has returned. *)
Lemma forward_inr_inv_full (x : Input) (sample : bool) (self : Network) (st : St) (g : G)
    out w' :
  forward x sample {| w_self := self; w_trunk := st; w_gen := g |} = (inr out, w') →
  ∃ obs mask base_out aux st' a g',
    dict_input_layer self x = inr (obs, mask)
    ∧ base_model self (obs, mask) st = (inr (base_out, aux), st')
    ∧ Sequential_forward (actor_base self) base_out = inr a
    ∧ DictActor_forward (actor self) a sample g
      = (inr (out_policy_logits out, out_actions out), g')
    ∧ Sequential_forward (baseline self) base_out = inr (out_baseline out)
    ∧ w' = {| w_self := self; w_trunk := st'; w_gen := g' |}.
Proof.
  unfold forward. intros E.
  apply bind_inr_inv in E as (self' & w1 & [= <- <-] & E).
  apply bind_inr_inv in E as ([obs mask] & w1 & [Hx ->]%lift_inr_inv & E).
  apply bind_inr_inv in E as ([base_out aux] & w1 & Ht & E).
  apply with_trunk_inr_inv in Ht as (st' & Ht & ->).
  apply bind_inr_inv in E as (a & w1 & [Ha ->]%lift_inr_inv & E).
  apply bind_inr_inv in E as ([logits actions] & w1 & Hact & E).
  apply with_generator_inr_inv in Hact as (g' & Hact & ->).
  apply bind_inr_inv in E as (bl & w2 & [Hbl ->]%lift_inr_inv & E).
  injection E as <- <-. by exists obs, mask, base_out, aux, st', a, g'.
Qed.

(** Whatever [forward] does, the network object is as before, and the state
    of the trunk is what the call of the trunk has made of it. *)
Lemma forward_frame (x : Input) (sample : bool) (w : world) :
  w_self (forward x sample w).2 = w_self w
  ∧ w_trunk (forward x sample w).2 = trunk_state_after x w.
Proof.
  destruct w as [self st g]. unfold forward, trunk_state_after.
  unfold mbind, M_bind, get_self, lift, with_trunk, with_generator. cbn.
  destruct (dict_input_layer self x) as [e|[obs mask]]; cbn; [done|].
  destruct (base_model self (obs, mask) st) as [[e|[base_out aux]] st']; cbn; [done|].
  destruct (Sequential_forward (actor_base self) base_out) as [e|a]; cbn; [done|].
  destruct (DictActor_forward (actor self) a sample g) as [[e|[pl acts]] g']; cbn; [done|].
  by destruct (Sequential_forward (baseline self) base_out) as [e|bl].
Qed.

(** When [forward] returns on a built network whose activation preserves
    shapes, the trunk's output has shape (b, channels, h, w), the input of
    [DictActor.forward] has that shape too, and the final activation has
    received a tensor of shape (b, 2). *)
Lemma forward_returned (self : Network) (input_layer : Input → result (Obs * Mask))
    (trunk : Obs * Mask → M St (tensor R * Aux)) (channels : nat)
    (action_space : gmap string space) (activation final_value_activation : module_)
    (x : Input) (sample : bool) (st : St) (g : G) out w' :
  Network_built input_layer trunk channels action_space activation
    final_value_activation self →
  preserves_shape activation →
  forward x sample {| w_self := self; w_trunk := st; w_gen := g |} = (inr out, w') →
  ∃ obs mask base_out aux st' a g' b h w l,
    input_layer x = inr (obs, mask)
    ∧ trunk (obs, mask) st = (inr (base_out, aux), st')
    ∧ shape base_out = [b; channels; h; w]
    ∧ Sequential_forward (actor_base self) base_out = inr a
    ∧ shape a = [b; channels; h; w]
    ∧ DictActor_forward (actor self) a sample g
      = (inr (out_policy_logits out, out_actions out), g')
    ∧ shape l = [b; 2]
    ∧ final_value_activation l = inr (out_baseline out)
    ∧ w' = {| w_self := self; w_trunk := st'; w_gen := g' |}.
Proof.
  intros (Hdil & Hbm & Hc & Hal & Hact & layers & lin & Hl & Hfi & Hfo & Hbl) Hka E.
  apply forward_inr_inv_full in E
    as (obs & mask & base_out & aux & st' & a & g' & Hx & Ht & Ha & Hfwd & Hbase & ->).
  rewrite Hdil in Hx. rewrite Hbm in Ht.
  destruct (DictActor_forward_inr_inv _ _ _ _ _ _ _ Hfwd) as (b & ca & h & w & Hsa & _).
  assert (∃ c, shape base_out = [b; c; h; w]) as [c Hsb].
  { destruct (conv_act_layers_backward_inv _ _ _ _ _ _ _ _ _ Hal Hka Ha Hsa)
      as [[_ ->]|[_ Hsb]]; eauto. }
  rewrite Hbl, baseline_layers_forward in Hbase.
  apply result_bind_inr_inv in Hbase as (z & Ez & Hhead).
  assert (shape z = [b; channels; h; w] ∧ c = channels) as [Hsz ->].
  { destruct (conv_act_layers_forward_inv _ _ _ _ _ _ _ _ _ Hl Hka Ez Hsb)
      as [[_ ->]|[-> Hsz]]; [|done].
    destruct (baseline_head_inv _ _ _ _ _ _ _ _ Hhead Hsb) as [-> _].
    by rewrite Hfi in Hsb |- *. }
  destruct (baseline_head_inv _ _ _ _ _ _ _ _ Hhead Hsz) as (_ & l & Hsl & Hfinal).
  rewrite Hfo in Hsl.
  assert (shape a = [b; channels; h; w]) as Hsa'.
  { destruct (conv_act_layers_forward_inv _ _ _ _ _ _ _ _ _ Hal Hka Ha Hsb)
      as [[_ ->]|[_ Hsa']]; done. }
  by exists obs, mask, base_out, aux, st', a, g', b, h, w, l.
Qed.

(** With a trunk output of shape (b, channels, h, w), none of the sizes
    channels, h, w zero, activations that keep the shape, and an actor whose
    convolutions have the channels the logits need, [forward] returns and
    the baseline has shape (b, 2). *)
Lemma forward_total (self : Network) (input_layer : Input → result (Obs * Mask))
    (trunk : Obs * Mask → M St (tensor R * Aux)) (channels : nat)
    (action_space : gmap string space) (activation final_value_activation : module_)
    (x : Input) (obs : Obs) (mask : Mask) (base_out : tensor R) (aux : Aux)
    (b h w : nat) (sample : bool) (st st' : St) (g : G) :
  Network_built input_layer trunk channels action_space activation
    final_value_activation self →
  keeps_shape activation → keeps_shape final_value_activation →
  channels_fit (actor self) → (sample = true → categories_fit (actor self)) →
  input_layer x = inr (obs, mask) →
  trunk (obs, mask) st = (inr (base_out, aux), st') →
  shape base_out = [b; channels; h; w] → channels ≠ 0 → h ≠ 0 → w ≠ 0 →
  ∃ out g',
    forward x sample {| w_self := self; w_trunk := st; w_gen := g |}
    = (inr out, {| w_self := self; w_trunk := st'; w_gen := g' |})
    ∧ shape (out_baseline out) = [b; 2].
Proof.
  intros (Hdil & Hbm & Hc & Hal & Hact & layers & lin & Hl & Hfi & Hfo & Hbl)
    Hka Hkf Hfit Hcat Hx Ht Hs Hc0 Hh0 Hw0.
  rewrite (forward_unfold self x obs mask base_out aux layers lin final_value_activation
             sample st st')
    by (by rewrite ?Hdil, ?Hbm).
  destruct (conv_act_layers_shape channels activation (actor_base self) base_out b h w)
    as (a & Ea & Hsa); [done..|].
  rewrite (bind_inr _ _ _ _ _ (lift_inr _ _ _ Ea)).
  destruct (DictActor_forward_built channels action_space (actor self) a b h w sample g)
    as (logits & actions & g' & Ef); [done..|].
  rewrite (bind_inr _ _ _ _ _ (with_generator_inr _ self st' g g' _ Ef)). cbn beta iota.
  destruct (conv_act_layers_shape channels activation layers base_out b h w)
    as (z & Ez & Hsz); [done..|].
  destruct (baseline_head_shape lin final_value_activation z b channels h w)
    as (y & Ey & Hsy); [done..|].
  erewrite bind_inr; cycle 1.
  { apply lift_inr. rewrite Ez. cbn. exact Ey. }
  eexists _, g'. split; [reflexivity | done].
Qed.

End Forward_lemmas.

Lemma example_network_init :
  BasicActorCriticNetwork_init (release := example_release) example_input_layer
    example_trunk 4 example_space
    default_actor_critic_activation default_n_action_value_layers
    default_final_value_activation ([] : list R)
  = (inr example_network, []).
Proof. vm_compute. reflexivity. Qed.

Lemma counting_network_init :
  BasicActorCriticNetwork_init (release := example_release) example_input_layer
    counting_trunk 4 example_space
    default_actor_critic_activation default_n_action_value_layers
    default_final_value_activation ([] : list R)
  = (inr counting_network, []).
Proof. vm_compute. reflexivity. Qed.

(** [forward] returns on the example network, and leaves the state of its
    trunk alone. *)
Lemma example_forward_returns (sample : bool) :
  ∃ out g',
    forward example_x sample
      {| w_self := example_network; w_trunk := 0; w_gen := ([] : list R) |}
    = (inr out, {| w_self := example_network; w_trunk := 0; w_gen := g' |})
    ∧ shape (out_baseline out) = [1; 2].
Proof.
  apply (forward_total (release := example_release) example_network example_input_layer
           example_trunk 4 example_space ReLU_forward default_final_value_activation
           example_x example_x () example_x () 1 1 1 sample 0 0 []).
  - exact (proj1 (BasicActorCriticNetwork_init_inv _ _ _ _ _ _ _ _ _ _ example_network_init)).
  - apply ReLU_keeps_shape.
  - apply ValueActivation_last_keeps_shape.
  - exact (proj1 example_actor_fits).
  - intros _. exact (proj2 example_actor_fits).
  - reflexivity.
  - reflexivity.
  - reflexivity.
  - lia.
  - lia.
  - lia.
Qed.

(** [forward] returns on the network whose trunk counts its calls, and the
    count has gone up. *)
Lemma counting_forward_returns (sample : bool) :
  ∃ out g',
    forward example_x sample
      {| w_self := counting_network; w_trunk := 0; w_gen := ([] : list R) |}
    = (inr out, {| w_self := counting_network; w_trunk := 1; w_gen := g' |}).
Proof.
  destruct (forward_total (release := example_release) counting_network
              example_input_layer counting_trunk 4 example_space ReLU_forward
              default_final_value_activation
              example_x example_x () example_x () 1 1 1 sample 0 1 [])
    as (out & g' & E & _).
  - exact (proj1 (BasicActorCriticNetwork_init_inv _ _ _ _ _ _ _ _ _ _ counting_network_init)).
  - apply ReLU_keeps_shape.
  - apply ValueActivation_last_keeps_shape.
  - exact (proj1 example_actor_fits).
  - intros _. exact (proj2 example_actor_fits).
  - reflexivity.
  - reflexivity.
  - reflexivity.
  - lia.
  - lia.
  - lia.
  - by exists out, g'.
Qed.

Section Forward_structure.
Context {G : Type} `{!Generator G} {release : TorchRelease}.
Context {Input Obs Mask Aux St : Type}.
Variable DictInputLayer_forward : Input → result (Obs * Mask).
Local Abbreviation Network :=
  (BasicActorCriticNetwork (Input := Input) (Obs := Obs) (Mask := Mask) (Aux := Aux)
     (St := St)).


(** C1 (as amended).  Whenever [forward] returns on a network built with the
    default final activation [ValueActivation(dim=-1)] and an activation
    that preserves the shape of its input, the trunk's output has a shape
    (batch, base_out_channels, h, w) and the baseline has shape (batch, 2):
    two values per batch element, not one. *)
Theorem forward_baseline_shape
    (trunk : Obs * Mask → M St (tensor R * Aux)) (channels : nat)
    (action_space : gmap string space) (activation : unit → module_)
    (n_layers : Z) (g0 g1 : G) (self : Network)
    (x : Input) (sample : bool) (st : St) (g : G) out w' :
  BasicActorCriticNetwork_init DictInputLayer_forward trunk channels action_space
    activation n_layers default_final_value_activation g0 = (inr self, g1) →
  preserves_shape (activation ()) →
  forward x sample {| w_self := self; w_trunk := st; w_gen := g |} = (inr out, w') →
  ∃ obs mask base_out aux st' b h w,
    DictInputLayer_forward x = inr (obs, mask)
    ∧ trunk (obs, mask) st = (inr (base_out, aux), st')
    ∧ shape base_out = [b; channels; h; w]
    ∧ shape (out_baseline out) = [b; 2]
    ∧ numel (out_baseline out) = b * 2.
Proof.
  intros Hinit Hka E.
  apply BasicActorCriticNetwork_init_inv in Hinit as [Hbuilt _].
  destruct (forward_returned _ _ _ _ _ _ _ _ _ _ _ _ _ Hbuilt Hka E)
    as (obs & mask & base_out & aux & st' & a & g' & b & h & w & l
        & Hx & Ht & Hsb & _ & _ & _ & Hsl & Hfinal & _).
  assert (shape (out_baseline out) = [b; 2]) as Hout.
  { rewrite (keeps_shape_preserves_shape _ ValueActivation_last_keeps_shape _ _ Hfinal).
    exact Hsl. }
  exists obs, mask, base_out, aux, st', b, h, w. do 4 (split; [done|]).
  unfold numel. rewrite Hout. simpl. lia.
Qed.

(** The baseline in exact arithmetic.  In a network built with the default
    final activation, whenever [forward] returns, its baseline is
    2 * softmax(l, -1) - 1 for the output [l] of the linear layer, whose last
    axis has two entries; over the real numbers every component of the
    baseline then lies strictly between -1 and 1, and the two components
    along the softmax axis add up to 0.  Rounding is not modelled: in
    floating point a softmax value can round to 1 or to 0, and the bounds -1
    and 1 of the code's own comment ("Rescale to [-1, 1]") are reached. *)
Lemma baseline_strictly_between_minus_1_and_1
    (trunk : Obs * Mask → M St (tensor R * Aux)) (channels : nat)
    (action_space : gmap string space) (activation : unit → module_)
    (n_layers : Z) (g0 g1 : G) (self : Network)
    (x : Input) (sample : bool) (st : St) (g : G) (out : forward_out) w' :
  BasicActorCriticNetwork_init DictInputLayer_forward trunk channels action_space
    activation n_layers default_final_value_activation g0 = (inr self, g1) →
  forward x sample {| w_self := self; w_trunk := st; w_gen := g |} = (inr out, w') →
  ∃ l s lead,
    shape l = lead ++ [2]
    ∧ softmax l (-1) = inr s
    ∧ out_baseline out = Tensor (shape s) ((λ v, 2 * v - 1)%R <$> data s)
    ∧ shape (out_baseline out) = lead ++ [2]
    ∧ Forall (λ v, -1 < v < 1)%R (data (out_baseline out))
    ∧ ∀ r, r < numel_of lead →
        (nth (2 * r) (data (out_baseline out)) 0
         + nth (2 * r + 1) (data (out_baseline out)) 0 = 0)%R.
Proof.
  intros Hinit E.
  apply BasicActorCriticNetwork_init_inv in Hinit
    as ((_ & _ & _ & _ & _ & layers & lin & _ & _ & Hfo & Hbl) & _).
  apply forward_inr_inv_full in E
    as (obs & mask & base_out & aux & st' & a & g' & _ & _ & _ & _ & E & _).
  rewrite Hbl, baseline_layers_forward in E.
  apply result_bind_inr_inv in E as (z & _ & E). unfold baseline_head in E.
  apply result_bind_inr_inv in E as (p & _ & E).
  apply result_bind_inr_inv in E as (f & _ & E).
  apply result_bind_inr_inv in E as (l & Hl & Hva).
  apply Linear_forward_inv in Hl as [_ Hl]. rewrite Hfo in Hl.
  destruct (ValueActivation_pairs l (out_baseline out) _ Hl Hva) as (Hs & Hrange & Hsum).
  unfold default_final_value_activation, ValueActivation_forward in Hva. cbn [dim] in Hva.
  apply result_bind_inr_inv in Hva as (s & Es & [= Hout]).
  by exists l, s, (removelast (shape f)).
Qed.

(** X9.  The constructor appends n_action_value_layers - 1 pairs of a convolution
    and an activation to each head, and four more layers to the baseline;
    with n_action_value_layers at most 1 the actor head has no layer before
    [DictActor] and the baseline head is the pooling, the flattening, the
    linear layer and the final activation alone. *)
Theorem BasicActorCriticNetwork_init_layers
    (trunk : Obs * Mask → M St (tensor R * Aux)) (channels : nat)
    (action_space : gmap string space) (activation : unit → module_)
    (n_layers : Z) (final_value_activation : module_) (g0 g1 : G) (self : Network) :
  BasicActorCriticNetwork_init DictInputLayer_forward trunk channels action_space
    activation n_layers final_value_activation g0 = (inr self, g1) →
  length (actor_base self) = 2 * Z.to_nat (n_layers - 1)
  ∧ length (baseline self) = 2 * Z.to_nat (n_layers - 1) + 4
  ∧ ((n_layers ≤ 1)%Z →
       actor_base self = []
       ∧ ∃ lin, in_features lin = channels ∧ out_features lin = 2
                ∧ baseline self = [AdaptiveAvgPool2d_layer; Flatten_layer;
                                   Linear_layer lin; Module_layer final_value_activation]).
Proof.
  intros E. apply BasicActorCriticNetwork_init_inv in E
    as ((_ & _ & _ & _ & _ & layers & lin & _ & Hfi & Hfo & Hbl) & Hla & Hlb & _).
  split; [done|]. split; [done|].
  intros Hn. replace (Z.to_nat (n_layers - 1)) with 0 in * by lia.
  split; [by apply nil_length_inv|].
  rewrite Hbl, length_app in Hlb. simpl in Hlb.
  assert (layers = []) as -> by (apply nil_length_inv; lia).
  by exists lin.
Qed.

(** X10.  The constructor of the network raises [ValueError] exactly when the
    action space has an entry that [DictActor.__init__] rejects; when it
    raises something else, it is [RuntimeError] or [KeyError]; and when it
    returns, the action space has no such entry. *)
Theorem BasicActorCriticNetwork_init_ValueError_iff
    (trunk : Obs * Mask → M St (tensor R * Aux)) (channels : nat)
    (action_space : gmap string space) (activation : unit → module_)
    (n_layers : Z) (final_value_activation : module_) (g : G) :
  (fst (BasicActorCriticNetwork_init DictInputLayer_forward trunk channels action_space
          activation n_layers final_value_activation g) = inl ValueError
   ↔ ∃ key sp, action_space !! key = Some sp ∧ (rejected_by_a_check sp ∨ no_elements sp))
  ∧ (∀ e, fst (BasicActorCriticNetwork_init DictInputLayer_forward trunk channels
                 action_space activation n_layers final_value_activation g) = inl e →
          e = ValueError ∨ e = RuntimeError ∨ e = KeyError)
  ∧ ((∃ self g', BasicActorCriticNetwork_init DictInputLayer_forward trunk channels
                   action_space activation n_layers final_value_activation g
                 = (inr self, g'))
     → ∀ key sp, action_space !! key = Some sp →
         ¬ (rejected_by_a_check sp ∨ no_elements sp)).
Proof.
  destruct (BasicActorCriticNetwork_init DictInputLayer_forward trunk channels
              action_space activation n_layers final_value_activation g)
    as [[e|self] g'] eqn:E; cbn [fst].
  - apply BasicActorCriticNetwork_init_inl_inv in E as [g1 E].
    pose proof (DictActor_init_ValueError_spec channels action_space g1) as Hiff.
    rewrite E in Hiff. cbn [fst] in Hiff.
    split.
    { split.
      - intros [= ->]. by apply Hiff.
      - intros Hbad. apply Hiff in Hbad. by injection Hbad as ->. }
    split; [|by intros (? & ? & ?)].
    intros e' [= <-].
    apply DictActor_init_inl_inv in E as [[-> _]|[(_ & -> & _)|(_ & -> & _)]]; auto.
  - apply BasicActorCriticNetwork_init_inv in E as (_ & _ & _ & Hval).
    assert (∀ key sp, action_space !! key = Some sp →
              ¬ (rejected_by_a_check sp ∨ no_elements sp)) as Hgood.
    { destruct (DictActor_validate_spec action_space) as [[_ Hp]|[? _]]; [|congruence].
      intros key sp Hk. by apply passes_checks_not_rejected, (Hp key). }
    split; [|split; [done|done]].
    split; [done|]. intros (key & sp & Hk & Hbad). by destruct (Hgood key sp Hk).
Qed.

End Forward_structure.

(** ** Effects of forward: the network object, the trunk and the generator *)

Section Forward_effects.
Context {G : Type} `{!Generator G}.
Context {Input Obs Mask Aux St : Type}.
Local Abbreviation Network :=
  (BasicActorCriticNetwork (Input := Input) (Obs := Obs) (Mask := Mask) (Aux := Aux)
     (St := St)).
Local Abbreviation world :=
  (world (G := G) (Input := Input) (Obs := Obs) (Mask := Mask) (Aux := Aux) (St := St)).

(** C10 (as amended).  [forward], and hence [sample_actions] and
    [select_best_actions], leaves the network object as it was: the object
    after the call equals the object before it, with its own parameters, its
    layers and the stored fields [n_actions], [action_plane_shapes] and
    [base_out_channels], whether the call returns or raises.  The state of
    the trunk after the call is what the trunk's own forward has made of it,
    on what the input layer returned; a trunk whose forward leaves its state
    alone is unchanged as well. *)
Theorem forward_changes_trunk_state_only (x : Input) (sample : bool) (w : world) :
  (w_self (forward x sample w).2 = w_self w
   ∧ n_actions (actor (w_self (forward x sample w).2)) = n_actions (actor (w_self w))
   ∧ action_plane_shapes (actor (w_self (forward x sample w).2))
     = action_plane_shapes (actor (w_self w))
   ∧ base_out_channels (w_self (forward x sample w).2) = base_out_channels (w_self w))
  ∧ w_trunk (forward x sample w).2 = trunk_state_after x w
  ∧ (frozen_trunk (base_model (w_self w)) → w_trunk (forward x sample w).2 = w_trunk w)
  ∧ (w_self (sample_actions x w).2 = w_self w
     ∧ w_trunk (sample_actions x w).2 = trunk_state_after x w)
  ∧ (w_self (select_best_actions x w).2 = w_self w
     ∧ w_trunk (select_best_actions x w).2 = trunk_state_after x w).
Proof.
  destruct (forward_frame x sample w) as [Hself Htrunk].
  split; [by rewrite Hself|]. split; [done|]. split.
  - intros Hfrozen. rewrite Htrunk. unfold trunk_state_after.
    destruct (dict_input_layer (w_self w) x) as [e|xm]; [done | apply Hfrozen].
  - split; apply forward_frame.
Qed.

Lemma ignores_generator_ret {A} (a : A) : ignores_generator (mret a : M world A).
Proof. intros self st. by exists (inr a), st. Qed.

Lemma ignores_generator_lift {A} (r : result A) : ignores_generator (lift r : M world A).
Proof. intros self st. by exists r, st. Qed.

Lemma ignores_generator_get_self : ignores_generator (get_self : M world _).
Proof. intros self st. by exists (inr self), st. Qed.

Lemma ignores_generator_with_trunk {A} (m : M St A) :
  ignores_generator (with_trunk m : M world A).
Proof.
  intros self st. exists (m st).1, (m st).2. intros g. unfold with_trunk. cbn.
  by destruct (m st).
Qed.

Lemma ignores_generator_with_generator {A} (m : M G A) :
  stateless m → ignores_generator (with_generator m : M world A).
Proof.
  intros [r Hr] self st. exists r, st. intros g. unfold with_generator. cbn. by rewrite Hr.
Qed.

Lemma ignores_generator_bind {A B} (m : M world A) (f : A → M world B) :
  ignores_generator m → (∀ a, ignores_generator (f a)) → ignores_generator (m ≫= f).
Proof.
  intros Hm Hf self st. destruct (Hm self st) as ([e|a] & st' & Hr).
  - exists (inl e), st'. intros g. by rewrite (bind_inl _ _ _ _ _ (Hr g)).
  - destruct (Hf a self st') as (r' & st'' & Hr'). exists r', st''. intros g.
    by rewrite (bind_inr _ _ _ _ _ (Hr g)).
Qed.

Lemma forward_ignores_generator (x : Input) :
  ignores_generator (forward x false : M world _).
Proof.
  unfold forward.
  apply ignores_generator_bind; [apply ignores_generator_get_self|]. intros self.
  apply ignores_generator_bind; [apply ignores_generator_lift|]. intros [obs mask].
  apply ignores_generator_bind; [apply ignores_generator_with_trunk|]. intros [base_out aux].
  apply ignores_generator_bind; [apply ignores_generator_lift|]. intros a.
  apply ignores_generator_bind.
  { apply ignores_generator_with_generator, DictActor_forward_stateless. }
  intros [logits actions].
  apply ignores_generator_bind; [apply ignores_generator_lift|]. intros baseline.
  apply ignores_generator_ret.
Qed.

(** C9.  [select_best_actions] is deterministic: on the same input, the same
    network and the same state of the trunk, two calls return the same
    outcome and leave the trunk in the same state, whatever the states of
    the random generator are; the call does not advance the generator and
    leaves the network object as it was.  With [sample=False] the actions
    come from argmax alone. *)
Theorem select_best_actions_deterministic (x : Input) (self : Network) (st : St)
    (g1 g2 : G) :
  (select_best_actions x {| w_self := self; w_trunk := st; w_gen := g1 |}).1
  = (select_best_actions x {| w_self := self; w_trunk := st; w_gen := g2 |}).1
  ∧ w_trunk (select_best_actions x {| w_self := self; w_trunk := st; w_gen := g1 |}).2
    = w_trunk (select_best_actions x {| w_self := self; w_trunk := st; w_gen := g2 |}).2
  ∧ w_self (select_best_actions x {| w_self := self; w_trunk := st; w_gen := g1 |}).2
    = self
  ∧ w_gen (select_best_actions x {| w_self := self; w_trunk := st; w_gen := g1 |}).2
    = g1.
Proof.
  unfold select_best_actions.
  destruct (forward_ignores_generator x self st) as (r & st' & Hr).
  by rewrite !Hr.
Qed.

(** X8.  The policy logits and the baseline do not depend on [sample] nor on the
    state of the generator: two calls of [forward] on the same network, the
    same state of the trunk and the same input that return, return the same
    policy logits and the same baseline.  Only the actions can differ. *)
Theorem forward_logits_and_baseline_fixed (x : Input) (self : Network) (st : St)
    (sample1 sample2 : bool) (g1 g2 : G) out1 out2 w1 w2 :
  forward x sample1 {| w_self := self; w_trunk := st; w_gen := g1 |} = (inr out1, w1) →
  forward x sample2 {| w_self := self; w_trunk := st; w_gen := g2 |} = (inr out2, w2) →
  out_policy_logits out1 = out_policy_logits out2
  ∧ out_baseline out1 = out_baseline out2.
Proof.
  intros E1 E2.
  apply forward_inr_inv_full in E1
    as (obs & mask & base_out & aux & st1 & a & g1' & Hx & Ht & Ha & Hact1 & Hbl1 & _).
  apply forward_inr_inv_full in E2
    as (obs' & mask' & base_out' & aux' & st2 & a' & g2' & Hx' & Ht' & Ha' & Hact2 & Hbl2 & _).
  rewrite Hx in Hx'. injection Hx' as <- <-.
  rewrite Ht in Ht'. injection Ht' as <- <- <-.
  rewrite Ha in Ha'. injection Ha' as <-.
  split; [|congruence].
  apply DictActor_forward_inr_inv in Hact1 as (b & c & h & w & Hs & Hk1).
  apply DictActor_forward_inr_inv in Hact2 as (b' & c' & h' & w' & Hs' & Hk2).
  rewrite Hs in Hs'. injection Hs' as <- <- <- <-.
  apply map_eq. intros key. specialize (Hk1 key). specialize (Hk2 key).
  destruct (actors (actor self) !! key) as [actor|].
  - destruct Hk1 as (l1 & ? & -> & _ & Hl1 & _).
    destruct Hk2 as (l2 & ? & -> & _ & Hl2 & _).
    f_equal. by eapply logits_of_key_unique.
  - destruct Hk1 as [-> _]. by destruct Hk2 as [-> _].
Qed.

End Forward_effects.

Section Network_extras.
Context {G : Type} `{!Generator G} {release : TorchRelease}.
Context {Input Obs Mask Aux St : Type}.
Variable DictInputLayer_forward : Input → result (Obs * Mask).
Local Abbreviation Network :=
  (BasicActorCriticNetwork (Input := Input) (Obs := Obs) (Mask := Mask) (Aux := Aux)
     (St := St)).

(** X11.  Whenever [forward] returns on a built network whose activation
    preserves shapes, the trunk's output has a shape
    (b, base_out_channels, h, w), both dictionaries have the keys of the
    action space, and for every key the policy logits have shape
    (b, p1, p2, h, w, n) and the actions have shape (b, p1, p2, h, w) with
    entries below n: the batch and board sizes of both heads are those of
    the trunk's output. *)
Theorem forward_outputs
    (trunk : Obs * Mask → M St (tensor R * Aux)) (channels : nat)
    (action_space : gmap string space) (activation : unit → module_)
    (n_layers : Z) (final_value_activation : module_) (g0 g1 : G) (self : Network)
    (x : Input) (sample : bool) (st : St) (g : G) out w' :
  BasicActorCriticNetwork_init DictInputLayer_forward trunk channels action_space
    activation n_layers final_value_activation g0 = (inr self, g1) →
  preserves_shape (activation ()) →
  forward x sample {| w_self := self; w_trunk := st; w_gen := g |} = (inr out, w') →
  dom (out_policy_logits out) = dom action_space
  ∧ dom (out_actions out) = dom action_space
  ∧ ∃ obs mask base_out aux st' b h w,
      DictInputLayer_forward x = inr (obs, mask)
      ∧ trunk (obs, mask) st = (inr (base_out, aux), st')
      ∧ shape base_out = [b; channels; h; w]
      ∧ ∀ key, is_Some (action_space !! key) →
          ∃ n p1 p2 l a,
            n_actions (actor self) !! key = Some n
            ∧ action_plane_shapes (actor self) !! key = Some [p1; p2]
            ∧ out_policy_logits out !! key = Some l
            ∧ shape l = [b; p1; p2; h; w; n]
            ∧ out_actions out !! key = Some a
            ∧ shape a = [b; p1; p2; h; w]
            ∧ Forall (λ i, i < n) (data a).
Proof.
  intros Hinit Hka E.
  apply BasicActorCriticNetwork_init_inv in Hinit as [Hbuilt _].
  destruct (forward_returned _ _ _ _ _ _ _ _ _ _ _ _ _ Hbuilt Hka E)
    as (obs & mask & base_out & aux & st' & a & g' & b & h & w & l
        & Hx & Ht & Hsb & _ & Hsa & Hfwd & _).
  destruct Hbuilt as (_ & _ & _ & _ & Hact & _).
  pose proof (DictActor_forward_returned _ _ _ _ _ _ _ _ _ _ _ _ _ Hact Hsa Hfwd) as Hkeys.
  split; [|split].
  - apply set_eq. intros key. rewrite !elem_of_dom. specialize (Hkeys key).
    destruct (action_space !! key) as [sp|].
    + destruct Hkeys as (l' & a' & -> & _). split; eauto.
    + destruct Hkeys as [-> _]. split; by intros [? ?].
  - apply set_eq. intros key. rewrite !elem_of_dom. specialize (Hkeys key).
    destruct (action_space !! key) as [sp|].
    + destruct Hkeys as (l' & a' & _ & -> & _). split; eauto.
    + destruct Hkeys as [_ ->]. split; by intros [? ?].
  - exists obs, mask, base_out, aux, st', b, h, w. do 3 (split; [done|]).
    intros key [sp Hk]. specialize (Hkeys key). rewrite Hk in Hkeys.
    destruct Hkeys as (l' & a' & Hl & Ha & Hrun).
    destruct Hrun as (n & p1 & p2 & conv & y & flat & a0 & ga & gb & Hn & _ & Hp & _ & _
                      & _ & _ & Hsl & _ & _ & _ & _ & _ & Hra & ->).
    by exists n, p1, p2, l', (Tensor [b; p1; p2; h; w] (data a0)).
Qed.

(** X12.  Whenever [select_best_actions] returns on a built network, it has
    chosen, at every location, the first action with the largest policy
    logit among the logits it returns for that location. *)
Theorem select_best_actions_argmax
    (trunk : Obs * Mask → M St (tensor R * Aux)) (channels : nat)
    (action_space : gmap string space) (activation : unit → module_)
    (n_layers : Z) (final_value_activation : module_) (g0 g1 : G) (self : Network)
    (x : Input) (st : St) (g : G) out w' :
  BasicActorCriticNetwork_init DictInputLayer_forward trunk channels action_space
    activation n_layers final_value_activation g0 = (inr self, g1) →
  select_best_actions x {| w_self := self; w_trunk := st; w_gen := g |} = (inr out, w') →
  ∀ key, is_Some (action_space !! key) →
    ∃ n l a,
      n_actions (actor self) !! key = Some n
      ∧ out_policy_logits out !! key = Some l
      ∧ out_actions out !! key = Some a
      ∧ ∀ loc, loc < length (data a) →
          nth loc (data a) 0 < n
          ∧ (∀ k, k < n →
               (nth (loc * n + k) (data l) 0
                <= nth (loc * n + nth loc (data a) 0%nat) (data l) 0)%R)
          ∧ (∀ k, k < nth loc (data a) 0 →
               (nth (loc * n + k) (data l) 0
                < nth (loc * n + nth loc (data a) 0%nat) (data l) 0)%R).
Proof.
  intros Hinit E. unfold select_best_actions in E.
  apply BasicActorCriticNetwork_init_inv in Hinit as [(_ & _ & _ & _ & Hact & _) _].
  apply forward_inr_inv_full in E
    as (obs & mask & base_out & aux & st' & a & g' & _ & _ & _ & Hfwd & _).
  by eapply DictActor_argmax_built.
Qed.

End Network_extras.

(** ** Sampling does use the generator *)

Section Sampling_draws.
Context {G : Type} `{!Generator G}.

(** With [sample=True], [logits_to_actions] on [count] > 0 rows of [n] > 0
    logits takes count * n numbers from the generator. *)
Lemma logits_to_actions_sample_draws (logits : tensor R) (count n : nat) (g : G) :
  shape logits = [count; n] → n ≠ 0 → (Z.of_nat n ≤ 2 ^ 24)%Z → count ≠ 0 →
  (logits_to_actions logits true g).2 = (draws (exponential_ 1) (count * n) g).2.
Proof.
  intros Hs Hn Hcat Hc. unfold logits_to_actions.
  destruct (softmax_spec logits (-1) 1) as (p & Ep & Hsp & Hlp & Hpos).
  { rewrite Hs. by apply normalize_dim_last. }
  { by rewrite Hs. }
  rewrite (bind_inr _ _ _ _ _ (lift_inr _ _ g Ep)).
  rewrite Hs in Hsp.
  assert (numel p = count * n) as Hnum by (unfold numel; rewrite Hsp; simpl; lia).
  assert (axis_size (shape p) (length (shape p) - 1) = n) as Ha by (by rewrite Hsp).
  assert (outer_size (shape p) (length (shape p) - 1) = count) as Ho
    by (rewrite Hsp; cbn; lia).
  unfold multinomial. rewrite Ha, Ho, Hsp, Hnum.
  rewrite (bool_decide_eq_false_2 (n = 0)) by done.
  rewrite (bool_decide_eq_false_2 (2 ^ 24 < Z.of_nat n)%Z) by lia.
  rewrite (bool_decide_eq_false_2 (count = 0)) by done.
  rewrite valid_probs_positive; [|done| |done].
  - cbn [negb]. by destruct (draws (exponential_ 1) (count * n) g).
  - rewrite Hlp. unfold numel. rewrite Hs. simpl. lia.
Qed.

End Sampling_draws.

(** On a tape of three numbers, sampling one action out of two uses up two
    of them; the argmax leaves the tape alone. *)
Example logits_to_actions_uses_the_tape (u1 u2 u3 : R) :
  (logits_to_actions (Tensor [1; 2] [0; 0]%R) true [u1; u2; u3]).2 = [u3]
  ∧ (logits_to_actions (Tensor [1; 2] [0; 0]%R) false [u1; u2; u3]).2 = [u1; u2; u3].
Proof.
  split; [|reflexivity].
  rewrite (logits_to_actions_sample_draws _ 1 2); [done..|lia|done].
Qed.

(** ** The properties of the network on the example networks *)


Lemma forward_baseline_shape_witness :
  ∃ out w',
    forward example_x true
      {| w_self := example_network; w_trunk := 0; w_gen := ([] : list R) |}
    = (inr out, w')
    ∧ ∃ obs mask base_out aux st' b h w,
        example_input_layer example_x = inr (obs, mask)
        ∧ example_trunk (obs, mask) 0 = (inr (base_out, aux), st')
        ∧ shape base_out = [b; 4; h; w]
        ∧ shape (out_baseline out) = [b; 2]
        ∧ numel (out_baseline out) = b * 2.
Proof.
  destruct (example_forward_returns true) as (out & g' & E & _).
  exists out, {| w_self := example_network; w_trunk := 0; w_gen := g' |}.
  split; [exact E|].
  apply (forward_baseline_shape (release := example_release) example_input_layer
           example_trunk 4 example_space
           default_actor_critic_activation default_n_action_value_layers [] []
           example_network example_x true 0 [] out
           {| w_self := example_network; w_trunk := 0; w_gen := g' |}).
  - vm_compute. reflexivity.
  - apply keeps_shape_preserves_shape, ReLU_keeps_shape.
  - exact E.
Defined.

(** C1, as stated, fails: for a batch of one board the baseline of the
    example network holds two values, not one. *)
Lemma forward_baseline_two_values :
  ∃ out w',
    forward example_x false
      {| w_self := example_network; w_trunk := 0; w_gen := ([] : list R) |}
    = (inr out, w')
    ∧ shape (out_baseline out) = [1; 2]
    ∧ numel (out_baseline out) ≠ 1.
Proof.
  destruct (example_forward_returns false) as (out & g' & E & Hout).
  exists out, {| w_self := example_network; w_trunk := 0; w_gen := g' |}.
  split; [exact E|]. split; [exact Hout|]. unfold numel. rewrite Hout. simpl. lia.
Qed.

(** C10, as stated, fails: around a trunk that counts its calls, a call of
    [forward] returns and the state it leaves is not the state it found. *)
Lemma forward_counting_trunk_changes_state :
  ∃ out w',
    forward example_x false
      {| w_self := counting_network; w_trunk := 0; w_gen := ([] : list R) |}
    = (inr out, w')
    ∧ w_trunk w' = 1
    ∧ w' ≠ {| w_self := counting_network; w_trunk := 0; w_gen := ([] : list R) |}.
Proof.
  destruct (counting_forward_returns false) as (out & g' & E).
  exists out, {| w_self := counting_network; w_trunk := 1; w_gen := g' |}.
  split; [exact E|]. split; [reflexivity|]. intros [= ?].
Qed.

Lemma forward_logits_and_baseline_fixed_witness :
  ∃ out1 out2 w1 w2,
    forward example_x true
      {| w_self := example_network; w_trunk := 0; w_gen := ([] : list R) |}
    = (inr out1, w1)
    ∧ forward example_x false
        {| w_self := example_network; w_trunk := 0; w_gen := ([] : list R) |}
      = (inr out2, w2)
    ∧ out_policy_logits out1 = out_policy_logits out2
    ∧ out_baseline out1 = out_baseline out2.
Proof.
  destruct (example_forward_returns true) as (out1 & g1 & E1 & _).
  destruct (example_forward_returns false) as (out2 & g2 & E2 & _).
  exists out1, out2, {| w_self := example_network; w_trunk := 0; w_gen := g1 |},
    {| w_self := example_network; w_trunk := 0; w_gen := g2 |}.
  split; [exact E1|]. split; [exact E2|].
  exact (forward_logits_and_baseline_fixed example_x example_network 0 true false [] []
           out1 out2 _ _ E1 E2).
Defined.

Lemma BasicActorCriticNetwork_init_layers_witness :
  length (actor_base example_network) = 2 * Z.to_nat (default_n_action_value_layers - 1)
  ∧ length (baseline example_network)
    = 2 * Z.to_nat (default_n_action_value_layers - 1) + 4
  ∧ ((default_n_action_value_layers ≤ 1)%Z →
       actor_base example_network = []
       ∧ ∃ lin, in_features lin = 4 ∧ out_features lin = 2
                ∧ baseline example_network
                  = [AdaptiveAvgPool2d_layer; Flatten_layer; Linear_layer lin;
                     Module_layer default_final_value_activation]).
Proof.
  apply (BasicActorCriticNetwork_init_layers (release := example_release)
           example_input_layer example_trunk 4
           example_space default_actor_critic_activation default_n_action_value_layers
           default_final_value_activation [] [] example_network).
  vm_compute. reflexivity.
Defined.

Lemma forward_outputs_witness :
  ∃ out w',
    forward example_x true
      {| w_self := example_network; w_trunk := 0; w_gen := ([] : list R) |}
    = (inr out, w')
    ∧ dom (out_policy_logits out) = dom example_space
    ∧ dom (out_actions out) = dom example_space
    ∧ ∃ obs mask base_out aux st' b h w,
        example_input_layer example_x = inr (obs, mask)
        ∧ example_trunk (obs, mask) 0 = (inr (base_out, aux), st')
        ∧ shape base_out = [b; 4; h; w]
        ∧ ∀ key, is_Some (example_space !! key) →
            ∃ n p1 p2 l a,
              n_actions (actor example_network) !! key = Some n
              ∧ action_plane_shapes (actor example_network) !! key = Some [p1; p2]
              ∧ out_policy_logits out !! key = Some l
              ∧ shape l = [b; p1; p2; h; w; n]
              ∧ out_actions out !! key = Some a
              ∧ shape a = [b; p1; p2; h; w]
              ∧ Forall (λ i, i < n) (data a).
Proof.
  destruct (example_forward_returns true) as (out & g' & E & _).
  exists out, {| w_self := example_network; w_trunk := 0; w_gen := g' |}.
  split; [exact E|].
  apply (forward_outputs (release := example_release) example_input_layer example_trunk 4
           example_space
           default_actor_critic_activation default_n_action_value_layers
           default_final_value_activation [] [] example_network example_x true 0 [] out
           {| w_self := example_network; w_trunk := 0; w_gen := g' |}).
  - vm_compute. reflexivity.
  - apply keeps_shape_preserves_shape, ReLU_keeps_shape.
  - exact E.
Defined.

Lemma select_best_actions_argmax_witness :
  ∃ out w',
    select_best_actions example_x
      {| w_self := example_network; w_trunk := 0; w_gen := ([] : list R) |}
    = (inr out, w')
    ∧ ∀ key, is_Some (example_space !! key) →
        ∃ n l a,
          n_actions (actor example_network) !! key = Some n
          ∧ out_policy_logits out !! key = Some l
          ∧ out_actions out !! key = Some a
          ∧ ∀ loc, loc < length (data a) →
              nth loc (data a) 0 < n
              ∧ (∀ k, k < n →
                   (nth (loc * n + k) (data l) 0
                    <= nth (loc * n + nth loc (data a) 0%nat) (data l) 0)%R)
              ∧ (∀ k, k < nth loc (data a) 0 →
                   (nth (loc * n + k) (data l) 0
                    < nth (loc * n + nth loc (data a) 0%nat) (data l) 0)%R).
Proof.
  destruct (example_forward_returns false) as (out & g' & E & _).
  exists out, {| w_self := example_network; w_trunk := 0; w_gen := g' |}.
  split; [exact E|].
  apply (select_best_actions_argmax (release := example_release) example_input_layer
           example_trunk 4 example_space
           default_actor_critic_activation default_n_action_value_layers
           default_final_value_activation [] [] example_network example_x 0 [] out
           {| w_self := example_network; w_trunk := 0; w_gen := g' |}).
  - vm_compute. reflexivity.
  - exact E.
Defined.
